(** * mkssh: a shallow embedding of [main.py] and proofs of its specification

    Python's [str] is modelled as a list of ASCII characters, so that Python
    slicing [s[:i]] and [s[i:]] is [firstn i s] and [skipn i s].  [None] is
    [option]'s [None].  The tool targets Windows (its constants are built
    from ['C:\\'], it writes [.bat] files), so [os.path] is [ntpath] and
    [os.linesep] is CR LF; [ntpath] is translated from CPython 3.13. *)

From Stdlib Require Import Ascii String.
From Stdlib Require Import List Bool Arith Lia.
Import ListNotations.
#[global] Set Warnings "-abstract-large-number".

Open Scope list_scope.

Definition str := list ascii.

(** A Python string literal. *)
Definition py (s : string) : str := list_ascii_of_string s.

Definition chr (n : nat) : ascii := ascii_of_nat n.

Definition bsl : ascii := chr 92.   (* backslash *)
Definition fsl : ascii := chr 47.   (* forward slash *)
Definition dq  : ascii := chr 34.   (* double quote *)
Definition colon : ascii := chr 58.
Definition dot : ascii := chr 46.
Definition tilde : ascii := chr 126.

Definition streqb (a b : str) : bool :=
  if list_eq_dec ascii_dec a b then true else false.

Definition chreqb (a b : ascii) : bool := if ascii_dec a b then true else false.

(** Python truthiness of an optional string: [None] and [''] are false. *)
Definition truthy (o : option str) : bool :=
  match o with Some (_ :: _) => true | _ => false end.

(** [a or b] on optional strings. *)
Definition py_or (a b : option str) : option str := if truthy a then a else b.

(** [f'{x}'] for [x : str | None]: [None] prints as [None]. *)
Definition fmt (o : option str) : str :=
  match o with Some s => s | None => py "None" end.

Definition startswith (pre s : str) : bool := streqb (firstn (length pre) s) pre.

Definition count (c : ascii) (s : str) : nat :=
  length (filter (chreqb c) s).

(** [str.find(c, start)]: first index [>= start] holding [c]. *)
Fixpoint index_of (c : ascii) (s : str) : option nat :=
  match s with
  | [] => None
  | x :: s' => if chreqb x c then Some 0
               else option_map S (index_of c s')
  end.

Definition find_from (c : ascii) (s : str) (start : nat) : option nat :=
  option_map (Nat.add start) (index_of c (skipn start s)).

(** [str.rpartition(c)]. *)
Fixpoint rpartition (c : ascii) (s : str) : str * str * str :=
  match s with
  | [] => ([], [], [])
  | x :: s' =>
      let '(b, sp, e) := rpartition c s' in
      match sp with
      | _ :: _ => (x :: b, sp, e)
      | [] => if chreqb x c then ([], [c], s') else ([], [], s)
      end
  end.

Definition ascii_upper (c : ascii) : ascii :=
  let n := nat_of_ascii c in
  if (97 <=? n) && (n <=? 122) then chr (n - 32) else c.

Definition ascii_lower (c : ascii) : ascii :=
  let n := nat_of_ascii c in
  if (65 <=? n) && (n <=? 90) then chr (n + 32) else c.

Definition upper (s : str) : str := map ascii_upper s.
Definition lower (s : str) : str := map ascii_lower s.

(** ** [ntpath] *)
Module ntpath.

Definition sep : ascii := bsl.
Definition altsep : ascii := fsl.
Definition is_sep (c : ascii) : bool := chreqb c bsl || chreqb c fsl.

(** [s.replace(altsep, sep)] *)
Definition norm (s : str) : str := map (fun c => if chreqb c altsep then sep else c) s.

Definition unc_prefix : str := [bsl; bsl; chr 63; bsl] ++ py "UNC" ++ [bsl].

Definition splitroot (p : str) : str * str * str :=
  let normp := norm p in
  if streqb (firstn 1 normp) [sep] then
    if streqb (firstn 1 (skipn 1 normp)) [sep] then
      (* UNC drives, e.g. \\server\share or \\?\UNC\server\share *)
      let start := if streqb (upper (firstn 8 normp)) unc_prefix then 8 else 2 in
      match find_from sep normp start with
      | None => (p, [], [])
      | Some index =>
          match find_from sep normp (index + 1) with
          | None => (p, [], [])
          | Some index2 =>
              (firstn index2 p, firstn 1 (skipn index2 p), skipn (index2 + 1) p)
          end
      end
    else
      (* Relative path with root, e.g. \Windows *)
      ([], firstn 1 p, skipn 1 p)
  else if streqb (firstn 1 (skipn 1 normp)) [colon] then
    if streqb (firstn 1 (skipn 2 normp)) [sep] then
      (* Absolute drive-letter path, e.g. X:\Windows *)
      (firstn 2 p, firstn 1 (skipn 2 p), skipn 3 p)
    else
      (* Relative path with drive, e.g. X:Windows *)
      (firstn 2 p, [], skipn 2 p)
  else ([], [], p).

Definition isabs (s : str) : bool :=
  let s := norm (firstn 3 s) in
  startswith [colon; sep] (skipn 1 s) || startswith [sep; sep] s.

(** The loop [while i and p[i-1] not in seps: i -= 1]. *)
Fixpoint scan_back (p : str) (i : nat) : nat :=
  match i with
  | 0 => 0
  | S j => if is_sep (nth j p "000"%char) then i else scan_back p j
  end.

Fixpoint dropwhile (f : ascii -> bool) (l : str) : str :=
  match l with
  | [] => []
  | x :: l' => if f x then dropwhile f l' else l
  end.

(** [head.rstrip(seps)] *)
Definition rstrip_seps (s : str) : str := rev (dropwhile is_sep (rev s)).

Definition split (p0 : str) : str * str :=
  let '(d, r, p) := splitroot p0 in
  let i := scan_back p (length p) in
  let head := firstn i p in
  let tail := skipn i p in
  (d ++ r ++ rstrip_seps head, tail).

Definition dirname (p : str) : str := fst (split p).
Definition basename (p : str) : str := snd (split p).

Definition last_char (s : str) : option ascii :=
  match rev s with [] => None | c :: _ => Some c end.

(** The body of the [for p in paths] loop of [join]. *)
Definition join_step (acc : str * str * str) (p : str) : str * str * str :=
  let '(result_drive, result_root, result_path) := acc in
  let '(p_drive, p_root, p_path) := splitroot p in
  let relative (rd : str) :=
    let rpath :=
      match last_char result_path with
      | Some c => if is_sep c then result_path else result_path ++ [sep]
      | None => result_path
      end in
    (rd, result_root, rpath ++ p_path) in
  match p_root with
  | _ :: _ =>
      (* Second path is absolute *)
      (if negb (streqb p_drive []) || streqb result_drive [] then p_drive else result_drive,
       p_root, p_path)
  | [] =>
      if negb (streqb p_drive []) && negb (streqb p_drive result_drive) then
        if negb (streqb (lower p_drive) (lower result_drive)) then
          (* Different drives => ignore the first path entirely *)
          (p_drive, p_root, p_path)
        else
          (* Same drive in different case *)
          relative p_drive
      else relative result_drive
  end.

Definition join (path : str) (paths : list str) : str :=
  let '(result_drive, result_root, result_path) :=
    fold_left join_step paths (splitroot path) in
  (* add separator between UNC and non-absolute path *)
  if negb (streqb result_path []) && streqb result_root [] &&
     match last_char result_drive with
     | Some c => negb (chreqb c colon || is_sep c)
     | None => false
     end
  then result_drive ++ [sep] ++ result_path
  else result_drive ++ result_root ++ result_path.

End ntpath.

(** ** Exceptions, the file system and the interpreter state *)

Inductive exn :=
| AttributeError      (* e.g. [None.startswith] *)
| ValueError
| FileNotFoundError
| FileExistsError
| IsADirectoryError
| PermissionError
| SameFileError.      (* [shutil.SameFileError], an [OSError] *)

(** The classes caught by [except (OSError, IOError)]. *)
Definition is_oserror (e : exn) : bool :=
  match e with AttributeError | ValueError => false | _ => true end.

Inductive result (A : Type) := Ok (a : A) | Err (e : exn).
Arguments Ok {A} a.
Arguments Err {A} e.

(** The file system (regular files with their contents, directories, paths
    the process may not write) and what the program printed.  Paths are
    compared as strings. *)
Record state := mkstate {
  files : list (str * str);
  dirs : list str;
  readonly : list str;
  stdout : list str
}.

(** The process environment: [os.environ] and the script's directory
    [CUDIR = os.path.abspath(os.path.dirname(__file__))]. *)
Record env := mkenv {
  environ : list (str * str);
  cudir : str
}.

Definition M (A : Type) := state -> result A * state.

Definition ret {A} (a : A) : M A := fun s => (Ok a, s).
Definition raise {A} (e : exn) : M A := fun s => (Err e, s).
Definition bind {A B} (m : M A) (k : A -> M B) : M B :=
  fun s => match m s with
           | (Ok a, s') => k a s'
           | (Err e, s') => (Err e, s')
           end.

Notation "x <- m ;; k" := (bind m (fun x => k))
  (at level 61, m at next level, right associativity).
Notation "m ;;; k" := (bind m (fun _ => k)) (at level 61, right associativity).

(** [try: m except (OSError, IOError) as e: h e] *)
Definition try_oserror {A} (m : M A) (h : exn -> M A) : M A :=
  fun s => match m s with
           | (Err e, s') => if is_oserror e then h e s' else (Err e, s')
           | r => r
           end.

Fixpoint assoc (k : str) (l : list (str * str)) : option str :=
  match l with
  | [] => None
  | (k', v) :: l' => if streqb k k' then Some v else assoc k l'
  end.

Definition mem (k : str) (l : list str) : bool := existsb (streqb k) l.

Definition isfile (p : str) (s : state) : bool := if assoc p (files s) then true else false.
Definition isdir (p : str) (s : state) : bool := mem p (dirs s).

Definition print (line : str) : M unit :=
  fun s => (Ok tt, mkstate (files s) (dirs s) (readonly s) (stdout s ++ [line])).

Definition put_file (p c : str) : M unit :=
  fun s => (Ok tt, mkstate ((p, c) :: files s) (dirs s) (readonly s) (stdout s)).

Definition get_state : M state := fun s => (Ok s, s).

(** [os.makedirs(p, exist_ok=True)] *)
Definition makedirs (p : str) : M unit :=
  s <- get_state ;;
  if isfile p s then raise FileExistsError
  else if isdir p s then ret tt
  else if mem p (readonly s) then raise PermissionError
  else fun s => (Ok tt, mkstate (files s) (p :: dirs s) (readonly s) (stdout s)).

Definition CR : ascii := chr 13.
Definition LF : ascii := chr 10.
Definition linesep : str := [CR; LF].

(** Text mode on Windows writes every ['\n'] as [os.linesep]. *)
Definition translate_newlines (c : str) : str :=
  flat_map (fun x => if chreqb x LF then linesep else [x]) c.

(** [with open(p, 'w', encoding='utf-8') as f: f.write(c)] *)
Definition write_text (p c : str) : M unit :=
  s <- get_state ;;
  if isdir p s then raise IsADirectoryError
  else if mem p (readonly s) then raise PermissionError
  else put_file p (translate_newlines c).

(** [shutil.copy2(src, dst)]: a [dst] that is a directory receives the file
    under the source's base name; the copy's path is returned. *)
Definition copy2 (src dst : str) : M str :=
  s <- get_state ;;
  match assoc src (files s) with
  | None => if isdir src s then raise PermissionError else raise FileNotFoundError
  | Some c =>
      let dst := if isdir dst s then ntpath.join dst [ntpath.basename src] else dst in
      if streqb src dst then raise SameFileError
      else if isdir dst s then raise IsADirectoryError
      else if mem dst (readonly s) then raise PermissionError
      else put_file dst c ;;; ret dst
  end.

(** ** Module constants *)

Definition environ_get (e : env) (k : string) : option str := assoc (py k) (environ e).

Fixpoint firstn_while (f : ascii -> bool) (l : str) : str :=
  match l with [] => [] | x :: l' => if f x then x :: firstn_while f l' else [] end.

(** [os.path.expanduser] of [ntpath]. *)
Definition expanduser (e : env) (path : str) : str :=
  if negb (startswith [tilde] path) then path else
  (* i, n = 1, len(path); while i < n and path[i] not in seps: i += 1 *)
  let i := 1 + List.length (firstn_while (fun c => negb (ntpath.is_sep c)) (skipn 1 path)) in
  let userhome :=
    match environ_get e "USERPROFILE" with
    | Some h => Some h
    | None =>
        match environ_get e "HOMEPATH" with
        | None => None
        | Some hp =>
            let drive := match environ_get e "HOMEDRIVE" with Some d => d | None => [] end in
            Some (ntpath.join drive [hp])
        end
    end in
  match userhome with
  | None => path
  | Some userhome =>
      let userhome :=
        if Nat.eqb i 1 then Some userhome else
        let target_user := firstn (i - 1) (skipn 1 path) in
        let current_user := environ_get e "USERNAME" in
        if match current_user with Some u => streqb target_user u | None => false end
        then Some userhome
        else if negb (match current_user with
                      | Some u => streqb u (ntpath.basename userhome)
                      | None => false end)
        then None
        else Some (ntpath.join (ntpath.dirname userhome) [target_user]) in
      match userhome with
      | None => path
      | Some h => h ++ skipn i path
      end
  end.

Definition is_absolute_path (name : str) : bool :=
  negb (streqb name []) && ntpath.isabs name.

(** [has_path_component]: [seps = {os.sep}], plus [os.altsep] when set
    (it is ['/'] on Windows); [s in name] for a one-character [s]. *)
Definition has_path_component (name : str) : bool :=
  if streqb name [] then false
  else if ntpath.isabs name then true
  else existsb (fun sp => existsb (chreqb sp) name) [ntpath.sep; ntpath.altsep].

Definition SSHKEY_KEEP_DIR (e : env) : str := ntpath.join (cudir e) [py "sshkey"].
Definition SSHKEY_OUT_DIR : str := ntpath.join (py "C:\") [py "0"; py "sshkey"].
Definition USER_SSH_CFG_FILE (e : env) : str :=
  ntpath.join (match environ_get e "USERPROFILE" with Some h => h | None => [] end)
              [py ".ssh"; py "config"].
Definition AUTO_SSH_CFG_FILE : str :=
  ntpath.join (py "C:\") [py "1"; py "ssh-cfg-auto-generate"; py "config"].
Definition TTH_OUT_DIR : str := ntpath.join (py "C:\") [py "1"; py "tth"].
Definition PTH_OUT_DIR : str := ntpath.join (py "C:\") [py "1"; py "pth"].

(** ** [GenCmd] *)

(** The two dictionaries [_connection_config] and [_proxy_config], read
    through the properties of the same names. *)
Record GenCmd := mkGenCmd {
  section : str;
  host : option str;
  port : option str;
  user : option str;
  password : option str;
  keyfile : option str;
  auth_type : option str;
  proxy_type : option str;
  proxy_host : option str;
  proxy_port : option str;
  proxy_user : option str;
  proxy_password : option str
}.

(** A [Mapping[str, str]], read with [conf.get(k)]. *)
Definition mapping := list (str * str).
Definition conf_get (conf : mapping) (k : string) : option str := assoc (py k) conf.

(** Lines 191-195 of [GenCmd.trans_keyfile_path]: the reference after
    [~] expansion, made absolute against [SSHKEY_KEEP_DIR]. *)
Definition resolve_keyfile_ref (e : env) (keyfile_path : str) : str :=
  let keyfile_path :=
    if startswith [tilde] keyfile_path then expanduser e keyfile_path else keyfile_path in
  if negb (is_absolute_path keyfile_path)
  then ntpath.join (SSHKEY_KEEP_DIR e) [keyfile_path] else keyfile_path.

Definition trans_keyfile_path (e : env) (input_path : option str) : M str :=
  match input_path with
  | None => raise AttributeError   (* None.startswith('~') *)
  | Some input_path =>
      let keyfile_path := resolve_keyfile_ref e input_path in
      if negb (streqb (ntpath.dirname keyfile_path) SSHKEY_OUT_DIR) then
        makedirs SSHKEY_OUT_DIR ;;;
        let dst_path := ntpath.join SSHKEY_OUT_DIR [ntpath.basename keyfile_path] in
        copy2 keyfile_path dst_path ;;;
        ret dst_path
      else ret keyfile_path
  end.

(** [GenCmd.__init__]: the connection dictionary is built in order (the
    key file is resolved after host, port, user and password), then the
    proxy dictionary, then the authentication type is inferred. *)
Definition GenCmd_init (e : env) (sec : str) (conf : mapping) : M GenCmd :=
  let host := py_or (conf_get conf "HostName") (py_or (conf_get conf "Host") (Some sec)) in
  let port := conf_get conf "Port" in
  let user := conf_get conf "User" in
  let password := conf_get conf "Password" in
  kf <- trans_keyfile_path e (conf_get conf "IdentityFile") ;;
  let auth := conf_get conf "AuthType" in
  let auth :=
    if negb (truthy auth) then
      if truthy (Some kf) then Some (py "publickey")
      else if truthy password then Some (py "password")
      else auth
    else auth in
  ret (mkGenCmd sec host port user password (Some kf) auth
         (conf_get conf "ProxyType") (conf_get conf "ProxyHost")
         (conf_get conf "ProxyPort") (conf_get conf "ProxyUser")
         (conf_get conf "ProxyPassword")).

Definition q (s : str) : str := [dq] ++ s ++ [dq].

(** The proxy argument of [GenCmd.tth]. *)
Definition tth_proxyarg (g : GenCmd) : str :=
  if truthy (proxy_type g) && negb (streqb (fmt (proxy_type g)) (py "none")) then
    if truthy (proxy_user g) then
      py "-proxy " ++ fmt (proxy_type g) ++ py "://" ++ fmt (proxy_user g)
        ++ py ":" ++ fmt (proxy_password g) ++ py "@" ++ fmt (proxy_host g)
        ++ py ":" ++ fmt (proxy_port g)
    else
      py "-proxy " ++ fmt (proxy_type g) ++ py "://" ++ fmt (proxy_host g)
        ++ py ":" ++ fmt (proxy_port g)
  else py "-noproxy".

(** The authentication argument of [GenCmd.tth]. *)
Definition tth_autharg (g : GenCmd) : str :=
  let autharg := if truthy (auth_type g) then py "/auth=" ++ fmt (auth_type g)
                 else py "/ask4passwd" in
  let autharg := if truthy (user g) then autharg ++ py " /user=" ++ fmt (user g)
                 else autharg in
  let autharg := if truthy (keyfile g) then autharg ++ py " /keyfile=" ++ q (fmt (keyfile g))
                 else autharg in
  if truthy (password g) then autharg ++ py " /password=" ++ q (fmt (password g))
  else autharg.

Definition tth_exefile : str := q (py "%programfiles(x86)%\teraterm5\ttermpro.exe").

(** The text [GenCmd.tth] writes. *)
Definition tth_cmd (g : GenCmd) : str :=
  py "@echo off" ++ linesep
  ++ py "start " ++ q [] ++ py " " ++ tth_exefile ++ py " " ++ tth_proxyarg g ++ py " "
  ++ fmt (host g) ++ py ":" ++ fmt (port g)
  ++ py " /ssh " ++ tth_autharg g ++ py " & " ++ linesep.

Definition tth (g : GenCmd) (outfile : str) : M unit := write_text outfile (tth_cmd g).

Definition trans_putty_keyfile_name (input_name : str) : result str :=
  if streqb input_name [] then Err ValueError else
  let filename := ntpath.basename input_name in
  let filedir := ntpath.dirname input_name in
  let new_filename :=
    if startswith [dot] filename && Nat.eqb (count dot filename) 1
    then filename ++ py ".ppk"
    else let '(base, sep, ext) := rpartition dot filename in
         (match sep with [] => filename | _ => base end) ++ py ".ppk" in
  Ok (ntpath.join filedir [new_filename]).

Definition pth_exefile : str := q (py "%programfiles%\PuTTY\putty.exe").
Definition cork_exe : str :=
  py "C:\Program Files\Tencent\WeTERM\resources\external\win32\x86\corkscrew.exe".

(** [s.replace("\\", "\\\\")] *)
Definition double_backslashes (s : str) : str :=
  flat_map (fun c => if chreqb c bsl then [bsl; bsl] else [c]) s.

(** [''' -proxycmd "\\"{}\\" {} {} %%host %%port"'''.format(...)] *)
Definition pth_proxycmd (g : GenCmd) : str :=
  py " -proxycmd " ++ [dq; bsl; dq] ++ double_backslashes cork_exe ++ [bsl; dq]
  ++ py " " ++ fmt (proxy_host g) ++ py " " ++ fmt (proxy_port g)
  ++ py " %%host %%port" ++ [dq].

Definition is_http (g : GenCmd) : bool :=
  truthy (proxy_type g) && streqb (fmt (proxy_type g)) (py "http").

(** The authentication argument of [GenCmd.pth]. *)
Definition pth_autharg (g : GenCmd) : result str :=
  let autharg := if truthy (user g) then py " -l " ++ fmt (user g) else [] in
  match
    (if truthy (keyfile g) then
       match trans_putty_keyfile_name (fmt (keyfile g)) with
       | Ok kf => Ok (autharg ++ py " -i " ++ q kf)
       | Err x => Err x
       end
     else Ok autharg)
  with
  | Err x => Err x
  | Ok autharg =>
      Ok (if truthy (password g) then autharg ++ py " -pw " ++ q (fmt (password g))
          else autharg)
  end.

(** The text [GenCmd.pth] writes. *)
Definition pth_cmd (g : GenCmd) : result str :=
  let cmd := py "@echo off" ++ linesep in
  let '(cmd, proxyarg) :=
    if is_http g then
      (* only http is supported for now *)
      (cmd ++ (if truthy (proxy_user g)
               then py "set CORKSCREW_AUTH=" ++ fmt (proxy_user g) ++ py ":"
                      ++ fmt (proxy_password g) ++ linesep
               else []),
       pth_proxycmd g)
    else (cmd, []) in
  match pth_autharg g with
  | Err x => Err x
  | Ok autharg =>
      Ok (cmd ++ py "start " ++ q [] ++ py " " ++ pth_exefile ++ py " -ssh -noshare "
          ++ proxyarg ++ py " " ++ autharg ++ py " -P " ++ fmt (port g) ++ py " "
          ++ fmt (host g) ++ py " & " ++ linesep)
  end.

Definition pth (g : GenCmd) (outfile : str) : M unit :=
  match pth_cmd g with
  | Err x => raise x
  | Ok cmd => write_text outfile cmd
  end.

(** ** [configparser] and [FixUpper] *)

(** A [ConfigParser] after [read]: option names are stored through
    [optionxform] (lower case); [DEFAULT] holds the defaults. *)
Record ConfigParser := mkConfigParser {
  defaults : list (str * str);
  sections_ : list (str * list (str * str))
}.

Definition default_section : str := py "DEFAULT".
Definition optionxform (o : str) : str := lower o.

Fixpoint assoc_sec (s : str) (l : list (str * list (str * str))) : option (list (str * str)) :=
  match l with [] => None | (k, d) :: l' => if streqb s k then Some d else assoc_sec s l' end.

Definition has_option (c : ConfigParser) (s o : str) : bool :=
  if streqb s [] || streqb s default_section then
    if assoc (optionxform o) (defaults c) then true else false
  else match assoc_sec s (sections_ c) with
       | None => false
       | Some d =>
           if assoc (optionxform o) d then true
           else if assoc (optionxform o) (defaults c) then true else false
       end.

(** [ConfigParser.get(section, option, raw=True)]: the section's options
    chained with the defaults; [NoSectionError] is not reached from
    [FixUpper.get], which asks [has_option] first. *)
Definition cp_get_raw (c : ConfigParser) (s o : str) : option str :=
  let o := optionxform o in
  let d := if streqb s default_section then [] else
           match assoc_sec s (sections_ c) with Some d => d | None => [] end in
  match assoc o d with
  | Some v => Some v
  | None => assoc o (defaults c)
  end.

Definition FixUpper_section : str := py "upper".

(** [FixUpper.get] *)
Definition FixUpper_get (c : ConfigParser) (option : str) : str :=
  let s := FixUpper_section in
  let o := option in
  if has_option c s o then fmt (cp_get_raw c s o) else o.

(** ** The end of [main]: writing the generated ssh configuration *)

Record datetime := mkdatetime {
  year : nat; month : nat; day : nat; hour : nat; minute : nat; second : nat
}.

Definition digit (d : nat) : ascii := chr (48 + d).

Fixpoint dec_aux (fuel n : nat) (acc : str) : str :=
  match fuel with
  | 0 => acc
  | S f =>
      let acc := digit (n mod 10) :: acc in
      if n <? 10 then acc else dec_aux f (n / 10) acc
  end.

(** Decimal digits of [n]. *)
Definition dec (n : nat) : str := dec_aux (S n) n [].

(** Two digits, zero padded ([%m], [%d], [%H], [%M], [%S]). *)
Definition pad2 (n : nat) : str := if n <? 10 then digit 0 :: dec n else dec n.

(** [now.strftime('%Y%m%d-%H%M%S')] *)
Definition strftime_ts (t : datetime) : str :=
  dec (year t) ++ pad2 (month t) ++ pad2 (day t) ++ py "-"
  ++ pad2 (hour t) ++ pad2 (minute t) ++ pad2 (second t).

Definition bak_path (user_cfg_path : str) (t : datetime) : str :=
  user_cfg_path ++ py ".bak-" ++ strftime_ts t.

Definition exn_text (x : exn) : str :=
  match x with
  | AttributeError => py "AttributeError"
  | ValueError => py "ValueError"
  | FileNotFoundError => py "FileNotFoundError"
  | FileExistsError => py "FileExistsError"
  | IsADirectoryError => py "IsADirectoryError"
  | PermissionError => py "PermissionError"
  | SameFileError => py "SameFileError"
  end.

(** The [try ... except (OSError, IOError)] block of [main]. *)
Definition backup_user_cfg (e : env) (now : datetime) : M unit :=
  try_oserror
    (let user_cfg_path := ntpath.join (USER_SSH_CFG_FILE e) [] in
     s <- get_state ;;
     if isfile user_cfg_path s then
       let bak := bak_path user_cfg_path now in
       copy2 user_cfg_path bak ;;;
       print (py "Backup created: " ++ bak)
     else ret tt)
    (fun x => print (py "Warning: failed to backup " ++ USER_SSH_CFG_FILE e
                     ++ py ": " ++ exn_text x)).

(** [f.writelines(ssh_cfg_list)] *)
Definition write_lines (p : str) (ls : list str) : M unit := write_text p (concat ls).

(** Lines 429-443 of [main]: the auto-generated file is overwritten, then
    the live file is backed up and overwritten. *)
Definition write_ssh_cfg (e : env) (now : datetime) (ssh_cfg_list : list str) : M unit :=
  write_lines (ntpath.join AUTO_SSH_CFG_FILE []) ssh_cfg_list ;;;
  backup_user_cfg e now ;;;
  write_lines (ntpath.join (USER_SSH_CFG_FILE e) []) ssh_cfg_list.

(** ** [configparser.BasicInterpolation] and [ConfigParser.get] *)

(** The [InterpolationError] subclasses [_interpolate_some] raises. *)
Inductive interp_error :=
| InterpolationSyntaxError
| InterpolationMissingOptionError
| InterpolationDepthError.

Inductive iresult (A : Type) := IOk (a : A) | IErr (e : interp_error).
Arguments IOk {A} a.
Arguments IErr {A} e.

Definition MAX_INTERPOLATION_DEPTH : nat := 10.

Definition pct : ascii := chr 37.    (* % *)
Definition lpar : ascii := chr 40.   (* ( *)
Definition rpar : ascii := chr 41.   (* ) *)
Definition s_chr : ascii := chr 115. (* s *)

(** [BasicInterpolation._KEYCRE.match(rest)], [_KEYCRE] being
    [%\(([^)]+)\)s]: the group and [m.end()].  [[^)]+] is greedy and the
    next character must be [')'], so the group runs to the first [')']. *)
Definition keycre_match (rest : str) : option (str * nat) :=
  match rest with
  | c1 :: c2 :: r =>
      if chreqb c1 pct && chreqb c2 lpar then
        let name := firstn_while (fun c => negb (chreqb c rpar)) r in
        match name, skipn (length name) r with
        | _ :: _, c3 :: c4 :: _ =>
            if chreqb c3 rpar && chreqb c4 s_chr
            then Some (name, 2 + length name + 2) else None
        | _, _ => None
        end
      else None
  | _ => None
  end.

(** The [while rest:] loop of [BasicInterpolation._interpolate_some];
    [accum] is only appended to and finally joined, so it is a string here.
    [recur accum v] is the recursive call
    [self._interpolate_some(parser, option, accum, v, section, map, depth + 1)].
    Every pass that does not return consumes at least two characters, so
    [S (length rest)] passes are enough ([n = 0] is not reached). *)
Fixpoint interpolate_loop (recur : str -> str -> iresult str) (map : list (str * str))
         (n : nat) (accum rest : str) : iresult str :=
  match n with
  | 0 => IOk accum
  | S n =>
      match rest with
      | [] => IOk accum
      | _ :: _ =>
          match index_of pct rest with
          | None => IOk (accum ++ rest)
          | Some p =>
              let accum := if 0 <? p then accum ++ firstn p rest else accum in
              let rest := if 0 <? p then skipn p rest else rest in
              let c := firstn 1 (skipn 1 rest) in
              if streqb c [pct] then interpolate_loop recur map n (accum ++ [pct]) (skipn 2 rest)
              else if streqb c [lpar] then
                match keycre_match rest with
                | None => IErr InterpolationSyntaxError
                | Some (name, e) =>
                    let var := optionxform name in
                    let rest := skipn e rest in
                    match assoc var map with
                    | None => IErr InterpolationMissingOptionError
                    | Some v =>
                        if existsb (chreqb pct) v then
                          match recur accum v with
                          | IOk accum => interpolate_loop recur map n accum rest
                          | IErr x => IErr x
                          end
                        else interpolate_loop recur map n (accum ++ v) rest
                    end
                end
              else IErr InterpolationSyntaxError
          end
      end
  end.

(** [BasicInterpolation._interpolate_some(parser, option, accum, rest,
    section, map, depth)].  [d] bounds the recursion: it is called with
    [depth + d = MAX_INTERPOLATION_DEPTH + 1], so a recursive call with
    [d = 0] would be at a depth the check at the top refuses. *)
Fixpoint interpolate_some (d : nat) (map : list (str * str)) (depth : nat)
         (accum rest : str) : iresult str :=
  if MAX_INTERPOLATION_DEPTH <? depth then IErr InterpolationDepthError else
  interpolate_loop
    (fun accum v =>
       match d with
       | 0 => IErr InterpolationDepthError
       | S d' => interpolate_some d' map (S depth) accum v
       end)
    map (S (length rest)) accum rest.

(** [BasicInterpolation.before_get]: [L = []], [_interpolate_some(..., L,
    value, ..., 1)], [''.join(L)]. *)
Definition before_get (map : list (str * str)) (value : str) : iresult str :=
  interpolate_some MAX_INTERPOLATION_DEPTH map 1 [] value.

(** [ConfigParser._unify_values(section, None)]: the section's options
    chained with the defaults ([None] for a missing section other than
    [DEFAULT], which raises [NoSectionError]). *)
Definition unify_values (c : ConfigParser) (s : str) : option (list (str * str)) :=
  if streqb s default_section then Some (defaults c)
  else match assoc_sec s (sections_ c) with
       | Some d => Some (d ++ defaults c)
       | None => None
       end.

(** [ConfigParser.get(section, option, fallback=None)] (the call
    [SectionProxy.get(option)] makes): a missing section or option gives the
    fallback, a value is interpolated. *)
Definition cp_get (c : ConfigParser) (s o : str) : iresult (option str) :=
  match unify_values c s with
  | None => IOk None
  | Some d =>
      match assoc (optionxform o) d with
      | None => IOk None
      | Some v =>
          match before_get d v with
          | IOk v => IOk (Some v)
          | IErr x => IErr x
          end
      end
  end.

Definition has_key (k : str) (d : list (str * str)) : bool :=
  if assoc k d then true else false.

(** [ConfigParser.options(section)] for an existing section: the section's
    keys, then the keys of [DEFAULT] it does not have ([opts.update]). *)
Definition options (c : ConfigParser) (s : str) : list str :=
  match assoc_sec s (sections_ c) with
  | None => []
  | Some d => List.map fst d ++ filter (fun k => negb (has_key k d)) (List.map fst (defaults c))
  end.

(** [ConfigParser.sections()] *)
Definition sections (c : ConfigParser) : list str := List.map fst (sections_ c).

(** ** [main] *)

(** [main] can stop on a Python exception of the model or on an
    [InterpolationError] raised by [conf.get]. *)
Inductive main_exn := PyExc (x : exn) | InterpExc (x : interp_error).

Inductive mresult (A : Type) := MOk (a : A) | MErr (e : main_exn).
Arguments MOk {A} a.
Arguments MErr {A} e.

Definition MM (A : Type) := state -> mresult A * state.

Definition mret {A} (a : A) : MM A := fun s => (MOk a, s).
Definition mbind {A B} (m : MM A) (k : A -> MM B) : MM B :=
  fun s => match m s with
           | (MOk a, s') => k a s'
           | (MErr x, s') => (MErr x, s')
           end.

Definition lift {A} (m : M A) : MM A :=
  fun s => match m s with
           | (Ok a, s') => (MOk a, s')
           | (Err x, s') => (MErr (PyExc x), s')
           end.

Definition lift_i {A} (r : iresult A) : MM A :=
  fun s => match r with
           | IOk a => (MOk a, s)
           | IErr x => (MErr (InterpExc x), s)
           end.

(** The options [GenCmd.__init__] reads with [conf.get]. *)
Definition GenCmd_keys : list string :=
  ["HostName"; "Host"; "Port"; "User"; "Password"; "IdentityFile"; "AuthType";
   "ProxyType"; "ProxyHost"; "ProxyPort"; "ProxyUser"; "ProxyPassword"]%string.

(** The [Mapping] [GenCmd] is given, [conf = conf_parser[section]], seen
    through the keys [GenCmd] reads: [conf.get(k)] is [cp_get c section k],
    absent when it is [None].  [main] has already read every option of the
    section through the same [cp_get] when it builds [GenCmd], so these
    calls do not raise there. *)
Fixpoint proxy_mapping (c : ConfigParser) (sec : str) (ks : list string) : iresult mapping :=
  match ks with
  | [] => IOk []
  | k :: ks =>
      match cp_get c sec (py k), proxy_mapping c sec ks with
      | IErr x, _ => IErr x
      | IOk _, IErr x => IErr x
      | IOk None, IOk m => IOk m
      | IOk (Some v), IOk m => IOk ((py k, v) :: m)
      end
  end.

(** [f'    {key_with_upper} {value}'] *)
Definition key_line (fu : ConfigParser) (key : str) (value : option str) : str :=
  py "    " ++ FixUpper_get fu key ++ py " " ++ fmt value.

(** The [for key in conf.keys()] loop: each line is printed and appended
    to [ssh_cfg_list] with a ['\n']; the appended lines are returned. *)
Fixpoint main_keys (c fu : ConfigParser) (sec : str) (keys : list str) : MM (list str) :=
  match keys with
  | [] => mret []
  | key :: keys =>
      mbind (lift_i (cp_get c sec key)) (fun value =>
      let ssh_cfg_line := key_line fu key value in
      mbind (lift (print ssh_cfg_line)) (fun _ =>
      mbind (main_keys c fu sec keys) (fun ls =>
      mret ((ssh_cfg_line ++ [LF]) :: ls))))
  end.

Definition bat_file (outdir sec : str) : str := ntpath.join outdir [sec ++ py ".bat"].

(** The body of [for section in conf_parser.sections()]. *)
Definition main_section (e : env) (c fu : ConfigParser) (sec : str) : MM (list str) :=
  let ssh_cfg_line := py "Host " ++ sec in
  mbind (lift (print ssh_cfg_line)) (fun _ =>
  mbind (main_keys c fu sec (options c sec)) (fun ls =>
  mbind (lift_i (proxy_mapping c sec GenCmd_keys)) (fun conf =>
  mbind (lift (GenCmd_init e sec conf)) (fun cmd =>
  mbind (lift (makedirs TTH_OUT_DIR ;;; tth cmd (bat_file TTH_OUT_DIR sec))) (fun _ =>
  mbind (lift (makedirs PTH_OUT_DIR ;;; pth cmd (bat_file PTH_OUT_DIR sec))) (fun _ =>
  mret ((ssh_cfg_line ++ [LF]) :: ls))))))).

Fixpoint main_sections (e : env) (c fu : ConfigParser) (secs : list str) : MM (list str) :=
  match secs with
  | [] => mret []
  | sec :: secs =>
      mbind (main_section e c fu sec) (fun ls =>
      mbind (main_sections e c fu secs) (fun ls' =>
      mret (ls ++ ls')))
  end.

(** [main], given the parsed [ssh-host.ini] ([HostConf().conf_parser]) and
    [upper-case.ini] ([FixUpper().conf_parser]) and the time
    [datetime.datetime.now()] returns. *)
Definition main (e : env) (now : datetime) (c fu : ConfigParser) : MM unit :=
  mbind (main_sections e c fu (sections c)) (fun ssh_cfg_list =>
  lift (write_ssh_cfg e now ssh_cfg_list)).

(** The text of [ssh_cfg_list] as a function of the two parsed files. *)
Fixpoint render_keys (c fu : ConfigParser) (sec : str) (keys : list str) : iresult (list str) :=
  match keys with
  | [] => IOk []
  | key :: keys =>
      match cp_get c sec key, render_keys c fu sec keys with
      | IErr x, _ => IErr x
      | IOk _, IErr x => IErr x
      | IOk value, IOk ls => IOk ((key_line fu key value ++ [LF]) :: ls)
      end
  end.

Fixpoint render (c fu : ConfigParser) (secs : list str) : iresult (list str) :=
  match secs with
  | [] => IOk []
  | sec :: secs =>
      match render_keys c fu sec (options c sec), render c fu secs with
      | IErr x, _ => IErr x
      | IOk _, IErr x => IErr x
      | IOk ls, IOk ls' => IOk (((py "Host " ++ sec) ++ [LF]) :: ls ++ ls')
      end
  end.

(** ** [HostConf.compat_file] and [HostConf.compat_dir]

    [HostConf.__init__] has both calls commented out; the two methods import
    the hosts of the OpenSSH configuration file and of the Git Bash
    [ssh-host.d] directory into the parser.  They only read the file
    system, so they are functions of the state here.  A character is a code
    point below 256 for the character classes of [str] and [re]. *)

(** [str.isspace], which is also [\s] of [re] on a [str] pattern. *)
Definition is_space (c : ascii) : bool :=
  let n := nat_of_ascii c in
  ((9 <=? n) && (n <=? 13)) || ((28 <=? n) && (n <=? 32)) || (n =? 133) || (n =? 160).

(** [\w] of [re] on a [str] pattern: ['_'] and [str.isalnum]. *)
Definition is_word (c : ascii) : bool :=
  let n := nat_of_ascii c in
  ((48 <=? n) && (n <=? 57)) || ((65 <=? n) && (n <=? 90)) || (n =? 95)
  || ((97 <=? n) && (n <=? 122)) || (n =? 170) || (n =? 178) || (n =? 179)
  || (n =? 181) || (n =? 185) || (n =? 186) || ((188 <=? n) && (n <=? 190))
  || ((192 <=? n) && (n <=? 214)) || ((216 <=? n) && (n <=? 246)) || (248 <=? n).

Definition hash : ascii := chr 35.   (* # *)
Definition star : ascii := chr 42.   (* * *)
Definition space : ascii := chr 32.

(** [str.split()], from the right: the word being read and the words after it. *)
Fixpoint split_ws_go (s : str) : str * list str :=
  match s with
  | [] => ([], [])
  | c :: s' =>
      let '(w, ws) := split_ws_go s' in
      if is_space c then ([], match w with [] => ws | _ :: _ => w :: ws end)
      else (c :: w, ws)
  end.

Definition split_ws (s : str) : list str :=
  let '(w, ws) := split_ws_go s in
  match w with [] => ws | _ :: _ => w :: ws end.

(** [sep.join(l)] *)
Fixpoint join_with (sep : str) (l : list str) : str :=
  match l with
  | [] => []
  | [x] => x
  | x :: l' => x ++ sep ++ join_with sep l'
  end.

(** [s.split(sep)] for a non-empty [sep]: scanning from the left, every
    occurrence of [sep] ends a piece; [skip] counts the characters of the
    occurrence just found that are still to be passed over. *)
Fixpoint split_on_go (sep : str) (skip : nat) (s : str) : str * list str :=
  match s with
  | [] => ([], [])
  | c :: s' =>
      match skip with
      | S k => split_on_go sep k s'
      | 0 =>
          if startswith sep s then
            let '(p, ps) := split_on_go sep (length sep - 1) s' in ([], p :: ps)
          else
            let '(p, ps) := split_on_go sep 0 s' in (c :: p, ps)
      end
  end.

Definition split_on (sep s : str) : list str :=
  let '(p, ps) := split_on_go sep 0 s in p :: ps.

Definition Host : str := py "Host".

(** [line.split('Host')[-1].split()[0]]; [None] is the [IndexError] of
    indexing an empty [split()]. *)
Definition host_of_line (line : str) : option str :=
  match split_ws (last (split_on Host line) []) with
  | [] => None
  | w :: _ => Some w
  end.

Fixpoint lstrip_ws (s : str) : str :=
  match s with
  | [] => []
  | c :: s' => if is_space c then lstrip_ws s' else s
  end.

(** [re.search(r'^\s*#', line)] *)
Definition re_comment (line : str) : bool :=
  match lstrip_ws line with c :: _ => chreqb c hash | [] => false end.

(** [re.search(r'^\s*$', line)]: [$] also matches before a final ['\n'],
    which [\s*] matches as well, so the line is all white space. *)
Definition re_blank (line : str) : bool := forallb is_space line.

(** [\b] after a word character: the end, or a non-word character. *)
Definition word_end (s : str) : bool :=
  match s with [] => true | c :: _ => negb (is_word c) end.

(** [re.search(r'^\s*\bHost\b', line)]: [\s*] cannot stop before a
    white-space character followed by [H], and white space is no word
    character, so the first [\b] always holds. *)
Definition re_host_start (line : str) : bool :=
  let r := lstrip_ws line in
  startswith Host r && word_end (skipn (length Host) r).

(** [re.search(r'\bHost\b', s)]; [prev] is whether the character before
    [s] is a word character. *)
Fixpoint host_word_from (prev : bool) (s : str) : bool :=
  match s with
  | [] => false
  | c :: s' =>
      (negb prev && startswith Host s && word_end (skipn (length Host) s))
      || host_word_from (is_word c) s'
  end.

Definition re_host_any (line : str) : bool := host_word_from false line.

Definition is_ascii_letter (c : ascii) : bool :=
  let n := nat_of_ascii c in ((65 <=? n) && (n <=? 90)) || ((97 <=? n) && (n <=? 122)).

(** [re.search(r'^/[A-Za-z]/', value)] *)
Definition re_gitbash_path (value : str) : bool :=
  match value with
  | c1 :: c2 :: c3 :: _ => chreqb c1 fsl && is_ascii_letter c2 && chreqb c3 fsl
  | _ => false
  end.

(** [s.replace(c, r, 1)] for a single character [c]. *)
Fixpoint replace_first (c : ascii) (r s : str) : str :=
  match s with
  | [] => []
  | x :: s' => if chreqb x c then r ++ s' else x :: replace_first c r s'
  end.

(** [s.replace(c, r, -1)] for a single character [c]. *)
Definition replace_all (c : ascii) (r s : str) : str :=
  flat_map (fun x => if chreqb x c then r else [x]) s.

(** [compat_file]'s rewriting of a Git Bash path:
    [if re.search(r'^/[A-Za-z]/', value):] [value.replace('/', '', 1)],
    [value.replace('/', ':\\', 1)], [value.replace('/', '\\', -1)]. *)
Definition gitbash_value (value : str) : str :=
  if re_gitbash_path value then
    replace_all fsl [bsl] (replace_first fsl [colon; bsl] (replace_first fsl [] value))
  else value.

Definition endswith (suf s : str) : bool :=
  streqb (skipn (length s - length suf) s) suf.

(** Reading in text mode with universal newlines: CR LF and a lone CR
    read as ['\n']. *)
Fixpoint universal_newlines (s : str) : str :=
  match s with
  | [] => []
  | x :: s' =>
      if chreqb x CR then
        match s' with
        | y :: s'' => if chreqb y LF then LF :: universal_newlines s''
                      else LF :: universal_newlines s'
        | [] => [LF]
        end
      else x :: universal_newlines s'
  end.

(** [f.readlines()], from the right: the line being read and the lines
    after it; every line but the last ends with ['\n']. *)
Fixpoint readlines_go (s : str) : str * list str :=
  match s with
  | [] => ([], [])
  | x :: s' =>
      let '(l, ls) := readlines_go s' in
      if chreqb x LF then ([x], match l with [] => ls | _ :: _ => l :: ls end)
      else (x :: l, ls)
  end.

Definition readlines (s : str) : list str :=
  let '(l, ls) := readlines_go s in
  match l with [] => ls | _ :: _ => l :: ls end.

(** The exceptions the two methods can raise. *)
Inductive compat_exn :=
| CPyExc (x : exn)
| IndexError
| DuplicateSectionError
| NoSectionError.

Inductive cresult (A : Type) := COk (a : A) | CErr (e : compat_exn).
Arguments COk {A} a.
Arguments CErr {A} e.

Definition cbind {A B} (r : cresult A) (k : A -> cresult B) : cresult B :=
  match r with COk a => k a | CErr x => CErr x end.

(** [with open(p, 'r', encoding='utf-8') as f: lines = f.readlines()];
    opening a directory fails with [PermissionError] on Windows, as in
    [copy2]. *)
Definition read_lines (p : str) (s : state) : cresult (list str) :=
  match assoc p (files s) with
  | Some c => COk (readlines (universal_newlines c))
  | None => CErr (CPyExc (if isdir p s then PermissionError else FileNotFoundError))
  end.

(** [ConfigParser.has_section]: [DEFAULT] is not acknowledged. *)
Definition has_section (c : ConfigParser) (s : str) : bool :=
  if assoc_sec s (sections_ c) then true else false.

(** [ConfigParser.add_section]: the new section comes last. *)
Definition add_section (c : ConfigParser) (s : str) : cresult ConfigParser :=
  if streqb s default_section then CErr (CPyExc ValueError)
  else if has_section c s then CErr DuplicateSectionError
  else COk (mkConfigParser (defaults c) (sections_ c ++ [(s, [])])).

(** [d[k] = v] on an insertion-ordered dict. *)
Fixpoint dict_set (k v : str) (d : list (str * str)) : list (str * str) :=
  match d with
  | [] => [(k, v)]
  | (k', v') :: d' => if streqb k k' then (k, v) :: d' else (k', v') :: dict_set k v d'
  end.

Fixpoint sec_update (s : str) (f : list (str * str) -> list (str * str))
         (l : list (str * list (str * str))) : list (str * list (str * str)) :=
  match l with
  | [] => []
  | (k, d) :: l' => if streqb s k then (k, f d) :: l' else (k, d) :: sec_update s f l'
  end.

(** [v.replace('%%', '')] *)
Fixpoint drop_pct_pct (s : str) : str :=
  match s with
  | c1 :: ((c2 :: s'') as s') =>
      if chreqb c1 pct && chreqb c2 pct then drop_pct_pct s'' else c1 :: drop_pct_pct s'
  | _ => s
  end.

(** [_KEYCRE.sub('', v)]; [skip] counts the characters of the match just
    removed that are still to be passed over. *)
Fixpoint keycre_sub_go (skip : nat) (s : str) : str :=
  match s with
  | [] => []
  | c :: s' =>
      match skip with
      | S k => keycre_sub_go k s'
      | 0 =>
          match keycre_match s with
          | Some (_, e) => keycre_sub_go (e - 1) s'
          | None => c :: keycre_sub_go 0 s'
          end
      end
  end.

Definition keycre_sub (s : str) : str := keycre_sub_go 0 s.

(** [BasicInterpolation.before_set] *)
Definition before_set (value : str) : cresult str :=
  let tmp_value := keycre_sub (drop_pct_pct value) in
  if existsb (chreqb pct) tmp_value then CErr (CPyExc ValueError) else COk value.

(** [ConfigParser.set(section, option, value)] *)
Definition cp_set (c : ConfigParser) (section option value : str) : cresult ConfigParser :=
  cbind (match value with [] => COk value | _ :: _ => before_set value end) (fun value =>
  let o := optionxform option in
  if streqb section [] || streqb section default_section then
    COk (mkConfigParser (dict_set o value (defaults c)) (sections_ c))
  else
    match assoc_sec section (sections_ c) with
    | None => CErr NoSectionError
    | Some _ => COk (mkConfigParser (defaults c) (sec_update section (dict_set o value) (sections_ c)))
    end).

Definition SSH_CONF_FILE (e : env) : str :=
  ntpath.join (match environ_get e "USERPROFILE" with Some h => h | None => [] end)
              [py ".ssh"; py "config"].

Definition GITBASH_CONF_DIR : str :=
  ntpath.join (py "C:\") [py "1"; py "gitbash"; py "ssh-host.d"].

(** The first loop of [compat_file]: [hostlist] as insertion-ordered dicts;
    [hostnum] and [idx] as in the code. *)
Fixpoint compat_file_scan (hostnum idx : nat) (hostlist : list (list (str * str)))
         (lines : list str) : cresult (list (list (str * str))) :=
  match lines with
  | [] => COk hostlist
  | line :: lines =>
      if re_comment line || re_blank line then compat_file_scan hostnum idx hostlist lines
      else if re_host_start line then
        match host_of_line line with
        | None => CErr IndexError
        | Some host => compat_file_scan hostnum (S idx) (hostlist ++ [[(Host, host)]]) lines
        end
      else if hostnum <? idx then
        match split_ws line with
        | [] => CErr IndexError
        | key :: words =>
            let value := gitbash_value (join_with [space] words) in
            match nth_error hostlist (idx - 1) with
            | None => CErr IndexError
            | Some d =>
                compat_file_scan hostnum idx
                  (firstn (idx - 1) hostlist ++ dict_set key value d :: skipn idx hostlist) lines
            end
        end
      else compat_file_scan hostnum idx hostlist lines
  end.

(** [for key in i.keys(): ... self.conf_parser.set(section, key, i.get(key))] *)
Fixpoint compat_file_set (c : ConfigParser) (section : str) (i : list (str * str))
  : cresult ConfigParser :=
  match i with
  | [] => COk c
  | (key, v) :: i =>
      if streqb key Host then compat_file_set c section i
      else if streqb key (py "ProxyCommand") then compat_file_set c section i
      else cbind (cp_set c section key v) (fun c => compat_file_set c section i)
  end.

(** The second loop of [compat_file]. *)
Fixpoint compat_file_merge (c : ConfigParser) (hostlist : list (list (str * str)))
  : cresult ConfigParser :=
  match hostlist with
  | [] => COk c
  | i :: hostlist =>
      match assoc Host i with
      | None => compat_file_merge c hostlist
      | Some section =>
          if startswith [star] section then compat_file_merge c hostlist
          else if has_section c section then compat_file_merge c hostlist
          else cbind (add_section c section) (fun c =>
               cbind (compat_file_set c section i) (fun c =>
               compat_file_merge c hostlist))
      end
  end.

(** [HostConf.compat_file]: the parser it leaves. *)
Definition compat_file (e : env) (s : state) (c : ConfigParser) : cresult ConfigParser :=
  cbind (read_lines (SSH_CONF_FILE e) s) (fun lines =>
  let hostnum := length ([] : list (list (str * str))) in
  cbind (compat_file_scan hostnum hostnum [] lines) (fun hostlist =>
  compat_file_merge c hostlist)).

(** The reading loop of [compat_dir] over one file: the last host named
    and the lines kept. *)
Fixpoint compat_dir_scan (host : option str) (lines : list str) (ls : list str)
  : cresult (option str * list str) :=
  match ls with
  | [] => COk (host, lines)
  | line :: ls =>
      cbind (if re_host_any line then
               match host_of_line line with
               | None => CErr IndexError
               | Some h => COk (Some h)
               end
             else COk host) (fun host =>
      if negb (re_comment line || re_blank line) then
        match host with
        | Some _ => compat_dir_scan host (lines ++ [line]) ls
        | None => compat_dir_scan host lines ls
        end
      else compat_dir_scan host lines ls)
  end.

(** [for line in lines: ... self.conf_parser.set(host, key, value)] *)
Fixpoint compat_dir_set (c : ConfigParser) (host : str) (lines : list str)
  : cresult ConfigParser :=
  match lines with
  | [] => COk c
  | line :: lines =>
      match split_ws line with
      | [] => CErr IndexError
      | key :: words =>
          if streqb key Host then compat_dir_set c host lines
          else cbind (cp_set c host key (join_with [space] words)) (fun c =>
               compat_dir_set c host lines)
      end
  end.

(** One name [i] of [os.listdir(GITBASH_CONF_DIR)]. *)
Definition compat_dir_entry (s : state) (c : ConfigParser) (i : str) : cresult ConfigParser :=
  let full_path := ntpath.join GITBASH_CONF_DIR [i] in
  if negb (endswith (py ".cfg") i && isfile full_path s) then COk c
  else
    cbind (read_lines full_path s) (fun ls =>
    cbind (compat_dir_scan None [] ls) (fun '(host, lines) =>
    match host with
    | None => COk c
    | Some host =>
        if startswith [star] host then COk c
        else if has_section c host then COk c
        else cbind (add_section c host) (fun c => compat_dir_set c host lines)
    end)).

Fixpoint compat_dir_entries (s : state) (c : ConfigParser) (names : list str)
  : cresult ConfigParser :=
  match names with
  | [] => COk c
  | i :: names => cbind (compat_dir_entry s c i) (fun c => compat_dir_entries s c names)
  end.

(** [HostConf.compat_dir]; [names] is what [os.listdir(GITBASH_CONF_DIR)]
    returns, in its order. *)
Definition compat_dir (s : state) (names : list str) (c : ConfigParser) : cresult ConfigParser :=
  if negb (isdir GITBASH_CONF_DIR s) then COk c else compat_dir_entries s c names.

(** ** Sanity checks of the embedding *)

Example ex_join_out : SSHKEY_OUT_DIR = py "C:\0\sshkey".
Proof. vm_compute. reflexivity. Qed.
Example ex_split_unc : ntpath.split (py "\\srv\share\x") = (py "\\srv\share\", py "x").
Proof. vm_compute. reflexivity. Qed.
Example ex_join_drive : ntpath.join (py "C:\0") [py "D:y"] = py "D:y".
Proof. vm_compute. reflexivity. Qed.
Example ex_isabs :
  (ntpath.isabs (py "C:/x"), ntpath.isabs (py "\x"), ntpath.isabs (py "C:x")) = (true, false, false).
Proof. vm_compute. reflexivity. Qed.
Example ex_putty_dir :
  trans_putty_keyfile_name (py "C:\0\sshkey\id_rsa") = Ok (py "C:\0\sshkey\id_rsa.ppk").
Proof. vm_compute. reflexivity. Qed.
Example ex_expanduser :
  expanduser (mkenv [(py "USERPROFILE", py "C:\Users\me")] []) (py "~\k") = py "C:\Users\me\k".
Proof. vm_compute. reflexivity. Qed.
Example ex_ts : strftime_ts (mkdatetime 2026 3 7 9 5 0) = py "20260307-090500".
Proof. vm_compute. reflexivity. Qed.

(** ** Basic lemmas *)

Lemma streqb_eq (a b : str) : streqb a b = true <-> a = b.
Proof. unfold streqb. destruct (list_eq_dec ascii_dec a b); split; congruence. Qed.

Lemma streqb_refl (a : str) : streqb a a = true.
Proof. apply streqb_eq. reflexivity. Qed.

Lemma streqb_neq (a b : str) : streqb a b = false <-> a <> b.
Proof. unfold streqb. destruct (list_eq_dec ascii_dec a b); split; congruence. Qed.

Lemma chreqb_eq (a b : ascii) : chreqb a b = true <-> a = b.
Proof. unfold chreqb. destruct (ascii_dec a b); split; congruence. Qed.

Lemma chreqb_refl (a : ascii) : chreqb a a = true.
Proof. apply chreqb_eq. reflexivity. Qed.

Lemma chreqb_neq (a b : ascii) : chreqb a b = false <-> a <> b.
Proof. unfold chreqb. destruct (ascii_dec a b); split; congruence. Qed.

Lemma rpartition_absent (c : ascii) (s : str) :
  ~ In c s -> rpartition c s = ([], [], s).
Proof.
  induction s as [|x s IH]; intros H; [reflexivity|].
  simpl. rewrite IH by (intro; apply H; right; assumption).
  destruct (chreqb x c) eqn:E; [|reflexivity].
  apply chreqb_eq in E. exfalso. apply H. left. assumption.
Qed.

Lemma rpartition_last (c : ascii) (base ext : str) :
  ~ In c ext -> rpartition c (base ++ c :: ext) = (base, [c], ext).
Proof.
  intros H. induction base as [|x base IH]; simpl.
  - rewrite (rpartition_absent c ext H), chreqb_refl. reflexivity.
  - rewrite IH. reflexivity.
Qed.

(** ** C4: the key-name transform rejects exactly the empty name *)

(** C4. [trans_putty_keyfile_name] raises [ValueError] (the invalid-argument
    error) exactly on the empty string, and returns normally on every
    non-empty input. *)
Theorem trans_putty_keyfile_name_fails_iff_empty :
  forall p : str,
    ((exists x, trans_putty_keyfile_name p = Err x) <-> p = []) /\
    (p = [] -> trans_putty_keyfile_name p = Err ValueError) /\
    (p <> [] -> exists r, trans_putty_keyfile_name p = Ok r).
Proof.
  intros p. unfold trans_putty_keyfile_name.
  destruct (streqb p []) eqn:E.
  - apply streqb_eq in E. subst. split; [split; eauto|split; [reflexivity|]].
    intros H. congruence.
  - apply streqb_neq in E.
    split; [split; [intros [x Hx]; discriminate Hx|intros H; congruence]|].
    split; [intros H; congruence|eauto].
Qed.

(** ** C3: the key-name transform *)

(** The C3 theorem, about the directory of the result, is stated with
    [ntpath.join]'s lemmas further down. *)

(** ** C5, C6: the Tera Term script *)

(** The launch script of [GenCmd.tth] around a given proxy clause. *)
Definition tth_layout (g : GenCmd) (proxy_clause auth_clause : str) : str :=
  py "@echo off" ++ linesep
  ++ py "start " ++ q [] ++ py " " ++ tth_exefile ++ py " " ++ proxy_clause ++ py " "
  ++ fmt (host g) ++ py ":" ++ fmt (port g)
  ++ py " /ssh " ++ auth_clause ++ py " & " ++ linesep.

(** An item of the authentication clause, present when its field is set. *)
Definition auth_item (o : option str) (render : str -> str) : list str :=
  match o with Some ((_ :: _) as v) => [render v] | _ => [] end.

(** The authentication clause in the words of the specification: its head,
    then the items that are set, in the fixed order user, key file,
    password, each after a space. *)
Definition spec_tth_auth_clause (g : GenCmd) : str :=
  let head :=
    match auth_type g with
    | Some ((_ :: _) as a) => py "/auth=" ++ a
    | _ => py "/ask4passwd"
    end in
  let items :=
    auth_item (user g) (fun u => py "/user=" ++ u)
    ++ auth_item (keyfile g) (fun k => py "/keyfile=" ++ q k)
    ++ auth_item (password g) (fun pw => py "/password=" ++ q pw) in
  head ++ concat (map (fun i => py " " ++ i) items).

Lemma tth_autharg_spec (g : GenCmd) : tth_autharg g = spec_tth_auth_clause g.
Proof.
  unfold tth_autharg, spec_tth_auth_clause.
  destruct g as [sec h pt u pw kf a pty ph pp pu ppw]; simpl.
  destruct a as [[|? ?]|], u as [[|? ?]|], kf as [[|? ?]|], pw as [[|? ?]|];
    unfold q; simpl; rewrite ?app_nil_r;
    repeat (rewrite <- app_assoc || rewrite <- app_comm_cons); reflexivity.
Qed.

(** C5. The proxy clause of the Tera Term script: with a proxy type [t]
    that is set and is not [none], it is [-proxy t://user:password@host:port]
    when a proxy user is set and [-proxy t://host:port] otherwise; with no
    proxy type, an empty one or [none], it is [-noproxy].  The clause comes
    right after the executable.  With the specification's examples. *)
Theorem tth_proxy_clause :
  forall g : GenCmd,
    (forall t, proxy_type g = Some t -> t <> [] -> t <> py "none" ->
       (forall u, proxy_user g = Some u -> u <> [] ->
          tth_cmd g = tth_layout g
            (py "-proxy " ++ t ++ py "://" ++ u ++ py ":" ++ fmt (proxy_password g)
               ++ py "@" ++ fmt (proxy_host g) ++ py ":" ++ fmt (proxy_port g))
            (tth_autharg g)) /\
       (truthy (proxy_user g) = false ->
          tth_cmd g = tth_layout g
            (py "-proxy " ++ t ++ py "://" ++ fmt (proxy_host g) ++ py ":" ++ fmt (proxy_port g))
            (tth_autharg g))) /\
    ((proxy_type g = None \/ proxy_type g = Some [] \/ proxy_type g = Some (py "none")) ->
       tth_cmd g = tth_layout g (py "-noproxy") (tth_autharg g)) /\
    (proxy_type g = Some (py "socks5") -> proxy_host g = Some (py "p.example") ->
       proxy_port g = Some (py "1080") -> proxy_user g = None ->
       exists a b, tth_cmd g = a ++ py "-proxy socks5://p.example:1080" ++ b) /\
    (proxy_type g = Some (py "none") ->
       exists a b, tth_cmd g = a ++ py "-noproxy" ++ b).
Proof.
  intros g.
  assert (Hnone : proxy_type g = None \/ proxy_type g = Some [] \/
                  proxy_type g = Some (py "none") ->
                  tth_cmd g = tth_layout g (py "-noproxy") (tth_autharg g)).
  { intros H. unfold tth_cmd, tth_layout, tth_proxyarg.
    destruct H as [H|[H|H]]; rewrite H; reflexivity. }
  split; [|split; [exact Hnone|split]].
  - intros t Ht Hne Hnn.
    assert (Hc : (truthy (proxy_type g) && negb (streqb (fmt (proxy_type g)) (py "none"))) = true).
    { rewrite Ht. unfold fmt. rewrite (proj2 (streqb_neq _ _) Hnn).
      destruct t as [|x t']; [congruence|reflexivity]. }
    split.
    + intros u Hu Hune. unfold tth_cmd, tth_layout, tth_proxyarg. rewrite Hc, Hu.
      destruct u as [|y u']; [congruence|]. rewrite Ht. reflexivity.
    + intros Hu. unfold tth_cmd, tth_layout, tth_proxyarg. rewrite Hc, Hu, Ht. reflexivity.
  - intros Ht Hh Hp Hu. unfold tth_cmd, tth_proxyarg. rewrite Ht, Hh, Hp, Hu.
    exists (py "@echo off" ++ linesep ++ py "start " ++ q [] ++ py " " ++ tth_exefile ++ py " ").
    eexists. repeat rewrite <- app_assoc. reflexivity.
  - intros Ht. rewrite (Hnone (or_intror (or_intror Ht))). unfold tth_layout.
    exists (py "@echo off" ++ linesep ++ py "start " ++ q [] ++ py " " ++ tth_exefile ++ py " ").
    eexists. repeat rewrite <- app_assoc. reflexivity.
Qed.

(** C6. The Tera Term launch line is [@echo off], then [start "" exe],
    the proxy clause, [host:port], the ssh flag [/ssh] and the
    authentication clause: [/auth=type] when an authentication type is set
    and [/ask4passwd] otherwise, followed by [/user=u], [/keyfile="k"] and
    [/password="p"] for each of these that is set, independently, in that
    order, separated by spaces. *)
Theorem tth_auth_clause_and_layout :
  forall g : GenCmd,
    tth_cmd g = tth_layout g (tth_proxyarg g) (spec_tth_auth_clause g).
Proof.
  intros g. unfold tth_cmd, tth_layout. rewrite tth_autharg_spec. reflexivity.
Qed.

(** ** C10: key-name casing *)

(** The [upper] section as [configparser] presents it: a name is looked up
    lower-cased ([optionxform]) among the section's options, then among the
    defaults; a missing section holds nothing. *)
Definition upper_mapping (c : ConfigParser) (k : str) : option str :=
  match assoc_sec FixUpper_section (sections_ c) with
  | None => None
  | Some d =>
      match assoc (optionxform k) d with
      | Some v => Some v
      | None => assoc (optionxform k) (defaults c)
      end
  end.

(** C10. [FixUpper.get] returns the display-cased value the [upper]
    section maps the key to, and returns the key unchanged when the
    section has no entry for it. *)
Theorem FixUpper_get_lookup_or_identity :
  forall (c : ConfigParser) (k : str),
    (forall v, upper_mapping c k = Some v -> FixUpper_get c k = v) /\
    (upper_mapping c k = None -> FixUpper_get c k = k).
Proof.
  intros c k. unfold FixUpper_get, has_option, cp_get_raw, upper_mapping.
  assert (Hs : (streqb FixUpper_section [] || streqb FixUpper_section default_section)
               = false) by reflexivity.
  rewrite Hs.
  assert (Hd : streqb FixUpper_section default_section = false) by reflexivity.
  rewrite Hd.
  destruct (assoc_sec FixUpper_section (sections_ c)) as [d|].
  - destruct (assoc (optionxform k) d) as [v|].
    + split; [intros v' H; injection H as <-; reflexivity|discriminate].
    + destruct (assoc (optionxform k) (defaults c)) as [v|].
      * split; [intros v' H; injection H as <-; reflexivity|discriminate].
      * split; [discriminate|reflexivity].
  - split; [discriminate|reflexivity].
Qed.

(** ** C1, C2: building a [GenCmd] *)

(** C2. Building a [GenCmd] from a mapping with no [IdentityFile] key
    raises (the key-file transform calls [startswith] on [None]) before
    any file is touched, so no record is produced. *)
Theorem GenCmd_init_requires_IdentityFile :
  forall (e : env) (sec : str) (conf : mapping) (s : state),
    conf_get conf "IdentityFile" = None ->
    GenCmd_init e sec conf s = (Err AttributeError, s).
Proof.
  intros e sec conf s H. unfold GenCmd_init, bind. rewrite H. reflexivity.
Qed.

Definition sample_env : env := mkenv [(py "USERPROFILE", py "C:\Users\me")] (py "C:\tool").
Definition empty_state : state := mkstate [] [] [] [].

Lemma GenCmd_init_requires_IdentityFile_witness :
  conf_get [(py "HostName", py "example.org"); (py "Password", py "pw")] "IdentityFile" = None /\
  GenCmd_init sample_env (py "h") [(py "HostName", py "example.org"); (py "Password", py "pw")]
    empty_state = (Err AttributeError, empty_state).
Proof.
  split; [reflexivity|].
  apply GenCmd_init_requires_IdentityFile. reflexivity.
Defined.

(** C1. A section with a [Password] but neither [IdentityFile] nor
    [AuthType]: the inference branch [elif password: 'password'] is never
    reached, building the record raises [AttributeError]. *)
Theorem GenCmd_init_password_section_raises :
  GenCmd_init sample_env (py "h") [(py "Password", py "pw")] empty_state
  = (Err AttributeError, empty_state).
Proof. vm_compute. reflexivity. Qed.

(** ** C8: where the resolved key file lives *)

Definition no_sep (s : str) : Prop := Forall (fun c => ntpath.is_sep c = false) s.

Lemma scan_back_spec (p : str) (n : nat) :
  ntpath.scan_back p n <= n /\
  (forall j, ntpath.scan_back p n <= j < n -> ntpath.is_sep (nth j p "000"%char) = false).
Proof.
  induction n as [|n IH]; simpl.
  - split; [lia|intros j Hj; lia].
  - destruct (ntpath.is_sep (nth n p "000"%char)) eqn:E.
    + split; [lia|intros j Hj; lia].
    + destruct IH as [IH1 IH2]. split; [lia|].
      intros j Hj. destruct (Nat.eq_dec j n) as [->|Hne]; [exact E|].
      apply IH2. lia.
Qed.

Lemma basename_no_sep (kp : str) : no_sep (ntpath.basename kp).
Proof.
  unfold ntpath.basename, ntpath.split.
  destruct (ntpath.splitroot kp) as [[d r] p]. simpl.
  destruct (scan_back_spec p (length p)) as [H1 H2].
  unfold no_sep. apply Forall_forall. intros c Hc.
  apply (In_nth _ _ "000"%char) in Hc. destruct Hc as [k [Hk Hn]].
  rewrite nth_skipn in Hn. rewrite length_skipn in Hk. subst c.
  apply H2. lia.
Qed.

Lemma norm_no_sep (b : str) : no_sep b -> ntpath.norm b = b.
Proof.
  induction 1 as [|x b Hx Hb IH]; [reflexivity|].
  unfold ntpath.norm in *. simpl. rewrite IH.
  unfold ntpath.is_sep in Hx. apply orb_false_iff in Hx. destruct Hx as [_ Hx].
  unfold ntpath.altsep. rewrite Hx. reflexivity.
Qed.

Lemma splitroot_plain (b : str) :
  no_sep b -> ~ In colon b -> ntpath.splitroot b = ([], [], b).
Proof.
  intros Hs Hc. unfold ntpath.splitroot. rewrite (norm_no_sep b Hs).
  destruct b as [|x b']; [reflexivity|].
  inversion Hs as [|? ? Hx Hs']; subst.
  assert (E1 : streqb (firstn 1 (x :: b')) [ntpath.sep] = false).
  { apply streqb_neq. simpl. intros H. injection H as ->. discriminate Hx. }
  rewrite E1.
  assert (E2 : streqb (firstn 1 (skipn 1 (x :: b'))) [colon] = false).
  { apply streqb_neq. destruct b' as [|y b'']; simpl; [discriminate|].
    intros H. injection H as ->. apply Hc. right. left. reflexivity. }
  rewrite E2. reflexivity.
Qed.

Lemma SSHKEY_OUT_DIR_eq : SSHKEY_OUT_DIR = py "C:\0\sshkey".
Proof. vm_compute. reflexivity. Qed.

Lemma join_out (b : str) :
  no_sep b -> ~ In colon b ->
  ntpath.join SSHKEY_OUT_DIR [b] = SSHKEY_OUT_DIR ++ [ntpath.sep] ++ b.
Proof.
  intros Hs Hc. unfold ntpath.join. simpl fold_left.
  replace (ntpath.splitroot SSHKEY_OUT_DIR) with (py "C:", [bsl], py "0\sshkey")
    by (vm_compute; reflexivity).
  unfold ntpath.join_step. rewrite (splitroot_plain b Hs Hc).
  rewrite SSHKEY_OUT_DIR_eq. vm_compute. reflexivity.
Qed.

Lemma scan_back_app_no_sep (P b : str) (k : nat) :
  no_sep b -> k <= length b ->
  ntpath.scan_back (P ++ b) (length P + k) = ntpath.scan_back (P ++ b) (length P).
Proof.
  intros Hs. induction k as [|k IH]; intros Hk.
  - rewrite Nat.add_0_r. reflexivity.
  - rewrite Nat.add_succ_r. simpl. rewrite app_nth2_plus.
    assert (Hn : ntpath.is_sep (nth k b "000"%char) = false).
    { unfold no_sep in Hs. rewrite Forall_forall in Hs. apply Hs. apply nth_In. lia. }
    rewrite Hn. apply IH. lia.
Qed.

Lemma dirname_out_child (b : str) :
  no_sep b -> ntpath.dirname (SSHKEY_OUT_DIR ++ [ntpath.sep] ++ b) = SSHKEY_OUT_DIR.
Proof.
  intros Hs. rewrite SSHKEY_OUT_DIR_eq.
  unfold ntpath.dirname, ntpath.split.
  replace (ntpath.splitroot (py "C:\0\sshkey" ++ [ntpath.sep] ++ b))
    with (py "C:", [bsl], py "0\sshkey\" ++ b) by (vm_compute; reflexivity).
  cbv beta iota zeta.
  rewrite length_app.
  rewrite (scan_back_app_no_sep (py "0\sshkey\") b (length b) Hs (le_n _)).
  vm_compute. reflexivity.
Qed.

Lemma dropwhile_suffix (f : ascii -> bool) (l : str) :
  exists pre, l = pre ++ ntpath.dropwhile f l.
Proof.
  induction l as [|x l [pre IH]]; simpl; [exists []; reflexivity|].
  destruct (f x); [exists (x :: pre); simpl; f_equal; exact IH|exists []; reflexivity].
Qed.

Lemma rstrip_prefix (s : str) : exists t, s = ntpath.rstrip_seps s ++ t.
Proof.
  unfold ntpath.rstrip_seps.
  destruct (dropwhile_suffix ntpath.is_sep (rev s)) as [pre H].
  exists (rev pre). rewrite <- rev_app_distr, <- H, rev_involutive. reflexivity.
Qed.

Lemma dir_prefix (p u : str) (i : nat) :
  ntpath.rstrip_seps (firstn i p) = u -> exists t, p = u ++ t.
Proof.
  intros H. destruct (rstrip_prefix (firstn i p)) as [t Ht]. rewrite H in Ht.
  exists (t ++ skipn i p). rewrite app_assoc, <- Ht. symmetry. apply firstn_skipn.
Qed.

Lemma norm_cons (x : ascii) (s : str) :
  ntpath.norm (x :: s) = (if chreqb x ntpath.altsep then ntpath.sep else x) :: ntpath.norm s.
Proof. reflexivity. Qed.

Lemma norm_firstn (n : nat) (s : str) :
  ntpath.norm (firstn n s) = firstn n (ntpath.norm s).
Proof. unfold ntpath.norm. symmetry. apply firstn_map. Qed.

(** A path whose directory is the key-output directory is absolute. *)
Lemma dirname_out_isabs (kp : str) :
  ntpath.dirname kp = SSHKEY_OUT_DIR -> ntpath.isabs kp = true.
Proof.
  rewrite SSHKEY_OUT_DIR_eq. intros H.
  unfold ntpath.dirname, ntpath.split, ntpath.splitroot in H.
  destruct (streqb (firstn 1 (ntpath.norm kp)) [ntpath.sep]) eqn:E1.
  - (* a path starting with a separator: its directory starts with one *)
    exfalso.
    destruct kp as [|x rest]; [discriminate E1|].
    apply streqb_eq in E1. rewrite norm_cons in E1. cbn [firstn] in E1. injection E1 as Ex.
    assert (Hx : x <> "C"%char).
    { intros ->. discriminate Ex. }
    apply Hx.
    destruct (streqb _ [ntpath.sep]).
    + destruct (find_from _ _ _) as [i|] eqn:F1.
      * destruct (find_from _ _ (i + 1)) as [i2|] eqn:F2.
        -- unfold find_from in F2. destruct (index_of _ _) as [k|]; [|discriminate F2].
           simpl in F2. injection F2 as <-.
           replace (i + 1 + k) with (S (i + k)) in H by lia.
           simpl in H. injection H as Hc. exact Hc.
        -- simpl in H. injection H as Hc. exact Hc.
      * simpl in H. injection H as Hc. exact Hc.
    + simpl in H. injection H as Hc. exact Hc.
  - destruct (streqb (firstn 1 (skipn 1 (ntpath.norm kp))) [colon]) eqn:E3.
    + destruct (streqb (firstn 1 (skipn 2 (ntpath.norm kp))) [ntpath.sep]) eqn:E4.
      * (* X:\... *)
        unfold ntpath.isabs. rewrite norm_firstn.
        remember (ntpath.norm kp) as nk.
        destruct nk as [|n0 [|n1 [|n2 nk]]]; try discriminate E3; try discriminate E4.
        apply streqb_eq in E3, E4. simpl in E3, E4.
        injection E3 as ->. injection E4 as ->.
        vm_compute. reflexivity.
      * (* X:rel -- the directory would have to continue with a separator *)
        exfalso. cbv beta iota zeta in H.
        destruct kp as [|x0 [|x1 rest]]; try discriminate E3.
        simpl in H. injection H as _ _ H.
        apply dir_prefix in H. destruct H as [t Ht].
        rewrite Ht in E4. discriminate E4.
    + (* no drive and no root: the directory would start with a drive *)
      exfalso. cbv beta iota zeta in H. simpl in H.
      apply dir_prefix in H. destruct H as [t Ht].
      rewrite Ht in E3. discriminate E3.
Qed.

(** What [trans_keyfile_path] returns when it returns: the resolved path
    itself when its directory is the output directory, else the copy's path
    [join(SSHKEY_OUT_DIR, basename(resolved))]. *)
Lemma trans_keyfile_path_result (e : env) (p : str) (s s' : state) (kf : str) :
  trans_keyfile_path e (Some p) s = (Ok kf, s') ->
  let kp := resolve_keyfile_ref e p in
  (ntpath.dirname kp = SSHKEY_OUT_DIR /\ kf = kp) \/
  (ntpath.dirname kp <> SSHKEY_OUT_DIR /\
   kf = ntpath.join SSHKEY_OUT_DIR [ntpath.basename kp]).
Proof.
  intros H. cbv zeta. unfold trans_keyfile_path in H.
  set (kp := resolve_keyfile_ref e p) in *.
  destruct (streqb (ntpath.dirname kp) SSHKEY_OUT_DIR) eqn:E.
  - apply streqb_eq in E. left. split; [exact E|].
    simpl in H. unfold ret in H. congruence.
  - apply streqb_neq in E. right. split; [exact E|].
    simpl in H. unfold bind in H.
    destruct (makedirs SSHKEY_OUT_DIR s) as [[u|x] s1]; [|discriminate H].
    destruct (copy2 kp _ s1) as [[d|x] s2]; [|discriminate H].
    unfold ret in H. congruence.
Qed.

(** When [trans_keyfile_path] returns a path and the file name it copies
    under (the last component of the resolved reference) holds no [':'],
    the path is absolute and its directory is the key-output directory
    [C:\0\sshkey]. *)
Theorem trans_keyfile_path_in_out_dir :
  forall (e : env) (p : str) (s s' : state) (kf : str),
    trans_keyfile_path e (Some p) s = (Ok kf, s') ->
    ~ In colon (ntpath.basename (resolve_keyfile_ref e p)) ->
    ntpath.isabs kf = true /\ ntpath.dirname kf = SSHKEY_OUT_DIR.
Proof.
  intros e p s s' kf H Hc.
  destruct (trans_keyfile_path_result e p s s' kf H) as [[Hd ->]|[_ ->]].
  - split; [apply dirname_out_isabs; exact Hd|exact Hd].
  - rewrite join_out by (apply basename_no_sep || exact Hc).
    split.
    + rewrite SSHKEY_OUT_DIR_eq. vm_compute. reflexivity.
    + apply dirname_out_child, basename_no_sep.
Qed.

Definition key_state : state :=
  mkstate [(py "C:\tool\sshkey\id_rsa", py "KEY"); (py "C:\tool\sshkey\keys\D:id", py "KEY")]
          [] [] [].

Definition key_state_after : state :=
  mkstate ((py "C:\0\sshkey\id_rsa", py "KEY") :: files key_state)
          [py "C:\0\sshkey"] [] [].

Lemma trans_keyfile_path_in_out_dir_witness :
  trans_keyfile_path sample_env (Some (py "id_rsa")) key_state
    = (Ok (py "C:\0\sshkey\id_rsa"), key_state_after) /\
  ntpath.isabs (py "C:\0\sshkey\id_rsa") = true /\
  ntpath.dirname (py "C:\0\sshkey\id_rsa") = SSHKEY_OUT_DIR.
Proof.
  assert (H : trans_keyfile_path sample_env (Some (py "id_rsa")) key_state
              = (Ok (py "C:\0\sshkey\id_rsa"), key_state_after))
    by (vm_compute; reflexivity).
  split; [exact H|].
  apply (trans_keyfile_path_in_out_dir sample_env (py "id_rsa") key_state key_state_after
           (py "C:\0\sshkey\id_rsa") H).
  vm_compute. intros [Hc|[Hc|[Hc|[Hc|[Hc|[Hc|Hc]]]]]]; discriminate Hc || exact Hc.
Defined.

(** C8: the copy into the key-output directory, which the comment on
    [SSHKEY_OUT_DIR] says every key gets, misses it for the reference
    [keys\D:id] (the data stream [id] of the file [D] in [keys]): it
    resolves to [C:\tool\sshkey\keys\D:id], whose last component [D:id]
    is drive-qualified; [os.path.join(SSHKEY_OUT_DIR, 'D:id')] then drops
    the output directory, the copy goes to the drive-relative path [D:id],
    and that is what is returned. *)
Lemma trans_keyfile_path_drive_component_escapes :
  exists s',
    trans_keyfile_path sample_env (Some (py "keys\D:id")) key_state = (Ok (py "D:id"), s') /\
    ntpath.isabs (py "D:id") = false /\
    ntpath.dirname (py "D:id") <> SSHKEY_OUT_DIR.
Proof.
  eexists. split; [vm_compute; reflexivity|].
  split; [vm_compute; reflexivity|].
  rewrite SSHKEY_OUT_DIR_eq. vm_compute. discriminate.
Qed.

(** ** C7: the PuTTY script's proxy support *)

(** [occursb pat s]: [pat in s] for strings. *)
Fixpoint prefixb (pat s : str) : bool :=
  match pat, s with
  | [], _ => true
  | c :: pat', x :: s' => chreqb c x && prefixb pat' s'
  | _ :: _, [] => false
  end.

Fixpoint occursb (pat s : str) : bool :=
  prefixb pat s || match s with [] => false | _ :: s' => occursb pat s' end.

Lemma prefixb_app_sep (pat a b : str) (c : ascii) :
  ~ In c pat -> prefixb pat (a ++ c :: b) = prefixb pat a.
Proof.
  revert a. induction pat as [|p pat IH]; intros a Hc; [destruct a; reflexivity|].
  destruct a as [|x a]; simpl.
  - destruct (chreqb p c) eqn:E; [|reflexivity].
    apply chreqb_eq in E. subst. exfalso. apply Hc. left. reflexivity.
  - rewrite IH; [reflexivity|]. intros H. apply Hc. right. exact H.
Qed.

Lemma occursb_app_sep (pat a b : str) (c : ascii) :
  pat <> [] -> ~ In c pat ->
  occursb pat (a ++ c :: b) = occursb pat a || occursb pat b.
Proof.
  intros Hne Hc. induction a as [|x a IH].
  - simpl. destruct pat as [|p pat]; [congruence|]. simpl.
    destruct (chreqb p c) eqn:E; [|reflexivity].
    apply chreqb_eq in E. subst. exfalso. apply Hc. left. reflexivity.
  - rewrite <- app_comm_cons.
    transitivity (prefixb pat (x :: a ++ c :: b) || occursb pat (a ++ c :: b));
      [reflexivity|].
    rewrite IH, app_comm_cons, (prefixb_app_sep pat (x :: a) b c Hc).
    simpl. destruct (prefixb pat (x :: a)); reflexivity.
Qed.

Lemma occursb_app_sep_l (pat a b : str) (c : ascii) :
  pat <> [] -> ~ In c pat ->
  occursb pat (a ++ c :: b) = occursb pat a || occursb pat (c :: b).
Proof.
  intros Hne Hc. rewrite (occursb_app_sep pat a b c Hne Hc).
  f_equal. change (occursb pat (c :: b)) with (occursb pat ([] ++ c :: b)).
  rewrite (occursb_app_sep pat [] b c Hne Hc).
  destruct pat; [congruence|reflexivity].
Qed.

Definition proxycmd_flag : str := py "-proxycmd".

(** The fields the PuTTY script copies verbatim. *)
Definition pth_fields (g : GenCmd) (kf : str) : list str :=
  [fmt (user g); kf; fmt (password g); fmt (port g); fmt (host g)].

(** The key path the PuTTY script names, when it names one. *)
Definition pth_keyfile (g : GenCmd) : str :=
  if truthy (keyfile g) then
    match trans_putty_keyfile_name (fmt (keyfile g)) with Ok k => k | Err _ => [] end
  else [].

(** The PuTTY launch line around a proxy clause and an authentication clause. *)
Definition pth_launch (g : GenCmd) (proxyarg autharg : str) : str :=
  py "start " ++ q [] ++ py " " ++ pth_exefile ++ py " -ssh -noshare "
  ++ proxyarg ++ py " " ++ autharg ++ py " -P " ++ fmt (port g) ++ py " "
  ++ fmt (host g) ++ py " & " ++ linesep.

(** The line setting the proxy credentials for the proxy helper. *)
Definition pth_cred_line (g : GenCmd) : str :=
  py "set CORKSCREW_AUTH=" ++ fmt (proxy_user g) ++ py ":" ++ fmt (proxy_password g) ++ linesep.

Lemma is_http_iff (g : GenCmd) : is_http g = true <-> proxy_type g = Some (py "http").
Proof.
  unfold is_http. destruct (proxy_type g) as [t|]; simpl.
  - destruct t as [|x t]; simpl; [split; discriminate|].
    rewrite streqb_eq. split; [intros H; rewrite H; reflexivity|congruence].
  - split; discriminate.
Qed.

Ltac split_fields H :=
  repeat (simpl in H;
          rewrite occursb_app_sep in H
            by (discriminate || (simpl; intuition discriminate))).

Lemma pth_cmd_non_http_flag_only_in_fields (g : GenCmd) (out : str) :
  proxy_type g <> Some (py "http") -> pth_cmd g = Ok out ->
  occursb proxycmd_flag out = true ->
  occursb proxycmd_flag (fmt (user g)) = true \/
  occursb proxycmd_flag (pth_keyfile g) = true \/
  occursb proxycmd_flag (fmt (password g)) = true \/
  occursb proxycmd_flag (fmt (port g)) = true \/
  occursb proxycmd_flag (fmt (host g)) = true.
Proof.
  intros Hpt Hout Hocc.
  assert (Hh : is_http g = false).
  { destruct (is_http g) eqn:E; [|reflexivity]. apply is_http_iff in E. contradiction. }
  unfold pth_cmd in Hout. rewrite Hh in Hout.
  destruct (pth_autharg g) as [a|x] eqn:Ea; [|discriminate Hout].
  injection Hout as <-.
  unfold pth_autharg in Ea. unfold pth_keyfile.
  destruct (truthy (keyfile g));
    [destruct (trans_putty_keyfile_name (fmt (keyfile g))) as [k|x]; [|discriminate Ea]|];
    destruct (truthy (user g)), (truthy (password g));
    injection Ea as <-; unfold q, linesep, CR, LF in Hocc;
    repeat rewrite <- app_assoc in Hocc;
    change (chr 13) with "013"%char in Hocc; change (chr 10) with "010"%char in Hocc;
    unfold proxycmd_flag in *; split_fields Hocc;
    repeat rewrite orb_true_iff in Hocc; simpl in Hocc; simpl; intuition discriminate.
Qed.

Lemma pth_autharg_ok (g : GenCmd) : exists a, pth_autharg g = Ok a.
Proof.
  unfold pth_autharg.
  destruct (keyfile g) as [[|c s]|] eqn:Ek; simpl;
    [| unfold trans_putty_keyfile_name; simpl |];
    eexists; reflexivity.
Qed.

(** The PuTTY script of a host whose [User] value carries a [-proxycmd]
    option, with a [socks5] proxy. *)
Definition injected_user_host : GenCmd :=
  mkGenCmd (py "h") (Some (py "example.org")) (Some (py "22"))
    (Some (py "u -proxycmd x")) None None None
    (Some (py "socks5")) (Some (py "proxy")) (Some (py "1080")) None None.

(** C7 (amended): the PuTTY renderer emits a proxy clause only for the
    proxy type [http]. For [http] the script is [@echo off], then the
    [set CORKSCREW_AUTH=...] line exactly when a proxy user is present, then
    the launch line whose proxy clause starts with [ -proxycmd ]. For any
    other proxy type, or none, the proxy clause is empty, and [-proxycmd]
    occurs in the script only if it occurs in one of the values copied into
    it verbatim (user, key path, password, port, host). Rendering never
    fails. *)
Theorem pth_cmd_proxy_clause :
  forall g : GenCmd,
    (exists a, pth_autharg g = Ok a /\
      (proxy_type g = Some (py "http") ->
       pth_cmd g = Ok (py "@echo off" ++ linesep
                       ++ (if truthy (proxy_user g) then pth_cred_line g else [])
                       ++ pth_launch g (pth_proxycmd g) a)) /\
      (proxy_type g <> Some (py "http") ->
       pth_cmd g = Ok (py "@echo off" ++ linesep ++ pth_launch g [] a))) /\
    prefixb (py " -proxycmd ") (pth_proxycmd g) = true /\
    (forall out, proxy_type g <> Some (py "http") -> pth_cmd g = Ok out ->
     occursb proxycmd_flag out = true ->
     occursb proxycmd_flag (fmt (user g)) = true \/
     occursb proxycmd_flag (pth_keyfile g) = true \/
     occursb proxycmd_flag (fmt (password g)) = true \/
     occursb proxycmd_flag (fmt (port g)) = true \/
     occursb proxycmd_flag (fmt (host g)) = true).
Proof.
  intros g. split; [|split].
  - destruct (pth_autharg_ok g) as [a Ea]. exists a. split; [exact Ea|].
    unfold pth_cmd. rewrite Ea. split; intros Hpt.
    + assert (Hh : is_http g = true) by (apply is_http_iff; exact Hpt).
      rewrite Hh. unfold pth_cred_line, pth_launch.
      repeat rewrite <- app_assoc. reflexivity.
    + assert (Hh : is_http g = false).
      { destruct (is_http g) eqn:E; [|reflexivity]. apply is_http_iff in E. contradiction. }
      rewrite Hh. unfold pth_launch. repeat rewrite <- app_assoc. reflexivity.
  - reflexivity.
  - intros out. apply pth_cmd_non_http_flag_only_in_fields.
Qed.

(** C7 counterexample: with proxy type [socks5] and the user value
    [u -proxycmd x], the script's launch line [... -l u -proxycmd x ...]
    does carry a [-proxycmd] flag, since the user is written unquoted. *)
Lemma pth_cmd_socks5_user_injects_proxycmd :
  proxy_type injected_user_host = Some (py "socks5") /\
  exists out, pth_cmd injected_user_host = Ok out /\
              occursb proxycmd_flag out = true.
Proof.
  split; [reflexivity|]. eexists. split; [reflexivity|]. vm_compute. reflexivity.
Qed.

(** ** C9: backing up the live configuration before overwriting it *)

Ltac case_ifs :=
  repeat (cbv beta iota zeta;
          match goal with
          | |- context [if ?b then _ else _] => destruct b eqn:?
          | |- context [match ?x with Some _ => _ | None => _ end] => destruct x eqn:?
          end).

Lemma streqb_app_long (u x : str) : x <> [] -> streqb u (u ++ x) = false.
Proof.
  intros Hx. apply streqb_neq. intros H.
  apply (f_equal (@length ascii)) in H. rewrite length_app in H.
  destruct x; [congruence|simpl in H; lia].
Qed.

Lemma backup_user_cfg_frame (e : env) (now : datetime) (s : state) :
  fst (backup_user_cfg e now s) = Ok tt /\
  dirs (snd (backup_user_cfg e now s)) = dirs s /\
  readonly (snd (backup_user_cfg e now s)) = readonly s.
Proof.
  unfold backup_user_cfg, copy2, print, put_file, try_oserror, bind, get_state,
    ret, raise.
  case_ifs; simpl in *; try discriminate; auto.
Qed.

Lemma backup_user_cfg_absent (e : env) (now : datetime) (s : state) :
  isfile (ntpath.join (USER_SSH_CFG_FILE e) []) s = false ->
  backup_user_cfg e now s = (Ok tt, s).
Proof.
  intros H. unfold backup_user_cfg, try_oserror, bind, get_state. rewrite H.
  reflexivity.
Qed.

Lemma backup_user_cfg_copies (e : env) (now : datetime) (s : state) (c : str) :
  let u := ntpath.join (USER_SSH_CFG_FILE e) [] in
  let bak := bak_path u now in
  assoc u (files s) = Some c -> isdir bak s = false -> mem bak (readonly s) = false ->
  backup_user_cfg e now s =
    (Ok tt, mkstate ((bak, c) :: files s) (dirs s) (readonly s)
                    (stdout s ++ [py "Backup created: " ++ bak])).
Proof.
  intros u bak Hc Hd Hr.
  assert (Hf : isfile u s = true) by (unfold isfile; rewrite Hc; reflexivity).
  assert (Hne : streqb u bak = false)
    by (apply streqb_app_long; unfold bak_path; simpl; discriminate).
  unfold backup_user_cfg, copy2, print, put_file, try_oserror, bind, get_state,
    ret, raise.
  fold u bak. rewrite Hf, Hc, Hd, Hne, Hd, Hr. reflexivity.
Qed.

Lemma backup_user_cfg_warns (e : env) (now : datetime) (s : state) :
  let u := ntpath.join (USER_SSH_CFG_FILE e) [] in
  let bak := bak_path u now in
  isfile u s = true -> isdir bak s = false -> mem bak (readonly s) = true ->
  backup_user_cfg e now s =
    (Ok tt, mkstate (files s) (dirs s) (readonly s)
                    (stdout s ++ [py "Warning: failed to backup " ++ USER_SSH_CFG_FILE e
                                  ++ py ": " ++ exn_text PermissionError])).
Proof.
  intros u bak Hf Hd Hr.
  assert (Hne : streqb u bak = false)
    by (apply streqb_app_long; unfold bak_path; simpl; discriminate).
  destruct (assoc u (files s)) as [c|] eqn:Hc;
    [|unfold isfile in Hf; rewrite Hc in Hf; discriminate].
  unfold backup_user_cfg, copy2, print, put_file, try_oserror, bind, get_state,
    ret, raise.
  fold u bak. rewrite Hf, Hc, Hd, Hne, Hd, Hr. reflexivity.
Qed.

Lemma write_text_lands (p c : str) (s : state) :
  isdir p s = false -> mem p (readonly s) = false ->
  exists s', write_text p c s = (Ok tt, s') /\ assoc p (files s') = Some (translate_newlines c).
Proof.
  intros Hd Hr. unfold write_text, bind, get_state, put_file. rewrite Hd, Hr.
  eexists. split; [reflexivity|]. simpl. rewrite streqb_refl. reflexivity.
Qed.

(** The shape [YYYYMMDD-HHMMSS]: fifteen characters, a dash at index 8 and
    decimal digits elsewhere. *)
Definition is_digit (c : ascii) : bool :=
  (48 <=? nat_of_ascii c) && (nat_of_ascii c <=? 57).

Definition ts_shape (x : str) : bool :=
  (length x =? 15) && forallb is_digit (firstn 8 x)
  && chreqb (nth 8 x " "%char) "-"%char && forallb is_digit (skipn 9 x).

(** A [datetime] with a four-digit year. *)
Definition valid_datetime (t : datetime) : bool :=
  (1000 <=? year t) && (year t <=? 9999) && (1 <=? month t) && (month t <=? 12)
  && (1 <=? day t) && (day t <=? 31) && (hour t <=? 23) && (minute t <=? 59)
  && (second t <=? 59).

Definition digits_of_len (k : nat) (x : str) : bool := (length x =? k) && forallb is_digit x.

Lemma dec_year_digits (y : nat) : 1000 <= y <= 9999 -> digits_of_len 4 (dec y) = true.
Proof.
  intros H.
  assert (Hall : forallb (fun y => digits_of_len 4 (dec y)) (seq 1000 9000) = true)
    by (vm_compute; reflexivity).
  rewrite forallb_forall in Hall. apply Hall. apply in_seq. split; [apply H|].
  apply Nat.le_lt_trans with 9999; [apply H|apply Nat.ltb_lt; reflexivity].
Qed.

Lemma pad2_digits (n : nat) : n < 100 -> digits_of_len 2 (pad2 n) = true.
Proof.
  intros H.
  assert (Hall : forallb (fun n => digits_of_len 2 (pad2 n)) (seq 0 100) = true)
    by (vm_compute; reflexivity).
  rewrite forallb_forall in Hall. apply Hall. apply in_seq. lia.
Qed.

Lemma digits_of_len_2 (x : str) :
  digits_of_len 2 x = true ->
  exists a b, x = [a; b] /\ is_digit a = true /\ is_digit b = true.
Proof.
  unfold digits_of_len. intros H.
  destruct x as [|a [|b [|c r]]]; simpl in H; try discriminate H.
  repeat rewrite andb_true_iff in H. exists a, b. intuition.
Qed.

Lemma digits_of_len_4 (x : str) :
  digits_of_len 4 x = true ->
  exists a b c d, x = [a; b; c; d] /\ is_digit a = true /\ is_digit b = true /\
                  is_digit c = true /\ is_digit d = true.
Proof.
  unfold digits_of_len. intros H.
  destruct x as [|a [|b [|c [|d [|f r]]]]]; simpl in H; try discriminate H.
  repeat rewrite andb_true_iff in H. exists a, b, c, d. intuition.
Qed.

Lemma strftime_ts_shape (t : datetime) :
  valid_datetime t = true -> ts_shape (strftime_ts t) = true.
Proof.
  intros Hv. unfold valid_datetime in Hv.
  repeat rewrite andb_true_iff in Hv. repeat rewrite Nat.leb_le in Hv.
  destruct Hv as [[[[[[[[H1 H2] H3] H4] H5] H6] H7] H8] H9].
  unfold strftime_ts.
  destruct (digits_of_len_4 _ (dec_year_digits (year t) (conj H1 H2)))
    as (y1 & y2 & y3 & y4 & -> & Y1 & Y2 & Y3 & Y4).
  destruct (digits_of_len_2 _ (pad2_digits (month t) ltac:(lia)))
    as (mo1 & mo2 & -> & Mo1 & Mo2).
  destruct (digits_of_len_2 _ (pad2_digits (day t) ltac:(lia)))
    as (d1 & d2 & -> & D1 & D2).
  destruct (digits_of_len_2 _ (pad2_digits (hour t) ltac:(lia)))
    as (h1 & h2 & -> & Ho1 & Ho2).
  destruct (digits_of_len_2 _ (pad2_digits (minute t) ltac:(lia)))
    as (mi1 & mi2 & -> & Mi1 & Mi2).
  destruct (digits_of_len_2 _ (pad2_digits (second t) ltac:(lia)))
    as (s1 & s2 & -> & S1 & S2).
  unfold ts_shape. simpl.
  rewrite Y1, Y2, Y3, Y4, Mo1, Mo2, D1, D2, Ho1, Ho2, Mi1, Mi2, S1, S2.
  reflexivity.
Qed.

(** C9: [main] writes the auto-generated file, then the backup block, then
    the live file [u]. The backup block never stops the run. When [u]
    does not exist it does nothing. When [u] exists and the backup path
    [u.bak-YYYYMMDD-HHMMSS] can be written, it copies [u] there and reports
    it. When the copy fails, it prints a warning and changes no file. In
    every case the live file is then written as if no backup had been
    attempted, so a writable [u] receives the new configuration. The
    timestamp has the shape [YYYYMMDD-HHMMSS] for any four-digit year. *)
Theorem write_ssh_cfg_backs_up_then_overwrites :
  forall (e : env) (now : datetime) (lines : list str) (s : state),
    let u := ntpath.join (USER_SSH_CFG_FILE e) [] in
    let bak := bak_path u now in
    write_ssh_cfg e now lines =
      (write_lines (ntpath.join AUTO_SSH_CFG_FILE []) lines ;;;
       (backup_user_cfg e now ;;; write_lines u lines)) /\
    fst (backup_user_cfg e now s) = Ok tt /\
    (backup_user_cfg e now ;;; write_lines u lines) s
      = write_lines u lines (snd (backup_user_cfg e now s)) /\
    (isfile u s = false -> backup_user_cfg e now s = (Ok tt, s)) /\
    (forall c, assoc u (files s) = Some c ->
     isdir bak s = false -> mem bak (readonly s) = false ->
     backup_user_cfg e now s =
       (Ok tt, mkstate ((bak, c) :: files s) (dirs s) (readonly s)
                       (stdout s ++ [py "Backup created: " ++ bak]))) /\
    (isfile u s = true -> isdir bak s = false -> mem bak (readonly s) = true ->
     exists msg,
       backup_user_cfg e now s =
         (Ok tt, mkstate (files s) (dirs s) (readonly s)
                         (stdout s ++ [py "Warning: failed to backup "
                                       ++ USER_SSH_CFG_FILE e ++ py ": " ++ msg]))) /\
    (isdir u s = false -> mem u (readonly s) = false ->
     exists s', (backup_user_cfg e now ;;; write_lines u lines) s = (Ok tt, s') /\
                assoc u (files s') = Some (translate_newlines (concat lines))) /\
    bak = u ++ py ".bak-" ++ strftime_ts now /\
    (valid_datetime now = true -> ts_shape (strftime_ts now) = true).
Proof.
  intros e now lines s u bak.
  destruct (backup_user_cfg_frame e now s) as (Hok & Hd & Hr).
  assert (Hseq : (backup_user_cfg e now ;;; write_lines u lines) s
                 = write_lines u lines (snd (backup_user_cfg e now s))).
  { unfold bind at 1. destruct (backup_user_cfg e now s) as [r s1].
    simpl in Hok. subst r. reflexivity. }
  split; [reflexivity|]. split; [exact Hok|]. split; [exact Hseq|].
  split; [apply backup_user_cfg_absent|].
  split; [intros c; apply backup_user_cfg_copies|].
  split; [intros Hf Hbd Hbr; eexists; apply backup_user_cfg_warns; assumption|].
  split.
  - intros Hud Hur. rewrite Hseq. apply write_text_lands.
    + unfold isdir. rewrite Hd. exact Hud.
    + rewrite Hr. exact Hur.
  - split; [reflexivity|]. apply strftime_ts_shape.
Qed.

(** ** Further properties of the path helpers *)

Lemma startswith_In (pre s : str) (x : ascii) :
  startswith pre s = true -> In x pre -> In x s.
Proof.
  unfold startswith. rewrite streqb_eq. intros H Hx. rewrite <- H in Hx.
  rewrite <- (firstn_skipn (length pre) s). apply in_or_app. left. exact Hx.
Qed.

Lemma skipn_In (n : nat) (s : str) (x : ascii) : In x (skipn n s) -> In x s.
Proof.
  intros Hx. rewrite <- (firstn_skipn n s). apply in_or_app. right. exact Hx.
Qed.

Lemma firstn_In (n : nat) (s : str) (x : ascii) : In x (firstn n s) -> In x s.
Proof.
  intros Hx. rewrite <- (firstn_skipn n s). apply in_or_app. left. exact Hx.
Qed.

Lemma isabs_has_sep (s : str) : ntpath.isabs s = true -> existsb ntpath.is_sep s = true.
Proof.
  unfold ntpath.isabs. intros H.
  assert (Hin : In ntpath.sep (ntpath.norm (firstn 3 s))).
  { apply orb_true_iff in H as [H|H].
    - apply (skipn_In 1). apply (startswith_In _ _ _ H). right. left. reflexivity.
    - apply (startswith_In _ _ _ H). left. reflexivity. }
  unfold ntpath.norm in Hin. apply in_map_iff in Hin as [c [Hc Hin]].
  apply existsb_exists. exists c. split; [apply (firstn_In 3); exact Hin|].
  destruct (chreqb c ntpath.altsep) eqn:E.
  - apply chreqb_eq in E. rewrite E. vm_compute. reflexivity.
  - try rewrite E in Hc. subst c. vm_compute. reflexivity.
Qed.

Lemma existsb_two_seps (name : str) :
  existsb (fun sp => existsb (chreqb sp) name) [ntpath.sep; ntpath.altsep]
  = existsb ntpath.is_sep name.
Proof.
  apply Bool.eq_iff_eq_true. rewrite !existsb_exists. split.
  - intros [sp [Hsp Hex]]. apply existsb_exists in Hex as [c [Hc Hcs]].
    apply chreqb_eq in Hcs. subst sp. exists c. split; [exact Hc|].
    destruct Hsp as [<-|[<-|[]]]; vm_compute; reflexivity.
  - intros [c [Hc Hs]]. unfold ntpath.is_sep in Hs.
    apply orb_true_iff in Hs as [Hs|Hs]; apply chreqb_eq in Hs; subst c;
      [exists ntpath.sep|exists ntpath.altsep];
      (split; [simpl; auto|apply existsb_exists; eexists; split; [exact Hc|apply chreqb_refl]]).
Qed.

(** [has_path_component] holds exactly when the name contains a ['\'] or a
    ['/']: its emptiness and [isabs] tests never change the answer, and
    [is_absolute_path]'s emptiness test is subsumed by [isabs]. *)
Theorem has_path_component_iff_sep :
  forall name : str,
    has_path_component name = existsb ntpath.is_sep name /\
    is_absolute_path name = ntpath.isabs name /\
    (is_absolute_path name = true -> has_path_component name = true).
Proof.
  intros name.
  assert (Hsep : has_path_component name = existsb ntpath.is_sep name).
  { unfold has_path_component.
    destruct name as [|c r]; [reflexivity|]. simpl streqb.
    destruct (ntpath.isabs (c :: r)) eqn:Ha.
    - symmetry. apply isabs_has_sep. exact Ha.
    - apply existsb_two_seps. }
  assert (Habs : is_absolute_path name = ntpath.isabs name).
  { unfold is_absolute_path. destruct name; reflexivity. }
  split; [exact Hsep|]. split; [exact Habs|].
  intros H. rewrite Hsep. apply isabs_has_sep. rewrite <- Habs. exact H.
Qed.

(** ** [os.path.expanduser] *)

Lemma firstn_while_sep_start (rest : str) :
  (rest = [] \/ exists c r, rest = c :: r /\ ntpath.is_sep c = true) ->
  firstn_while (fun c => negb (ntpath.is_sep c)) rest = [].
Proof.
  intros [->|(c & r & -> & Hc)]; [reflexivity|]. simpl. rewrite Hc. reflexivity.
Qed.

Lemma firstn_while_no_sep (name rest : str) :
  no_sep name -> (rest = [] \/ exists c r, rest = c :: r /\ ntpath.is_sep c = true) ->
  firstn_while (fun c => negb (ntpath.is_sep c)) (name ++ rest) = name.
Proof.
  intros Hn Hr. induction Hn as [|x name Hx Hn IH]; simpl.
  - apply firstn_while_sep_start. exact Hr.
  - rewrite Hx. simpl. rewrite IH. reflexivity.
Qed.

(** [expanduser] leaves a path alone unless it starts with [~]; [~] or [~]
    followed by a separator becomes [USERPROFILE] followed by the rest; with
    neither [USERPROFILE] nor [HOMEPATH] set nothing is expanded; [~name]
    for a name other than [USERNAME] becomes the sibling [name] of the
    profile directory only when the profile directory's last component is
    [USERNAME], and is left alone otherwise. *)
Theorem expanduser_cases :
  forall (e : env) (path : str),
    (startswith [tilde] path = false -> expanduser e path = path) /\
    (forall h rest,
       environ_get e "USERPROFILE" = Some h ->
       (rest = [] \/ exists c r, rest = c :: r /\ ntpath.is_sep c = true) ->
       expanduser e (tilde :: rest) = h ++ rest) /\
    (environ_get e "USERPROFILE" = None -> environ_get e "HOMEPATH" = None ->
     expanduser e path = path) /\
    (forall h name rest u,
       environ_get e "USERPROFILE" = Some h ->
       name <> [] -> no_sep name ->
       (rest = [] \/ exists c r, rest = c :: r /\ ntpath.is_sep c = true) ->
       environ_get e "USERNAME" = Some u -> name <> u ->
       expanduser e (tilde :: name ++ rest) =
         if streqb u (ntpath.basename h)
         then ntpath.join (ntpath.dirname h) [name] ++ rest
         else tilde :: name ++ rest).
Proof.
  intros e path. split; [|split; [|split]].
  - intros H. unfold expanduser. rewrite H. reflexivity.
  - intros h rest Hh Hr. unfold expanduser. simpl negb. cbv zeta.
    rewrite Hh. simpl skipn. rewrite (firstn_while_sep_start rest Hr). reflexivity.
  - intros H1 H2. unfold expanduser. rewrite H1, H2.
    destruct (negb (startswith [tilde] path)); reflexivity.
  - intros h name rest u Hh Hne Hn Hr Hu Hnu. unfold expanduser. simpl negb. cbv zeta.
    rewrite Hh. simpl skipn. rewrite (firstn_while_no_sep name rest Hn Hr).
    destruct name as [|x name']; [congruence|].
    simpl length. simpl Nat.eqb. cbv beta iota.
    replace (1 + S (length name') - 1) with (length (x :: name')) by (simpl; lia).
    rewrite firstn_app, Nat.sub_diag, firstn_O, app_nil_r, firstn_all.
    change (S (length name')) with (length (x :: name')).
    rewrite skipn_app, Nat.sub_diag, skipn_O, skipn_all. simpl (app [] rest).
    rewrite Hu, (proj2 (streqb_neq _ _) Hnu). simpl negb.
    destruct (streqb u (ntpath.basename h)); reflexivity.
Qed.

(** ** Resolving and copying key files *)

Lemma firstn_skipn_1 (n : nat) (p : str) :
  firstn n p ++ firstn 1 (skipn n p) ++ skipn (n + 1) p = p.
Proof.
  replace (skipn (n + 1) p) with (skipn 1 (skipn n p))
    by (rewrite skipn_skipn; f_equal; lia).
  rewrite firstn_skipn. apply firstn_skipn.
Qed.

Lemma splitroot_concat (p : str) :
  let '(d, r, q) := ntpath.splitroot p in d ++ r ++ q = p.
Proof.
  unfold ntpath.splitroot.
  destruct (streqb _ [ntpath.sep]).
  - destruct (streqb _ [ntpath.sep]).
    + destruct (find_from _ _ _) as [i|]; [|apply app_nil_r].
      destruct (find_from _ _ (i + 1)) as [i2|]; [|apply app_nil_r].
      apply firstn_skipn_1.
    + apply firstn_skipn.
  - destruct (streqb _ [colon]).
    + destruct (streqb _ [ntpath.sep]).
      * apply (firstn_skipn_1 2).
      * apply firstn_skipn.
    + reflexivity.
Qed.

(** A path starts with its directory. *)
Lemma dirname_prefix (p : str) : exists t, p = ntpath.dirname p ++ t.
Proof.
  pose proof (splitroot_concat p) as Hc.
  unfold ntpath.dirname, ntpath.split.
  destruct (ntpath.splitroot p) as [[d r] q].
  destruct (dir_prefix q _ (ntpath.scan_back q (length q)) eq_refl) as [t Ht].
  exists t. simpl. rewrite <- !app_assoc, <- Ht. symmetry. exact Hc.
Qed.

Lemma trans_keyfile_path_out (e : env) (p : str) (s s' : state) (kf : str) :
  trans_keyfile_path e (Some p) s = (Ok kf, s') ->
  ~ In colon (ntpath.basename (resolve_keyfile_ref e p)) ->
  ntpath.isabs kf = true /\ ntpath.dirname kf = SSHKEY_OUT_DIR.
Proof.
  intros H Hc.
  destruct (trans_keyfile_path_result e p s s' kf H) as [[Hd ->]|[_ ->]].
  - split; [apply dirname_out_isabs; exact Hd|exact Hd].
  - rewrite join_out by (apply basename_no_sep || exact Hc).
    split.
    + rewrite SSHKEY_OUT_DIR_eq. vm_compute. reflexivity.
    + apply dirname_out_child, basename_no_sep.
Qed.

(** A path in the key-output directory resolves to itself. *)
Lemma resolve_keyfile_ref_out (e : env) (kf : str) :
  ntpath.dirname kf = SSHKEY_OUT_DIR -> ntpath.isabs kf = true ->
  resolve_keyfile_ref e kf = kf.
Proof.
  intros Hd Ha. destruct (dirname_prefix kf) as [t Ht].
  rewrite Hd, SSHKEY_OUT_DIR_eq in Ht.
  unfold resolve_keyfile_ref.
  assert (Hs : startswith [tilde] kf = false) by (rewrite Ht; reflexivity).
  rewrite Hs. unfold is_absolute_path. rewrite Ha, Ht. reflexivity.
Qed.

(** Running the key-file step again on a path it returned changes nothing:
    the path is returned as is, without a copy, whenever the first run's
    file name held no [':']. *)
Theorem trans_keyfile_path_idempotent :
  forall (e : env) (p : str) (s s' : state) (kf : str) (s'' : state),
    trans_keyfile_path e (Some p) s = (Ok kf, s') ->
    ~ In colon (ntpath.basename (resolve_keyfile_ref e p)) ->
    trans_keyfile_path e (Some kf) s'' = (Ok kf, s'').
Proof.
  intros e p s s' kf s'' H Hc.
  destruct (trans_keyfile_path_out e p s s' kf H Hc) as [Ha Hd].
  unfold trans_keyfile_path. rewrite (resolve_keyfile_ref_out e kf Hd Ha).
  rewrite Hd, streqb_refl. reflexivity.
Qed.

Lemma trans_keyfile_path_idempotent_witness :
  trans_keyfile_path sample_env (Some (py "id_rsa")) key_state
    = (Ok (py "C:\0\sshkey\id_rsa"), key_state_after) /\
  trans_keyfile_path sample_env (Some (py "C:\0\sshkey\id_rsa")) key_state_after
    = (Ok (py "C:\0\sshkey\id_rsa"), key_state_after).
Proof.
  assert (H : trans_keyfile_path sample_env (Some (py "id_rsa")) key_state
              = (Ok (py "C:\0\sshkey\id_rsa"), key_state_after))
    by (vm_compute; reflexivity).
  split; [exact H|].
  apply (trans_keyfile_path_idempotent sample_env (py "id_rsa") key_state key_state_after
           (py "C:\0\sshkey\id_rsa") key_state_after H).
  vm_compute. intros [Hc|[Hc|[Hc|[Hc|[Hc|[Hc|Hc]]]]]]; discriminate Hc || exact Hc.
Defined.

Ltac case_ifs_in H :=
  repeat (cbv beta iota zeta in H;
          match type of H with
          | context [if ?b then _ else _] => destruct b eqn:?
          | context [match ?x with Some _ => _ | None => _ end] => destruct x eqn:?
          end).

Lemma bind_ok_inv {A B} (m : M A) (k : A -> M B) (s s' : state) (b : B) :
  bind m k s = (Ok b, s') -> exists a s1, m s = (Ok a, s1) /\ k a s1 = (Ok b, s').
Proof.
  unfold bind. destruct (m s) as [[a|x] s1]; [|discriminate]. intros H. eauto.
Qed.

Lemma makedirs_ok_inv (p : str) (s s1 : state) (u : unit) :
  makedirs p s = (Ok u, s1) ->
  files s1 = files s /\ isdir p s1 = true /\
  (dirs s1 = dirs s \/ dirs s1 = p :: dirs s).
Proof.
  unfold makedirs, bind, get_state, ret, raise.
  destruct (isfile p s); [discriminate|].
  destruct (isdir p s) eqn:Ed; [intros H; injection H as _ <-; auto|].
  destruct (mem p (readonly s)); [discriminate|].
  intros H; injection H as _ <-. simpl. split; [reflexivity|]. split; [|auto].
  unfold isdir, mem. simpl. rewrite streqb_refl. reflexivity.
Qed.

Lemma copy2_dirs (src dst : str) (s s2 : state) (r : result str) :
  copy2 src dst s = (r, s2) -> dirs s2 = dirs s.
Proof.
  unfold copy2, bind, get_state, put_file, ret, raise.
  destruct (assoc src (files s)).
  - destruct (streqb _ _); [intros H; injection H as _ <-; reflexivity|].
    destruct (isdir _ s); [intros H; injection H as _ <-; reflexivity|].
    destruct (mem _ _); intros H; injection H as _ <-; reflexivity.
  - destruct (isdir src s); intros H; injection H as _ <-; reflexivity.
Qed.

Lemma copy2_ok_inv (src dst d : str) (s s2 : state) :
  copy2 src dst s = (Ok d, s2) -> isdir dst s = false ->
  d = dst /\ exists c, assoc src (files s) = Some c /\ files s2 = (dst, c) :: files s.
Proof.
  intros H Hd. unfold copy2, bind, get_state, put_file, ret, raise in H.
  rewrite Hd in H.
  destruct (assoc src (files s)) as [c|].
  - destruct (streqb src dst); [discriminate|]. rewrite Hd in H.
    destruct (mem dst (readonly s)); [discriminate|].
    injection H as <- <-. split; [reflexivity|]. exists c. auto.
  - destruct (isdir src s); discriminate.
Qed.



(** A key reference that resolves outside the output directory to a file
    that does not exist raises [FileNotFoundError]; by then the output
    directory has been created, and no file was written. *)
Theorem trans_keyfile_path_missing_key :
  forall (e : env) (p : str) (s : state),
    let kp := resolve_keyfile_ref e p in
    ntpath.dirname kp <> SSHKEY_OUT_DIR ->
    assoc kp (files s) = None -> isdir kp s = false -> kp <> SSHKEY_OUT_DIR ->
    isfile SSHKEY_OUT_DIR s = false ->
    (isdir SSHKEY_OUT_DIR s = true \/ mem SSHKEY_OUT_DIR (readonly s) = false) ->
    exists s', trans_keyfile_path e (Some p) s = (Err FileNotFoundError, s') /\
               files s' = files s /\ isdir SSHKEY_OUT_DIR s' = true.
Proof.
  intros e p s kp Hd Hm Hkd Hko Hf Hmk. unfold trans_keyfile_path. fold kp.
  rewrite (proj2 (streqb_neq _ _) Hd). cbn [negb].
  unfold makedirs, copy2, bind, get_state, put_file, ret, raise.
  clearbody kp.
  remember (ntpath.join SSHKEY_OUT_DIR [ntpath.basename kp]) as dst eqn:Edst.
  remember SSHKEY_OUT_DIR as OUT eqn:EO. clear Edst EO.
  rewrite Hf. destruct (isdir OUT s) eqn:Ed.
  - rewrite Hm, Hkd. eexists. split; [reflexivity|]. split; [reflexivity|exact Ed].
  - destruct Hmk as [Hmk|Hmk]; [discriminate Hmk|]. rewrite Hmk.
    cbn [files dirs readonly stdout]. rewrite Hm. unfold isdir at 1, mem at 1.
    cbn [dirs existsb]. rewrite (proj2 (streqb_neq _ _) Hko). cbn [orb].
    unfold isdir in Hkd. fold (mem kp (dirs s)). rewrite Hkd.
    eexists. split; [reflexivity|]. split; [reflexivity|].
    unfold isdir, mem. cbn [dirs existsb]. rewrite streqb_refl. reflexivity.
Qed.

Lemma trans_keyfile_path_missing_key_witness :
  exists s', trans_keyfile_path sample_env (Some (py "nokey")) key_state
             = (Err FileNotFoundError, s') /\
             files s' = files key_state /\ isdir SSHKEY_OUT_DIR s' = true.
Proof.
  apply (trans_keyfile_path_missing_key sample_env (py "nokey") key_state);
    vm_compute; try reflexivity; try discriminate; right; reflexivity.
Defined.

(** ** The Tera Term and PuTTY scripts on disk *)

Lemma translate_newlines_app (a b : str) :
  translate_newlines (a ++ b) = translate_newlines a ++ translate_newlines b.
Proof. unfold translate_newlines. apply flat_map_app. Qed.

Lemma translate_script (x : str) :
  translate_newlines (py "@echo off" ++ linesep ++ x ++ py " & " ++ linesep) =
  py "@echo off" ++ [CR; CR; LF] ++ translate_newlines x ++ py " & " ++ [CR; CR; LF].
Proof.
  rewrite !translate_newlines_app. reflexivity.
Qed.

Lemma tth_cmd_shape (g : GenCmd) :
  tth_cmd g = py "@echo off" ++ linesep
              ++ (py "start " ++ q [] ++ py " " ++ tth_exefile ++ py " " ++ tth_proxyarg g
                  ++ py " " ++ fmt (host g) ++ py ":" ++ fmt (port g)
                  ++ py " /ssh " ++ tth_autharg g)
              ++ py " & " ++ linesep.
Proof. unfold tth_cmd. repeat rewrite <- app_assoc. reflexivity. Qed.

Lemma pth_cmd_shape (g : GenCmd) (cmd : str) :
  pth_cmd g = Ok cmd ->
  exists x, cmd = py "@echo off" ++ linesep ++ x ++ py " & " ++ linesep.
Proof.
  intros H. destruct (pth_autharg_ok g) as [a Ea].
  set (launch := fun pa : str =>
         py "start " ++ q [] ++ py " " ++ pth_exefile ++ py " -ssh -noshare " ++ pa
         ++ py " " ++ a ++ py " -P " ++ fmt (port g) ++ py " " ++ fmt (host g)).
  destruct (is_http g) eqn:Hh; [destruct (truthy (proxy_user g)) eqn:Hu|].
  - exists (py "set CORKSCREW_AUTH=" ++ fmt (proxy_user g) ++ py ":"
            ++ fmt (proxy_password g) ++ linesep ++ launch (pth_proxycmd g)).
    assert (Hc : pth_cmd g = Ok (py "@echo off" ++ linesep
              ++ (py "set CORKSCREW_AUTH=" ++ fmt (proxy_user g) ++ py ":"
                  ++ fmt (proxy_password g) ++ linesep ++ launch (pth_proxycmd g))
              ++ py " & " ++ linesep)).
    { unfold pth_cmd. rewrite Hh, Hu, Ea. cbv beta iota zeta. unfold launch.
      with_strategy opaque [py linesep pth_proxycmd q pth_exefile fmt]
        (repeat rewrite <- app_assoc; reflexivity). }
    congruence.
  - exists (launch (pth_proxycmd g)).
    assert (Hc : pth_cmd g = Ok (py "@echo off" ++ linesep ++ launch (pth_proxycmd g)
                                 ++ py " & " ++ linesep)).
    { unfold pth_cmd. rewrite Hh, Hu, Ea. cbv beta iota zeta. unfold launch.
      with_strategy opaque [py linesep pth_proxycmd q pth_exefile fmt]
        (repeat rewrite <- app_assoc; reflexivity). }
    congruence.
  - exists (launch []).
    assert (Hc : pth_cmd g = Ok (py "@echo off" ++ linesep ++ launch []
                                 ++ py " & " ++ linesep)).
    { unfold pth_cmd. rewrite Hh, Ea. cbv beta iota zeta. unfold launch.
      with_strategy opaque [py linesep pth_proxycmd q pth_exefile fmt]
        (repeat rewrite <- app_assoc; reflexivity). }
    congruence.
Qed.

(** Both scripts are written in text mode, which turns each ['\n'] of the
    [os.linesep] (CR LF) they already contain into CR LF again: the files
    start with [@echo off] followed by CR CR LF and end with [ & ] followed
    by CR CR LF. *)
Theorem scripts_end_lines_with_cr_cr_lf :
  forall g : GenCmd,
    (exists mid, translate_newlines (tth_cmd g) =
                 py "@echo off" ++ [CR; CR; LF] ++ mid ++ py " & " ++ [CR; CR; LF]) /\
    (exists cmd mid, pth_cmd g = Ok cmd /\
     translate_newlines cmd =
       py "@echo off" ++ [CR; CR; LF] ++ mid ++ py " & " ++ [CR; CR; LF]).
Proof.
  intros g. split.
  - rewrite tth_cmd_shape, translate_script. eexists. reflexivity.
  - destruct (pth_autharg_ok g) as [a Ha].
    assert (Hc : exists cmd, pth_cmd g = Ok cmd)
      by (unfold pth_cmd; rewrite Ha; destruct (is_http g); eexists; reflexivity).
    destruct Hc as [cmd H]. exists cmd.
    destruct (pth_cmd_shape g cmd H) as [x Hx].
    rewrite Hx, translate_script. eexists. split; [rewrite <- Hx; exact H|reflexivity].
Qed.

(** [GenCmd.pth] cannot fail on the key-file conversion (it converts only
    a non-empty key path), so both scripts are written whenever the output
    file is writable, each holding its command text. *)
Theorem tth_pth_write_scripts :
  forall (g : GenCmd) (outfile : str) (s : state),
    isdir outfile s = false -> mem outfile (readonly s) = false ->
    (exists s', tth g outfile s = (Ok tt, s') /\
                assoc outfile (files s') = Some (translate_newlines (tth_cmd g))) /\
    (exists cmd s', pth_cmd g = Ok cmd /\ pth g outfile s = (Ok tt, s') /\
                    assoc outfile (files s') = Some (translate_newlines cmd)).
Proof.
  intros g outfile s Hd Hr. split.
  - apply write_text_lands; assumption.
  - destruct (pth_autharg_ok g) as [a Ha].
    assert (Hc : exists cmd, pth_cmd g = Ok cmd)
      by (unfold pth_cmd; rewrite Ha; destruct (is_http g); eexists; reflexivity).
    destruct Hc as [cmd Hc].
    destruct (write_text_lands outfile cmd s Hd Hr) as [s' [Hw Hf]].
    exists cmd, s'. unfold pth. rewrite Hc. auto.
Qed.

Definition sample_host : GenCmd :=
  mkGenCmd (py "h") (Some (py "example.org")) (Some (py "22")) (Some (py "me")) None
    (Some (py "C:\0\sshkey\id_rsa")) (Some (py "publickey")) None None None None None.

Lemma tth_pth_write_scripts_witness :
  isdir (py "C:\1\pth\h.bat") empty_state = false /\
  exists cmd s', pth_cmd sample_host = Ok cmd /\
                 pth sample_host (py "C:\1\pth\h.bat") empty_state = (Ok tt, s') /\
                 assoc (py "C:\1\pth\h.bat") (files s') = Some (translate_newlines cmd).
Proof.
  split; [reflexivity|].
  apply (tth_pth_write_scripts sample_host (py "C:\1\pth\h.bat") empty_state);
    reflexivity.
Defined.

(** ** [BasicInterpolation] *)

(** The ini text of a value [v]: every ['%'] doubled. *)
Definition escape (v : str) : str :=
  flat_map (fun c => if chreqb c pct then [pct; pct] else [c]) v.

(** The reference [%(name)s]. *)
Definition ref (name : str) : str := [pct; lpar] ++ name ++ [rpar; s_chr].

Definition iapp (a : str) (r : iresult str) : iresult str :=
  match r with IOk x => IOk (a ++ x) | IErr e => IErr e end.

Lemma index_of_app (c : ascii) (a r : str) :
  ~ In c a -> index_of c (a ++ r) = option_map (Nat.add (length a)) (index_of c r).
Proof.
  induction a as [|x a IH]; intros Ha; simpl.
  - destruct (index_of c r); reflexivity.
  - assert (Hx : chreqb x c = false) by (apply chreqb_neq; intros ->; apply Ha; left; reflexivity).
    rewrite Hx, IH by (intros H; apply Ha; right; exact H).
    destruct (index_of c r); reflexivity.
Qed.

Lemma index_of_none (c : ascii) (r : str) : index_of c r = None -> ~ In c r.
Proof.
  induction r as [|x r IH]; simpl; [auto|].
  destruct (chreqb x c) eqn:E; [discriminate|].
  apply chreqb_neq in E. destruct (index_of c r); [discriminate|].
  intros _ [H|H]; [congruence|exact (IH eq_refl H)].
Qed.

Lemma index_of_some (c : ascii) (r : str) (p : nat) :
  index_of c r = Some p -> exists a r', r = a ++ c :: r' /\ ~ In c a /\ p = length a.
Proof.
  revert p. induction r as [|x r IH]; intros p; simpl; [discriminate|].
  destruct (chreqb x c) eqn:E.
  - apply chreqb_eq in E. subst x. intros H. injection H as <-.
    exists [], r. simpl. auto.
  - apply chreqb_neq in E. destruct (index_of c r) as [k|] eqn:Ek; [|discriminate].
    intros H. injection H as <-. destruct (IH k eq_refl) as (a & r' & -> & Ha & ->).
    exists (x :: a), r'. simpl. split; [reflexivity|]. split; [|reflexivity].
    intros [H|H]; [congruence|contradiction].
Qed.

Lemma first_pct (v : str) :
  exists a r, v = a ++ r /\ ~ In pct a /\ (r = [] \/ exists r', r = pct :: r').
Proof.
  destruct (index_of pct v) as [p|] eqn:E.
  - destruct (index_of_some _ _ _ E) as (a & r & -> & Ha & _).
    exists a, (pct :: r). eauto.
  - exists v, []. rewrite app_nil_r. split; [reflexivity|]. split; [|auto].
    apply index_of_none. exact E.
Qed.

(** One pass first moves the text before the first ['%'] to [accum]. *)
Lemma loop_chunk (recur : str -> str -> iresult str) map n accum a r :
  ~ In pct a ->
  interpolate_loop recur map (S n) accum (a ++ pct :: r) =
  interpolate_loop recur map (S n) (accum ++ a) (pct :: r).
Proof.
  intros Ha. cbn [interpolate_loop].
  destruct (a ++ pct :: r) as [|y l] eqn:E; [destruct a; discriminate|].
  rewrite <- E, index_of_app by exact Ha.
  assert (Hp : index_of pct (pct :: r) = Some 0) by reflexivity.
  rewrite Hp. cbn [option_map]. rewrite Nat.add_0_r.
  change (0 <? 0) with false.
  destruct (Nat.ltb_spec 0 (length a)) as [Hl|Hl].
  - rewrite firstn_app, skipn_app, firstn_all, Nat.sub_diag, skipn_all.
    cbn [firstn skipn app]. rewrite app_nil_r. reflexivity.
  - destruct a; [|simpl in Hl; lia]. rewrite app_nil_r. reflexivity.
Qed.

Lemma loop_no_pct (recur : str -> str -> iresult str) map n accum r :
  ~ In pct r -> interpolate_loop recur map (S n) accum r = IOk (accum ++ r).
Proof.
  intros Hr. destruct r as [|x r']; simpl; [rewrite app_nil_r; reflexivity|].
  destruct (chreqb x pct) eqn:E; [apply chreqb_eq in E; subst; exfalso; apply Hr; left; reflexivity|].
  destruct (index_of pct r') as [k|] eqn:Ek; [|reflexivity].
  exfalso. destruct (index_of_some _ _ _ Ek) as (a & r'' & -> & _).
  apply Hr. right. apply in_or_app. right. left. reflexivity.
Qed.

Lemma loop_pct_pct (recur : str -> str -> iresult str) map n accum r :
  interpolate_loop recur map (S n) accum (pct :: pct :: r) =
  interpolate_loop recur map n (accum ++ [pct]) r.
Proof. reflexivity. Qed.

Lemma firstn_while_rpar (name r : str) :
  ~ In rpar name ->
  firstn_while (fun c => negb (chreqb c rpar)) (name ++ rpar :: r) = name.
Proof.
  induction name as [|x name IH]; intros Hn; simpl.
  - try rewrite chreqb_refl. reflexivity.
  - assert (Hx : chreqb x rpar = false) by (apply chreqb_neq; intros ->; apply Hn; left; reflexivity).
    rewrite Hx. simpl. f_equal. apply IH. intros H. apply Hn. right. exact H.
Qed.

Lemma firstn_while_all (f : ascii -> bool) (r : str) :
  forallb f r = true -> firstn_while f r = r.
Proof.
  induction r as [|x r IH]; simpl; [reflexivity|].
  intros H. apply andb_true_iff in H. destruct H as [-> H]. f_equal. exact (IH H).
Qed.

Lemma keycre_match_ref (name r : str) :
  name <> [] -> ~ In rpar name ->
  keycre_match (ref name ++ r) = Some (name, 2 + length name + 2).
Proof.
  intros Hne Hn. unfold ref, keycre_match. cbn [app].
  rewrite chreqb_refl. cbn [andb]. rewrite <- app_assoc. cbn [app].
  rewrite (firstn_while_rpar name _ Hn).
  destruct name as [|x name']; [congruence|].
  rewrite skipn_app, skipn_all, Nat.sub_diag. cbn [skipn].
  rewrite !chreqb_refl. reflexivity.
Qed.

Lemma keycre_match_unclosed (r : str) :
  ~ In rpar r -> keycre_match (pct :: lpar :: r) = None.
Proof.
  intros Hr. unfold keycre_match. rewrite !chreqb_refl. cbn [andb].
  rewrite firstn_while_all.
  - destruct r as [|x r']; [reflexivity|]. rewrite skipn_all. reflexivity.
  - apply forallb_forall. intros x Hx. apply negb_true_iff, chreqb_neq.
    intros ->. contradiction.
Qed.

Lemma keycre_match_end (rest name : str) (e : nat) :
  keycre_match rest = Some (name, e) -> e = 2 + length name + 2.
Proof.
  unfold keycre_match. destruct rest as [|c1 [|c2 r]]; try discriminate.
  destruct (chreqb c1 pct && chreqb c2 lpar); [|discriminate].
  destruct (firstn_while _ r) as [|y l]; [discriminate|].
  destruct (skipn _ r) as [|c3 [|c4 t]]; try discriminate.
  destruct (chreqb c3 rpar && chreqb c4 s_chr); [|discriminate].
  intros H. injection H as <- <-. reflexivity.
Qed.

Lemma loop_ref (recur : str -> str -> iresult str) map n accum name r :
  name <> [] -> ~ In rpar name ->
  interpolate_loop recur map (S n) accum (ref name ++ r) =
  match assoc (optionxform name) map with
  | None => IErr InterpolationMissingOptionError
  | Some v =>
      if existsb (chreqb pct) v then
        match recur accum v with
        | IOk accum => interpolate_loop recur map n accum r
        | IErr x => IErr x
        end
      else interpolate_loop recur map n (accum ++ v) r
  end.
Proof.
  intros Hne Hn.
  assert (Hk := keycre_match_ref name r Hne Hn).
  assert (Hs : skipn (2 + length name + 2) (ref name ++ r) = r).
  { unfold ref. cbn [app].
    replace (2 + length name + 2) with (S (S (length (name ++ [rpar; s_chr]))))
      by (rewrite length_app; simpl; lia).
    cbn [skipn]. rewrite skipn_app, skipn_all, Nat.sub_diag. reflexivity. }
  unfold ref in Hk, Hs |- *.
  change (([pct; lpar] ++ name ++ [rpar; s_chr]) ++ r)
    with (pct :: lpar :: ((name ++ [rpar; s_chr]) ++ r)) in *.
  remember ((name ++ [rpar; s_chr]) ++ r) as X eqn:HX. clear HX.
  cbn [interpolate_loop index_of]. rewrite chreqb_refl. cbv beta iota zeta.
  change (0 <? 0) with false. cbv beta iota zeta. cbn [firstn skipn].
  replace (streqb [lpar] [pct]) with false by reflexivity.
  rewrite streqb_refl, Hk. cbv beta iota zeta. rewrite Hs. reflexivity.
Qed.

Lemma loop_unclosed (recur : str -> str -> iresult str) map n accum r :
  ~ In rpar r ->
  interpolate_loop recur map (S n) accum (pct :: lpar :: r) = IErr InterpolationSyntaxError.
Proof.
  intros Hr. pose proof (keycre_match_unclosed r Hr) as Hk.
  simpl. try rewrite chreqb_refl. simpl. simpl in Hk. rewrite Hk. reflexivity.
Qed.

Lemma loop_bad_pct (recur : str -> str -> iresult str) map n accum r :
  (forall x r', r = x :: r' -> x <> pct /\ x <> lpar) ->
  interpolate_loop recur map (S n) accum (pct :: r) = IErr InterpolationSyntaxError.
Proof.
  intros Hr. simpl. try rewrite chreqb_refl. simpl.
  destruct r as [|x r']; [reflexivity|].
  destruct (Hr x r' eq_refl) as [H1 H2]. simpl.
  replace (streqb [x] [pct]) with false
    by (symmetry; apply streqb_neq; intros H; injection H; auto).
  replace (streqb [x] [lpar]) with false
    by (symmetry; apply streqb_neq; intros H; injection H; auto).
  reflexivity.
Qed.

(** One pass of the loop, by what follows the first ['%'], as used by the
    inductions below. *)
Lemma loop_cases (recur : str -> str -> iresult str) map n accum x r :
  interpolate_loop recur map (S n) accum (pct :: x :: r) =
  if chreqb x pct then interpolate_loop recur map n (accum ++ [pct]) r
  else if chreqb x lpar then
    match keycre_match (pct :: x :: r) with
    | None => IErr InterpolationSyntaxError
    | Some (name, e) =>
        match assoc (optionxform name) map with
        | None => IErr InterpolationMissingOptionError
        | Some v =>
            if existsb (chreqb pct) v then
              match recur accum v with
              | IOk accum => interpolate_loop recur map n accum (skipn e (pct :: x :: r))
              | IErr x => IErr x
              end
            else interpolate_loop recur map n (accum ++ v) (skipn e (pct :: x :: r))
        end
    end
  else IErr InterpolationSyntaxError.
Proof.
  simpl. try rewrite chreqb_refl. simpl.
  destruct (chreqb x pct) eqn:E1.
  - apply chreqb_eq in E1. subst. reflexivity.
  - replace (streqb [x] [pct]) with false
      by (symmetry; apply streqb_neq; intros H; injection H as ->; rewrite chreqb_refl in E1; discriminate).
    destruct (chreqb x lpar) eqn:E2.
    + apply chreqb_eq in E2. subst. reflexivity.
    + replace (streqb [x] [lpar]) with false
        by (symmetry; apply streqb_neq; intros H; injection H as ->; rewrite chreqb_refl in E2; discriminate).
      reflexivity.
Qed.

(** Enough passes give the same result. *)
Lemma loop_fuel (recur : str -> str -> iresult str) map :
  forall n m accum rest, length rest < n -> length rest < m ->
  interpolate_loop recur map n accum rest = interpolate_loop recur map m accum rest.
Proof.
  induction n as [|n IH]; intros m accum rest Hn Hm; [lia|].
  destruct m as [|m]; [lia|].
  destruct (first_pct rest) as (a & r & -> & Ha & [->|(r' & ->)]).
  - rewrite app_nil_r in *. rewrite !loop_no_pct by exact Ha. reflexivity.
  - rewrite !loop_chunk by exact Ha.
    rewrite length_app in Hn, Hm. simpl in Hn, Hm.
    destruct r' as [|x r]; [rewrite !loop_bad_pct by (intros; discriminate); reflexivity|].
    rewrite !loop_cases. simpl in Hn, Hm.
    destruct (chreqb x pct); [apply IH; lia|].
    destruct (chreqb x lpar); [|reflexivity].
    destruct (keycre_match (pct :: x :: r)) as [[name e]|] eqn:Ek; [|reflexivity].
    apply keycre_match_end in Ek.
    assert (Hl : length (skipn e (pct :: x :: r)) < n /\ length (skipn e (pct :: x :: r)) < m)
      by (rewrite length_skipn; subst e; simpl length; lia).
    destruct Hl as [Hl1 Hl2].
    destruct (assoc _ map); [|reflexivity].
    destruct (existsb _ _).
    + destruct (recur _ _); [apply IH; lia|reflexivity].
    + apply IH; lia.
Qed.

(** The loop only appends to [accum] when the recursive call does. *)
Lemma loop_accum (recur : str -> str -> iresult str) map :
  (forall accum v, recur accum v = iapp accum (recur [] v)) ->
  forall n accum rest,
  interpolate_loop recur map n accum rest = iapp accum (interpolate_loop recur map n [] rest).
Proof.
  intros Hrec. induction n as [|n IH]; intros accum rest; [simpl; rewrite app_nil_r; reflexivity|].
  destruct (first_pct rest) as (a & r & -> & Ha & [->|(r' & ->)]).
  - rewrite app_nil_r. rewrite !loop_no_pct by exact Ha. reflexivity.
  - rewrite !loop_chunk by exact Ha. simpl app at 2.
    destruct r' as [|x r]; [rewrite !loop_bad_pct by (intros; discriminate); reflexivity|].
    rewrite !loop_cases.
    destruct (chreqb x pct).
    + rewrite (IH ((accum ++ a) ++ [pct])), (IH (a ++ [pct])).
      destruct (interpolate_loop _ _ _ [] r); simpl; [rewrite !app_assoc|]; reflexivity.
    + destruct (chreqb x lpar); [|reflexivity].
      destruct (keycre_match _) as [[name e]|]; [|reflexivity].
      destruct (assoc _ map); [|reflexivity].
      destruct (existsb _ _).
      * rewrite (Hrec (accum ++ a)), (Hrec a).
        destruct (recur [] _) as [y|]; simpl; [|reflexivity].
        rewrite (IH ((accum ++ a) ++ y)), (IH (a ++ y)).
        destruct (interpolate_loop _ _ _ [] _); simpl; [rewrite !app_assoc|]; reflexivity.
      * rewrite (IH ((accum ++ a) ++ _)), (IH (a ++ _)).
        destruct (interpolate_loop _ _ _ [] _); simpl; [rewrite !app_assoc|]; reflexivity.
Qed.

Lemma interpolate_some_accum (d : nat) map :
  forall depth accum rest,
  interpolate_some d map depth accum rest = iapp accum (interpolate_some d map depth [] rest).
Proof.
  induction d as [|d IH]; intros depth accum rest; cbn [interpolate_some];
    (destruct (MAX_INTERPOLATION_DEPTH <? depth); [reflexivity|]);
    apply loop_accum; intros; [reflexivity|apply IH].
Qed.

Lemma escape_app (a b : str) : escape (a ++ b) = escape a ++ escape b.
Proof. unfold escape. apply flat_map_app. Qed.

Lemma escape_no_pct (a : str) : ~ In pct a -> escape a = a.
Proof.
  induction a as [|x a IH]; intros Ha; [reflexivity|].
  simpl. assert (Hx : chreqb x pct = false) by (apply chreqb_neq; intros ->; apply Ha; left; reflexivity).
  rewrite Hx. simpl. f_equal. apply IH. intros H. apply Ha. right. exact H.
Qed.

Lemma existsb_pct_false (v : str) : existsb (chreqb pct) v = false <-> ~ In pct v.
Proof.
  split.
  - intros H Hin. assert (existsb (chreqb pct) v = true)
      by (apply existsb_exists; exists pct; split; [exact Hin|apply chreqb_refl]).
    congruence.
  - intros H. apply Bool.not_true_iff_false. intros Hx.
    apply existsb_exists in Hx. destruct Hx as [y [Hy Hc]].
    apply chreqb_eq in Hc. subst. contradiction.
Qed.

Lemma loop_escape (recur : str -> str -> iresult str) map :
  forall k v n accum, length v <= k -> length v < n ->
  interpolate_loop recur map n accum (escape v) = IOk (accum ++ v).
Proof.
  induction k as [|k IH]; intros v n accum Hk Hn.
  - destruct v; [|simpl in Hk; lia]. destruct n; [lia|].
    simpl. rewrite app_nil_r. reflexivity.
  - destruct n as [|n]; [lia|].
    destruct (first_pct v) as (a & r & -> & Ha & [->|(r' & ->)]).
    + rewrite app_nil_r, escape_no_pct by exact Ha. apply loop_no_pct. exact Ha.
    + rewrite escape_app, escape_no_pct by exact Ha.
      simpl escape. try rewrite chreqb_refl. simpl app at 2.
      rewrite loop_chunk by exact Ha. rewrite loop_pct_pct.
      rewrite length_app in Hk, Hn. simpl in Hk, Hn.
      rewrite IH by lia. rewrite <- !app_assoc. reflexivity.
Qed.

Lemma escape_length (v : str) : length v <= length (escape v).
Proof.
  induction v as [|x v IH]; [reflexivity|].
  simpl. destruct (chreqb x pct); simpl; lia.
Qed.

Lemma before_get_loop (map : list (str * str)) (v : str) :
  before_get map v =
  interpolate_loop (fun accum w => interpolate_some 9 map 2 accum w) map (S (length v)) [] v.
Proof. reflexivity. Qed.

Lemma existsb_pct_ref (name : str) : existsb (chreqb pct) (ref name) = true.
Proof. reflexivity. Qed.

Lemma interpolate_some_self (map : list (str * str)) (name : str) :
  name <> [] -> ~ In rpar name ->
  assoc (optionxform name) map = Some (ref name) ->
  forall d depth accum,
  interpolate_some d map depth accum (ref name) = IErr InterpolationDepthError.
Proof.
  intros Hne Hn Hm. induction d as [|d IH]; intros depth accum;
    cbn [interpolate_some]; (destruct (MAX_INTERPOLATION_DEPTH <? depth); [reflexivity|]);
    rewrite <- (app_nil_r (ref name)); rewrite loop_ref by assumption;
    rewrite app_nil_r, Hm, existsb_pct_ref; [reflexivity|].
  rewrite IH. reflexivity.
Qed.

(** [%%] in the ini text reads as one [%]: interpolating the text in
    which every ['%'] of [v] is doubled gives [v] back, whatever the other
    options are.  In particular a value without ['%'] is read unchanged. *)
Theorem before_get_escape :
  forall (map : list (str * str)) (v : str),
    before_get map (escape v) = IOk v /\
    (~ In pct v -> before_get map v = IOk v).
Proof.
  intros map v.
  assert (H : before_get map (escape v) = IOk v).
  { rewrite before_get_loop.
    rewrite (loop_escape _ map (length v) v); [reflexivity|lia|].
    pose proof (escape_length v). lia. }
  split; [exact H|]. intros Hv. rewrite escape_no_pct in H by exact Hv. exact H.
Qed.

(** A reference [%(name)s] after a text [a] without ['%'] is replaced by
    the value of the option [optionxform(name)] of the section or of
    [DEFAULT] (when that value holds no ['%'] of its own), and the rest
    [b] of the value is interpolated on its own; when no such option exists
    the read fails with [InterpolationMissingOptionError]. *)
Theorem before_get_reference :
  forall (map : list (str * str)) (a name b : str),
    ~ In pct a -> name <> [] -> ~ In rpar name ->
    (assoc (optionxform name) map = None ->
     before_get map (a ++ ref name ++ b) = IErr InterpolationMissingOptionError) /\
    (forall w, assoc (optionxform name) map = Some w -> ~ In pct w ->
     before_get map (a ++ ref name ++ b) = iapp (a ++ w) (before_get map b)).
Proof.
  intros map a name b Ha Hne Hn.
  set (R := fun accum w => interpolate_some 9 map 2 accum w).
  set (L := length (a ++ ref name ++ b)).
  assert (Hstep : before_get map (a ++ ref name ++ b) =
                  interpolate_loop R map (S L) a (ref name ++ b)).
  { rewrite before_get_loop. fold R L.
    change (ref name ++ b) with (pct :: (lpar :: (name ++ [rpar; s_chr]) ++ b)).
    rewrite loop_chunk by exact Ha. reflexivity. }
  split.
  - intros Hm. rewrite Hstep, loop_ref, Hm by assumption. reflexivity.
  - intros w Hm Hw. rewrite Hstep, loop_ref, Hm by assumption.
    rewrite (proj2 (existsb_pct_false w) Hw).
    rewrite loop_accum by (intros; apply interpolate_some_accum).
    rewrite before_get_loop. fold R.
    rewrite (loop_fuel R map L (S (length b))); [reflexivity| |lia].
    unfold L. rewrite !length_app. unfold ref. rewrite !length_app. simpl. lia.
Qed.

(** An option whose value is a reference to itself cannot be read: the
    recursion stops at [MAX_INTERPOLATION_DEPTH] with
    [InterpolationDepthError]. *)
Theorem before_get_self_reference :
  forall (map : list (str * str)) (name : str),
    name <> [] -> ~ In rpar name ->
    assoc (optionxform name) map = Some (ref name) ->
    before_get map (ref name) = IErr InterpolationDepthError.
Proof.
  intros map name Hne Hn Hm. unfold before_get.
  apply interpolate_some_self; assumption.
Qed.

Lemma firstn_while_prefix (f : ascii -> bool) (r : str) :
  r = firstn_while f r ++ skipn (length (firstn_while f r)) r.
Proof.
  induction r as [|x r IH]; [reflexivity|]. cbn [firstn_while].
  destruct (f x); [cbn [length skipn app]; f_equal; exact IH|reflexivity].
Qed.

Lemma firstn_while_sat (f : ascii -> bool) (r : str) (x : ascii) :
  In x (firstn_while f r) -> f x = true.
Proof.
  induction r as [|y r IH]; [intros []|]. cbn [firstn_while].
  destruct (f y) eqn:E; [|intros []]. intros [<-|H]; [exact E|exact (IH H)].
Qed.

Lemma keycre_match_some (s name : str) (e : nat) :
  keycre_match s = Some (name, e) ->
  exists rest, s = ref name ++ rest /\ name <> [] /\ ~ In rpar name.
Proof.
  unfold keycre_match. destruct s as [|c1 [|c2 r]]; try discriminate.
  destruct (chreqb c1 pct) eqn:E1; [|discriminate].
  destruct (chreqb c2 lpar) eqn:E2; [|discriminate]. cbn [andb].
  apply chreqb_eq in E1, E2. subst c1 c2.
  pose proof (firstn_while_prefix (fun c => negb (chreqb c rpar)) r) as Hp.
  pose proof (firstn_while_sat (fun c => negb (chreqb c rpar)) r) as Hs.
  destruct (firstn_while _ r) as [|y l] eqn:Ef; [discriminate|].
  destruct (skipn _ r) as [|c3 [|c4 t]]; try discriminate.
  destruct (chreqb c3 rpar) eqn:E3; [|discriminate].
  destruct (chreqb c4 s_chr) eqn:E4; [|discriminate]. cbn [andb].
  intros H. injection H as <- _. apply chreqb_eq in E3, E4. subst c3 c4.
  exists t. split; [|split; [discriminate|]].
  - rewrite Hp at 1. unfold ref. rewrite <- !app_assoc. reflexivity.
  - intros Hi. specialize (Hs rpar Hi). rewrite chreqb_refl in Hs. discriminate Hs.
Qed.

(** What may follow a ['%'] for it to be a syntax error: nothing, a
    character other than ['%'] and ['('], or a ['('] that does not start a
    complete [%(name)s]. *)
Definition bad_pct_rest (r : str) : Prop :=
  (forall x r', r = x :: r' -> x <> pct /\ x <> lpar) \/
  (exists r', r = lpar :: r' /\ keycre_match (pct :: lpar :: r') = None).

Lemma loop_bad_rest (recur : str -> str -> iresult str) map n accum r :
  bad_pct_rest r ->
  interpolate_loop recur map (S n) accum (pct :: r) = IErr InterpolationSyntaxError.
Proof.
  intros [Hr|(r' & -> & Hk)]; [apply loop_bad_pct; exact Hr|].
  rewrite loop_cases.
  replace (chreqb lpar pct) with false by (symmetry; apply chreqb_neq; intros H; vm_compute in H; discriminate H).
  rewrite chreqb_refl, Hk. reflexivity.
Qed.

Lemma loop_prefix_bad (recur : str -> str -> iresult str) map :
  forall n m accum p w r,
  length p < n -> length (p ++ pct :: r) < m -> bad_pct_rest r ->
  interpolate_loop recur map n accum p = IOk w ->
  interpolate_loop recur map m accum (p ++ pct :: r) = IErr InterpolationSyntaxError.
Proof.
  induction n as [|n IH]; intros m accum p w r Hn Hm Hr Hp; [lia|].
  destruct m as [|m]; [lia|].
  destruct (first_pct p) as (a & q & -> & Ha & [->|(r' & ->)]).
  - rewrite app_nil_r. rewrite loop_chunk by exact Ha. apply loop_bad_rest. exact Hr.
  - rewrite <- app_assoc. cbn [app]. rewrite loop_chunk by exact Ha.
    rewrite loop_chunk in Hp by exact Ha.
    rewrite !length_app in Hn, Hm. cbn [length] in Hn, Hm. rewrite length_app in Hm. cbn [length] in Hm.
    destruct r' as [|x r'']; [rewrite loop_bad_pct in Hp by (intros; discriminate); discriminate Hp|].
    cbn [app]. rewrite loop_cases. rewrite loop_cases in Hp. cbn [length] in Hn, Hm.
    destruct (chreqb x pct).
    + apply (IH m _ r'' w r); [lia|rewrite length_app; cbn [length]; lia|exact Hr|exact Hp].
    + destruct (chreqb x lpar); [|discriminate Hp].
      destruct (keycre_match (pct :: x :: r'')) as [[name e]|] eqn:Ek; [|discriminate Hp].
      destruct (keycre_match_some _ _ _ Ek) as (t & Et & Hne & Hnr).
      assert (He := keycre_match_end _ _ _ Ek).
      assert (Ek' : keycre_match (pct :: x :: r'' ++ pct :: r) = Some (name, e)).
      { change (pct :: x :: r'' ++ pct :: r) with ((pct :: x :: r'') ++ pct :: r).
        rewrite Et, <- app_assoc, keycre_match_ref by assumption. rewrite He. reflexivity. }
      assert (Hle : e <= length (pct :: x :: r'')).
      { rewrite Et, length_app, He. unfold ref. rewrite !length_app. cbn [length]. lia. }
      assert (Es : skipn e (pct :: x :: r'' ++ pct :: r) = skipn e (pct :: x :: r'') ++ pct :: r).
      { change (pct :: x :: r'' ++ pct :: r) with ((pct :: x :: r'') ++ pct :: r).
        rewrite skipn_app. replace (e - length (pct :: x :: r'')) with 0 by lia. reflexivity. }
      assert (Hl : length (skipn e (pct :: x :: r'')) <= length r'').
      { rewrite length_skipn. cbn [length]. rewrite He. lia. }
      rewrite Ek', Es. destruct (assoc _ map); [|discriminate Hp].
      destruct (existsb _ _).
      * destruct (recur _ _) as [acc'|]; [|discriminate Hp].
        apply (IH m _ _ w r); [lia|rewrite length_app; cbn [length]; lia|exact Hr|exact Hp].
      * apply (IH m _ _ w r); [lia|rewrite length_app; cbn [length]; lia|exact Hr|exact Hp].
Qed.

(** After any text [p] that reads successfully, a ['%'] that is neither
    doubled nor the start of a complete [%(name)s] reference makes the read
    fail with [InterpolationSyntaxError]: a ['%'] at the end, one followed
    by a character other than ['%'] and ['('], and a [%(] that
    [_KEYCRE] does not match ([%()s], [%(a)x], [%(a] with no [)s] after
    the name). *)
Theorem before_get_syntax_error :
  forall (map : list (str * str)) (p w r : str),
    before_get map p = IOk w -> bad_pct_rest r ->
    before_get map (p ++ pct :: r) = IErr InterpolationSyntaxError.
Proof.
  intros map p w r Hp Hr. rewrite before_get_loop in Hp |- *.
  apply (loop_prefix_bad _ map (S (length p)) _ [] p w r); [lia|lia|exact Hr|exact Hp].
Qed.

Lemma before_get_reference_witness :
  before_get [(py "user", py "me")] (py "id_" ++ ref (py "User") ++ py ".pub")
  = IOk (py "id_me.pub").
Proof.
  destruct (before_get_reference [(py "user", py "me")] (py "id_") (py "User") (py ".pub"))
    as [_ H];
    [vm_compute; intuition discriminate | discriminate | vm_compute; intuition discriminate |].
  rewrite (H (py "me")); [reflexivity | reflexivity | vm_compute; intuition discriminate].
Defined.

Lemma before_get_self_reference_witness :
  before_get [(py "a", ref (py "a"))] (ref (py "a")) = IErr InterpolationDepthError.
Proof.
  apply before_get_self_reference;
    [discriminate | vm_compute; intuition discriminate | reflexivity].
Defined.

Lemma before_get_syntax_error_witness :
  before_get [(py "user", py "me")] (ref (py "user") ++ py "/" ++ pct :: lpar :: py "h)x")
  = IErr InterpolationSyntaxError /\
  before_get [] (py "50%%" ++ pct :: []) = IErr InterpolationSyntaxError.
Proof.
  split.
  - rewrite app_assoc.
    apply (before_get_syntax_error _ _ (py "me/")); [vm_compute; reflexivity|].
    right. exists (py "h)x"). split; [reflexivity|vm_compute; reflexivity].
  - apply (before_get_syntax_error _ _ (py "50%")); [vm_compute; reflexivity|].
    left. intros x r' H. discriminate H.
Defined.

(** ** [main] *)

Lemma mbind_ok_inv {A B} (m : MM A) (k : A -> MM B) (s s' : state) (b : B) :
  mbind m k s = (MOk b, s') -> exists a s1, m s = (MOk a, s1) /\ k a s1 = (MOk b, s').
Proof.
  unfold mbind. destruct (m s) as [[a|x] s1]; [|discriminate]. intros H. eauto.
Qed.

Lemma lift_ok_inv {A} (m : M A) (s s' : state) (a : A) :
  lift m s = (MOk a, s') -> m s = (Ok a, s').
Proof.
  unfold lift. destruct (m s) as [[a'|x] s1]; [|discriminate]. congruence.
Qed.

Lemma lift_i_ok_inv {A} (r : iresult A) (s s' : state) (a : A) :
  lift_i r s = (MOk a, s') -> r = IOk a /\ s' = s.
Proof. unfold lift_i. destruct r; [|discriminate]. intros H. injection H as -> ->. auto. Qed.

Lemma main_keys_ok (c fu : ConfigParser) (sec : str) :
  forall keys s s' ls, main_keys c fu sec keys s = (MOk ls, s') ->
  render_keys c fu sec keys = IOk ls.
Proof.
  induction keys as [|key keys IH]; intros s s' ls H; simpl in *.
  - injection H as <- _. reflexivity.
  - apply mbind_ok_inv in H. destruct H as (v & s1 & H1 & H).
    apply lift_i_ok_inv in H1. destruct H1 as [Hv ->]. rewrite Hv.
    apply mbind_ok_inv in H. destruct H as (u & s2 & _ & H).
    apply mbind_ok_inv in H. destruct H as (ls' & s3 & H3 & H).
    rewrite (IH _ _ _ H3). unfold mret in H. injection H as <- _. reflexivity.
Qed.

Lemma main_keys_err (c fu : ConfigParser) (sec : str) :
  forall keys x, render_keys c fu sec keys = IErr x ->
  forall s, exists s', main_keys c fu sec keys s = (MErr (InterpExc x), s').
Proof.
  induction keys as [|key keys IH]; intros x Hr s; simpl in *; [discriminate|].
  unfold mbind at 1, lift_i.
  destruct (cp_get c sec key) as [v|y].
  - destruct (render_keys c fu sec keys) as [ls|y] eqn:Hk; [discriminate|].
    injection Hr as <-.
    unfold mbind at 1, lift, print.
    destruct (IH y eq_refl (mkstate (files s) (dirs s) (readonly s)
                              (stdout s ++ [key_line fu key v]))) as [s' Hs'].
    exists s'. unfold mbind. rewrite Hs'. reflexivity.
  - injection Hr as <-. eexists. reflexivity.
Qed.

Lemma write_text_ok_assoc (p c : str) (s s' : state) :
  write_text p c s = (Ok tt, s') -> assoc p (files s') = Some (translate_newlines c).
Proof.
  unfold write_text, bind, get_state, raise, put_file.
  destruct (isdir p s); [discriminate|]. destruct (mem p (readonly s)); [discriminate|].
  intros H. injection H as <-. simpl. rewrite streqb_refl. reflexivity.
Qed.

(** *** What [main] leaves in the file system *)

(** An action of the model only ever adds entries to the file table. *)
Definition grows {A} (m : M A) : Prop :=
  forall s, exists pre, files (snd (m s)) = pre ++ files s.

Definition mgrows {A} (m : MM A) : Prop :=
  forall s, exists pre, files (snd (m s)) = pre ++ files s.

Lemma grows_ret {A} (a : A) : grows (ret a).
Proof. intros s. exists []. reflexivity. Qed.

Lemma grows_raise {A} (x : exn) : grows (A := A) (raise x).
Proof. intros s. exists []. reflexivity. Qed.

Lemma grows_get_state : grows get_state.
Proof. intros s. exists []. reflexivity. Qed.

Lemma grows_print (l : str) : grows (print l).
Proof. intros s. exists []. reflexivity. Qed.

Lemma grows_put_file (p c : str) : grows (put_file p c).
Proof. intros s. exists [(p, c)]. reflexivity. Qed.

Lemma grows_bind {A B} (m : M A) (k : A -> M B) :
  grows m -> (forall a, grows (k a)) -> grows (bind m k).
Proof.
  intros Hm Hk s. unfold bind. destruct (Hm s) as [pre1 H1].
  destruct (m s) as [[a|x] s1]; simpl in H1.
  - destruct (Hk a s1) as [pre2 H2]. exists (pre2 ++ pre1). rewrite H2, H1, app_assoc. reflexivity.
  - exists pre1. exact H1.
Qed.

Lemma grows_if {A} (b : bool) (m1 m2 : M A) :
  grows m1 -> grows m2 -> grows (if b then m1 else m2).
Proof. destruct b; auto. Qed.

Lemma grows_try_oserror {A} (m : M A) (h : exn -> M A) :
  grows m -> (forall x, grows (h x)) -> grows (try_oserror m h).
Proof.
  intros Hm Hh s. unfold try_oserror. destruct (Hm s) as [pre1 H1].
  destruct (m s) as [[a|x] s1]; simpl in H1; [exists pre1; exact H1|].
  destruct (is_oserror x); [|exists pre1; exact H1].
  destruct (Hh x s1) as [pre2 H2]. exists (pre2 ++ pre1). rewrite H2, H1, app_assoc. reflexivity.
Qed.

Create HintDb grows.

#[local] Hint Resolve grows_ret grows_raise grows_get_state grows_print grows_put_file
  grows_bind grows_if grows_try_oserror : grows.

Lemma grows_makedirs (p : str) : grows (makedirs p).
Proof.
  unfold makedirs. apply grows_bind; [apply grows_get_state|]. intros st.
  repeat apply grows_if; auto with grows; intros s; exists []; reflexivity.
Qed.

Lemma grows_write_text (p c : str) : grows (write_text p c).
Proof.
  unfold write_text. apply grows_bind; [apply grows_get_state|]. intros st.
  repeat apply grows_if; auto with grows.
Qed.

Lemma grows_copy2 (src dst : str) : grows (copy2 src dst).
Proof.
  unfold copy2. apply grows_bind; [apply grows_get_state|]. intros st.
  destruct (assoc src (files st)); repeat apply grows_if; auto with grows.
Qed.

#[local] Hint Resolve grows_makedirs grows_write_text grows_copy2 : grows.

Lemma grows_trans_keyfile_path (e : env) (p : option str) : grows (trans_keyfile_path e p).
Proof. unfold trans_keyfile_path. destruct p; auto with grows. Qed.

Lemma grows_GenCmd_init (e : env) (sec : str) (conf : mapping) : grows (GenCmd_init e sec conf).
Proof. unfold GenCmd_init. apply grows_bind; [apply grows_trans_keyfile_path|]. auto with grows. Qed.

Lemma grows_tth (g : GenCmd) (p : str) : grows (tth g p).
Proof. unfold tth. auto with grows. Qed.

Lemma grows_pth (g : GenCmd) (p : str) : grows (pth g p).
Proof. unfold pth. destruct (pth_cmd g); auto with grows. Qed.

Lemma grows_write_ssh_cfg (e : env) (now : datetime) (ls : list str) :
  grows (write_ssh_cfg e now ls).
Proof.
  unfold write_ssh_cfg, write_lines, backup_user_cfg. apply grows_bind; [auto with grows|].
  intros _. apply grows_bind; [|auto with grows].
  apply grows_try_oserror; [|auto with grows].
  apply grows_bind; [auto with grows|]. intros st. auto with grows.
Qed.

#[local] Hint Resolve grows_GenCmd_init grows_tth grows_pth grows_write_ssh_cfg : grows.

Lemma mgrows_mret {A} (a : A) : mgrows (mret a).
Proof. intros s. exists []. reflexivity. Qed.

Lemma mgrows_lift {A} (m : M A) : grows m -> mgrows (lift m).
Proof.
  intros Hm s. destruct (Hm s) as [pre H]. exists pre. unfold lift.
  destruct (m s) as [[a|x] s1]; exact H.
Qed.

Lemma mgrows_lift_i {A} (r : iresult A) : mgrows (lift_i r).
Proof. intros s. exists []. unfold lift_i. destruct r; reflexivity. Qed.

Lemma mgrows_mbind {A B} (m : MM A) (k : A -> MM B) :
  mgrows m -> (forall a, mgrows (k a)) -> mgrows (mbind m k).
Proof.
  intros Hm Hk s. unfold mbind. destruct (Hm s) as [pre1 H1].
  destruct (m s) as [[a|x] s1]; simpl in H1.
  - destruct (Hk a s1) as [pre2 H2]. exists (pre2 ++ pre1). rewrite H2, H1, app_assoc. reflexivity.
  - exists pre1. exact H1.
Qed.

#[local] Hint Resolve mgrows_mret mgrows_lift mgrows_lift_i mgrows_mbind : grows.

Lemma mgrows_main_keys (c fu : ConfigParser) (sec : str) (keys : list str) :
  mgrows (main_keys c fu sec keys).
Proof. induction keys; simpl; auto 10 with grows. Qed.

#[local] Hint Resolve mgrows_main_keys : grows.

Lemma mgrows_main_section (e : env) (c fu : ConfigParser) (sec : str) :
  mgrows (main_section e c fu sec).
Proof. unfold main_section. auto 20 with grows. Qed.

#[local] Hint Resolve mgrows_main_section : grows.

Lemma mgrows_main_sections (e : env) (c fu : ConfigParser) (secs : list str) :
  mgrows (main_sections e c fu secs).
Proof. induction secs; simpl; auto 10 with grows. Qed.

Lemma assoc_app_some (p : str) (pre l : list (str * str)) (v : str) :
  assoc p l = Some v -> exists v', assoc p (pre ++ l) = Some v'.
Proof.
  induction pre as [|[k w] pre IH]; simpl; intros H; [eauto|].
  destruct (streqb p k); eauto.
Qed.

Lemma isfile_files (p : str) (s s' : state) (pre : list (str * str)) :
  files s' = pre ++ files s -> isfile p s = true -> isfile p s' = true.
Proof.
  intros H Hf. unfold isfile in *. rewrite H.
  destruct (assoc p (files s)) as [v|] eqn:E; [|discriminate].
  destruct (assoc_app_some p pre _ v E) as [v' ->]. reflexivity.
Qed.

Lemma isfile_grows {A} (m : M A) (p : str) (s s' : state) (r : result A) :
  grows m -> m s = (r, s') -> isfile p s = true -> isfile p s' = true.
Proof.
  intros Hm E. destruct (Hm s) as [pre H]. rewrite E in H. apply isfile_files with pre. exact H.
Qed.

Lemma isfile_mgrows {A} (m : MM A) (p : str) (s s' : state) (r : mresult A) :
  mgrows m -> m s = (r, s') -> isfile p s = true -> isfile p s' = true.
Proof.
  intros Hm E. destruct (Hm s) as [pre H]. rewrite E in H. apply isfile_files with pre. exact H.
Qed.

Lemma main_section_ok (e : env) (c fu : ConfigParser) (sec : str) (s s' : state) (ls : list str) :
  main_section e c fu sec s = (MOk ls, s') ->
  (exists kls, render_keys c fu sec (options c sec) = IOk kls /\
               ls = ((py "Host " ++ sec) ++ [LF]) :: kls) /\
  isfile (bat_file TTH_OUT_DIR sec) s' = true /\ isfile (bat_file PTH_OUT_DIR sec) s' = true.
Proof.
  unfold main_section. intros H.
  apply mbind_ok_inv in H. destruct H as (u & s1 & _ & H).
  apply mbind_ok_inv in H. destruct H as (kls & s2 & H2 & H).
  apply main_keys_ok in H2.
  apply mbind_ok_inv in H. destruct H as (conf & s3 & H3 & H).
  apply lift_i_ok_inv in H3. destruct H3 as [_ ->].
  apply mbind_ok_inv in H. destruct H as (cmd & s4 & _ & H).
  apply mbind_ok_inv in H. destruct H as (u1 & s5 & H5 & H).
  apply mbind_ok_inv in H. destruct H as (u2 & s6 & H6 & H).
  unfold mret in H. injection H as <- <-.
  apply lift_ok_inv in H5, H6.
  pose proof H6 as H6'.
  apply bind_ok_inv in H5. destruct H5 as (u3 & s7 & _ & H5).
  apply bind_ok_inv in H6. destruct H6 as (u4 & s8 & _ & H6).
  destruct u1, u2.
  assert (Ht : isfile (bat_file TTH_OUT_DIR sec) s5 = true)
    by (unfold isfile, tth in *; rewrite (write_text_ok_assoc _ _ _ _ H5); reflexivity).
  split; [eauto|]. split.
  - refine (isfile_grows _ _ _ _ _ _ H6' Ht). auto with grows.
  - unfold pth in H6. destruct (pth_cmd cmd); [|discriminate].
    unfold isfile. rewrite (write_text_ok_assoc _ _ _ _ H6). reflexivity.
Qed.

Lemma mbind_err {A B} (m : MM A) (k : A -> MM B) (s s1 : state) (y : main_exn) :
  m s = (MErr y, s1) -> mbind m k s = (MErr y, s1).
Proof. intros H. unfold mbind. rewrite H. reflexivity. Qed.

Lemma main_sections_ok (e : env) (c fu : ConfigParser) :
  forall secs s s' ls, main_sections e c fu secs s = (MOk ls, s') ->
  render c fu secs = IOk ls /\
  (forall sec, In sec secs ->
   isfile (bat_file TTH_OUT_DIR sec) s' = true /\ isfile (bat_file PTH_OUT_DIR sec) s' = true).
Proof.
  induction secs as [|sec secs IH]; intros s s' ls H; simpl in H.
  - injection H as <- _. split; [reflexivity|]. intros sec [].
  - apply mbind_ok_inv in H. destruct H as (ls1 & s1 & H1 & H).
    apply mbind_ok_inv in H. destruct H as (ls2 & s2 & H2 & H).
    unfold mret in H. injection H as <- <-.
    destruct (main_section_ok _ _ _ _ _ _ _ H1) as ((kls & Hk & ->) & Ht & Hp).
    destruct (IH _ _ _ H2) as [Hr Hf].
    split; [simpl; rewrite Hk, Hr; reflexivity|].
    intros sec' [<-|Hin]; [|exact (Hf sec' Hin)].
    pose proof (mgrows_main_sections e c fu secs) as Hg.
    split; [exact (isfile_mgrows _ _ _ _ _ Hg H2 Ht)|exact (isfile_mgrows _ _ _ _ _ Hg H2 Hp)].
Qed.

Lemma main_sections_err (e : env) (c fu : ConfigParser) :
  forall secs x, render c fu secs = IErr x ->
  forall s, exists y s', main_sections e c fu secs s = (MErr y, s').
Proof.
  induction secs as [|sec secs IH]; intros x Hr s; simpl in Hr; [discriminate|].
  cbn [main_sections].
  destruct (render_keys c fu sec (options c sec)) as [kls|x'] eqn:Hk.
  - destruct (render c fu secs) as [ls|x''] eqn:Hs; [discriminate|].
    destruct (main_section e c fu sec s) as [[ls1|y] s1] eqn:H1.
    + destruct (IH x'' eq_refl s1) as (y & s' & H2).
      exists y, s'. unfold mbind at 1. rewrite H1. apply mbind_err. exact H2.
    + exists y, s1. apply mbind_err. exact H1.
  - destruct (main_keys_err c fu sec (options c sec) x' Hk
                (snd (print (py "Host " ++ sec) s))) as [s2 H2].
    exists (InterpExc x'), s2. apply mbind_err.
    unfold main_section. unfold mbind at 1. unfold lift at 1.
    destruct (print (py "Host " ++ sec) s) as [r1 s1] eqn:Hp.
    unfold print in Hp. injection Hp as <- <-.
    apply mbind_err. exact H2.
Qed.

Definition main_now : datetime := mkdatetime 2026 10 17 9 30 5.

(** [ssh-host.ini]: a [DEFAULT] user and one host. *)
Definition sample_conf : ConfigParser :=
  mkConfigParser [(py "user", py "me")]
    [(py "web", [(py "hostname", py "w.example.org"); (py "identityfile", py "id_rsa")])].

(** [upper-case.ini] *)
Definition sample_upper : ConfigParser :=
  mkConfigParser []
    [(py "upper", [(py "hostname", py "HostName"); (py "identityfile", py "IdentityFile");
                   (py "user", py "User")])].

(** A host whose port reads [22%]: a lone ['%']. *)
Definition bad_conf : ConfigParser :=
  mkConfigParser []
    [(py "web", [(py "hostname", py "w.example.org"); (py "identityfile", py "id_rsa")]);
     (py "db", [(py "port", py "22%"); (py "identityfile", py "id_rsa")])].

(** When [main] completes, the live ssh configuration holds exactly the
    lines built from the two ini files alone: for each section
    [Host <section>] followed by one [    <Key> <value>] line per option
    of the section and of [DEFAULT] (the key as [upper-case.ini] spells
    it, the value interpolated).  They do not depend on the file system or
    on what [GenCmd] did: an [IdentityFile] line shows the configured
    value, not the copy made in [C:\0\sshkey]. *)
Theorem main_writes_rendered_config :
  forall (e : env) (now : datetime) (c fu : ConfigParser) (s s' : state),
    main e now c fu s = (MOk tt, s') ->
    exists ls, render c fu (sections c) = IOk ls /\
      assoc (ntpath.join (USER_SSH_CFG_FILE e) []) (files s') =
        Some (translate_newlines (concat ls)).
Proof.
  intros e now c fu s s' H. unfold main in H.
  apply mbind_ok_inv in H. destruct H as (ls & s1 & H1 & H).
  apply lift_ok_inv in H.
  destruct (main_sections_ok e c fu _ _ _ _ H1) as [Hr _].
  exists ls. split; [exact Hr|].
  unfold write_ssh_cfg in H.
  apply bind_ok_inv in H. destruct H as (u1 & s2 & _ & H).
  apply bind_ok_inv in H. destruct H as (u2 & s3 & _ & H).
  exact (write_text_ok_assoc _ _ _ _ H).
Qed.

Lemma main_writes_rendered_config_witness :
  main sample_env main_now sample_conf sample_upper key_state =
    (MOk tt, snd (main sample_env main_now sample_conf sample_upper key_state)) /\
  exists ls, render sample_conf sample_upper (sections sample_conf) = IOk ls /\
    assoc (ntpath.join (USER_SSH_CFG_FILE sample_env) [])
          (files (snd (main sample_env main_now sample_conf sample_upper key_state))) =
      Some (translate_newlines (concat ls)).
Proof.
  assert (H : main sample_env main_now sample_conf sample_upper key_state =
              (MOk tt, snd (main sample_env main_now sample_conf sample_upper key_state)))
    by (vm_compute; reflexivity).
  split; [exact H|]. exact (main_writes_rendered_config _ _ _ _ _ _ H).
Defined.



(** When an option of some section cannot be interpolated, [main] fails
    inside the section loop: it returns the loop's error and state, so it
    never reaches the writes of the two ssh configuration files. *)
Theorem main_stops_before_config_on_bad_value :
  forall (e : env) (now : datetime) (c fu : ConfigParser) (s : state) (x : interp_error),
    render c fu (sections c) = IErr x ->
    exists y s', main_sections e c fu (sections c) s = (MErr y, s') /\
                 main e now c fu s = (MErr y, s').
Proof.
  intros e now c fu s x Hr.
  destruct (main_sections_err e c fu _ x Hr s) as (y & s' & H).
  exists y, s'. split; [exact H|]. unfold main. apply mbind_err. exact H.
Qed.

Lemma main_stops_before_config_on_bad_value_witness :
  render bad_conf sample_upper (sections bad_conf) = IErr InterpolationSyntaxError /\
  exists y s', main_sections sample_env bad_conf sample_upper (sections bad_conf) key_state
                 = (MErr y, s') /\
               main sample_env main_now bad_conf sample_upper key_state = (MErr y, s').
Proof.
  assert (H : render bad_conf sample_upper (sections bad_conf) = IErr InterpolationSyntaxError)
    by (vm_compute; reflexivity).
  split; [exact H|]. exact (main_stops_before_config_on_bad_value _ _ _ _ _ _ H).
Defined.


(** ** The compatibility imports and the ConfigParser round trip *)

Fixpoint occurs (sep s : str) : bool :=
  match s with
  | [] => false
  | _ :: s' => startswith sep s || occurs sep s'
  end.

Lemma split_on_go_skip (sep l r : str) :
  split_on_go sep (length l) (l ++ r) = split_on_go sep 0 r.
Proof. induction l as [|x l IH]; [reflexivity|]. exact IH. Qed.

Lemma split_on_go_cons0 (sep : str) (c : ascii) (s : str) :
  split_on_go sep 0 (c :: s) =
  if startswith sep (c :: s) then
    let '(p, ps) := split_on_go sep (length sep - 1) s in ([], p :: ps)
  else let '(p, ps) := split_on_go sep 0 s in (c :: p, ps).
Proof. reflexivity. Qed.

Lemma split_on_go_no_occ (sep s : str) :
  occurs sep s = false -> split_on_go sep 0 s = (s, []).
Proof.
  induction s as [|x s IH]; [reflexivity|].
  cbn [occurs split_on_go]. intros H. apply orb_false_iff in H as [H1 H2].
  rewrite H1, IH by exact H2. reflexivity.
Qed.

Lemma startswith_Host_short (c : ascii) (a b : str) :
  length (c :: a) < 4 -> startswith Host (c :: a ++ Host ++ b) = false.
Proof.
  intros Hl. unfold startswith, streqb.
  destruct (list_eq_dec ascii_dec _ _) as [E|]; [|reflexivity]. exfalso.
  destruct a as [|c2 [|c3 [|c4 a]]]; simpl in Hl; try lia; simpl in E;
    injection E; intros; subst; discriminate.
Qed.

Lemma startswith_long (sep l : str) (r : str) :
  length sep <= length l -> startswith sep (l ++ r) = true ->
  exists l', l = sep ++ l'.
Proof.
  intros Hl Hs. unfold startswith, streqb in Hs.
  destruct (list_eq_dec ascii_dec _ _) as [E|]; [|discriminate].
  rewrite firstn_app in E. replace (length sep - length l) with 0 in E by lia.
  rewrite app_nil_r in E. exists (skipn (length sep) l).
  rewrite <- E at 1. symmetry. apply firstn_skipn.
Qed.

Lemma split_on_last_Host (a b : str) :
  occurs Host b = false ->
  exists p ps, split_on_go Host 0 (a ++ Host ++ b) = (p, ps) /\ ps <> [] /\ last ps [] = b.
Proof.
  intros Hb. remember (length a) as n eqn:Hn.
  revert a Hn. induction n as [n IH] using lt_wf_ind. intros a Hn.
  destruct a as [|c a].
  - exists [], [b]. split; [|split; [discriminate|reflexivity]].
    rewrite app_nil_l. change (Host ++ b) with (chr 72 :: (py "ost" ++ b)). rewrite split_on_go_cons0.
    change (length Host - 1) with (length (py "ost")).
    rewrite split_on_go_skip, split_on_go_no_occ by exact Hb.
    replace (startswith Host (chr 72 :: py "ost" ++ b)) with true; [reflexivity|].
    symmetry. unfold startswith. cbn. reflexivity.
  - cbn [app]. rewrite split_on_go_cons0.
    destruct (startswith Host (c :: a ++ Host ++ b)) eqn:Hs.
    + destruct (Nat.lt_ge_cases (length (c :: a)) 4) as [Hl|Hl].
      { rewrite startswith_Host_short in Hs by exact Hl. discriminate. }
      change (c :: a ++ Host ++ b) with ((c :: a) ++ Host ++ b) in Hs.
      destruct (startswith_long Host (c :: a) _ Hl Hs) as [a' Ea].
      rewrite Ea in Hn. simpl in Hn.
      destruct (IH (length a') ltac:(lia) a' eq_refl) as (p & ps & Hp & Hne & Hlast).
      change (length Host - 1) with (length (py "ost")).
      injection Ea as Ec Ea. subst c a.
      change (("o"%char :: "s"%char :: "t"%char :: a') ++ Host ++ b) with (py "ost" ++ (a' ++ Host ++ b)).
      rewrite split_on_go_skip, Hp.
      exists [], (p :: ps). split; [reflexivity|]. split; [discriminate|].
      destruct ps; [contradiction|]. exact Hlast.
    + simpl in Hn.
      destruct (IH (length a) ltac:(lia) a eq_refl) as (p & ps & Hp & Hne & Hlast).
      rewrite Hp. exists (c :: p), ps. auto.
Qed.

Lemma split_ws_go_space (c : ascii) (s : str) :
  is_space c = true -> split_ws_go (c :: s) = ([], split_ws s).
Proof.
  intros H. cbn [split_ws_go]. unfold split_ws.
  destruct (split_ws_go s) as [w ws]. rewrite H. reflexivity.
Qed.

Lemma split_ws_space (c : ascii) (s : str) :
  is_space c = true -> split_ws (c :: s) = split_ws s.
Proof.
  intros H. unfold split_ws. cbn [split_ws_go].
  destruct (split_ws_go s) as [w ws]. rewrite H. reflexivity.
Qed.

Lemma split_ws_spaces (sp s : str) :
  forallb is_space sp = true -> split_ws (sp ++ s) = split_ws s.
Proof.
  induction sp as [|c sp IH]; [reflexivity|].
  cbn [forallb app]. intros H. apply andb_true_iff in H as [H1 H2].
  rewrite split_ws_space by exact H1. apply IH, H2.
Qed.

Lemma split_ws_go_word (w r : str) :
  existsb is_space w = false ->
  split_ws_go (w ++ r) = (w ++ fst (split_ws_go r), snd (split_ws_go r)).
Proof.
  induction w as [|c w IH]; intros H.
  - simpl. destruct (split_ws_go r); reflexivity.
  - cbn [existsb] in H. apply orb_false_iff in H as [H1 H2].
    cbn [app split_ws_go]. rewrite IH by exact H2. rewrite H1. reflexivity.
Qed.

Lemma split_ws_word (w r : str) :
  w <> [] -> existsb is_space w = false ->
  (r = [] \/ exists c r', r = c :: r' /\ is_space c = true) ->
  split_ws (w ++ r) = w :: split_ws r.
Proof.
  intros Hw Hs Hr. unfold split_ws at 1. rewrite split_ws_go_word by exact Hs.
  destruct Hr as [->|(c & r' & -> & Hc)].
  - simpl. rewrite app_nil_r. destruct w; [contradiction|reflexivity].
  - rewrite split_ws_go_space, split_ws_space by exact Hc. cbn [fst snd].
    rewrite app_nil_r. destruct w; [contradiction|reflexivity].
Qed.

Lemma split_ws_all_space (s : str) : forallb is_space s = true -> split_ws s = [].
Proof.
  intros H. rewrite <- (app_nil_r s). rewrite split_ws_spaces by exact H. reflexivity.
Qed.

Lemma host_of_line_split (a b : str) :
  occurs Host b = false ->
  host_of_line (a ++ Host ++ b) = hd_error (split_ws b).
Proof.
  intros Hb. destruct (split_on_last_Host a b Hb) as (p & ps & Hp & Hne & Hl).
  unfold host_of_line, split_on. rewrite Hp.
  destruct ps as [|q ps]; [contradiction|].
  change (last (p :: q :: ps) []) with (last (q :: ps) []). rewrite Hl.
  destruct (split_ws b); reflexivity.
Qed.

(** The host name [compat_file] and [compat_dir] take from a [Host] line
    is the first whitespace-separated word after the LAST occurrence of
    [Host] in the line; when only whitespace follows it the line has no
    host name ([IndexError] in the source). *)
Theorem host_of_line_last_host :
  forall a b : str, occurs Host b = false ->
    (forall sp w r, b = sp ++ w ++ r -> forallb is_space sp = true ->
       w <> [] -> existsb is_space w = false ->
       (r = [] \/ exists c r', r = c :: r' /\ is_space c = true) ->
       host_of_line (a ++ Host ++ b) = Some w) /\
    (forallb is_space b = true -> host_of_line (a ++ Host ++ b) = None).
Proof.
  intros a b Hb. rewrite host_of_line_split by exact Hb. split.
  - intros sp w r -> Hsp Hw Hws Hr.
    rewrite split_ws_spaces, split_ws_word by assumption. reflexivity.
  - intros H. rewrite split_ws_all_space by exact H. reflexivity.
Qed.

Lemma host_of_line_last_host_witness :
  occurs Host (py " A") = false /\
  host_of_line (py "Host my" ++ Host ++ py " A") = Some (py "A").
Proof.
  split; [reflexivity|].
  apply (proj1 (host_of_line_last_host (py "Host my") (py " A") eq_refl) [space] (py "A") []);
    [reflexivity|reflexivity|discriminate|reflexivity|left; reflexivity].
Defined.

Lemma is_space_not_word (c : ascii) : is_space c = true -> is_word c = false.
Proof.
  destruct c as [b0 b1 b2 b3 b4 b5 b6 b7].
  destruct b0, b1, b2, b3, b4, b5, b6, b7; vm_compute; congruence.
Qed.

Lemma split_ws_go_fst (s : str) :
  exists r, s = fst (split_ws_go s) ++ r /\
            (r = [] \/ exists c r', r = c :: r' /\ is_space c = true).
Proof.
  induction s as [|c s IH].
  - exists []. auto.
  - destruct (is_space c) eqn:Hc.
    + rewrite split_ws_go_space by exact Hc. exists (c :: s). split; [reflexivity|].
      right. exists c, s. auto.
    + cbn [split_ws_go]. destruct IH as (r & Hs & Hr).
      destruct (split_ws_go s) as [w ws]. rewrite Hc. cbn [fst] in *.
      exists r. split; [rewrite Hs at 1; reflexivity|exact Hr].
Qed.

Lemma split_ws_go_words (s : str) : Forall (fun w => w <> []) (snd (split_ws_go s)).
Proof.
  induction s as [|c s IH]; [constructor|].
  cbn [split_ws_go]. destruct (split_ws_go s) as [w ws]. cbn [snd] in *.
  destruct (is_space c); [|exact IH].
  destruct w as [|x w]; [exact IH|]. constructor; [discriminate|exact IH].
Qed.

Lemma split_ws_words (s : str) : Forall (fun w => w <> []) (split_ws s).
Proof.
  pose proof (split_ws_go_words s) as H. unfold split_ws.
  destruct (split_ws_go s) as [w ws]. destruct w as [|x w]; [exact H|].
  constructor; [discriminate|exact H].
Qed.

Lemma host_of_line_nonempty (line h : str) : host_of_line line = Some h -> h <> [].
Proof.
  unfold host_of_line. pose proof (split_ws_words (last (split_on Host line) [])) as H.
  destruct (split_ws _) as [|w ws]; [discriminate|]. intros E. injection E as <-.
  inversion H. assumption.
Qed.

Lemma lstrip_ws_space (c : ascii) (s : str) : is_space c = true -> lstrip_ws (c :: s) = lstrip_ws s.
Proof. intros H. cbn [lstrip_ws]. rewrite H. reflexivity. Qed.

Lemma first_word (s w : str) (ws : list str) :
  split_ws s = w :: ws ->
  exists r, lstrip_ws s = w ++ r /\ (r = [] \/ exists c r', r = c :: r' /\ is_space c = true).
Proof.
  induction s as [|c s IH]; [discriminate|].
  destruct (is_space c) eqn:Hc.
  - rewrite split_ws_space, lstrip_ws_space by exact Hc. exact IH.
  - intros E. cbn [lstrip_ws]. rewrite Hc.
    destruct (split_ws_go_fst s) as (r & Hs & Hr).
    unfold split_ws in E. cbn [split_ws_go] in E.
    destruct (split_ws_go s) as [w0 ws0]. rewrite Hc in E. injection E as <- _.
    cbn [fst] in Hs. exists r. split; [rewrite Hs at 1; reflexivity|exact Hr].
Qed.

Lemma startswith_self (p r : str) : startswith p (p ++ r) = true.
Proof.
  unfold startswith. rewrite firstn_app, Nat.sub_diag, firstn_all, firstn_O, app_nil_r.
  apply streqb_eq. reflexivity.
Qed.

Lemma skipn_self (p r : str) : skipn (length p) (p ++ r) = r.
Proof. rewrite skipn_app, skipn_all, Nat.sub_diag. reflexivity. Qed.

Lemma key_not_Host (line key : str) (words : list str) :
  split_ws line = key :: words -> re_host_start line = false -> key <> Host.
Proof.
  intros E Hh ->. destruct (first_word _ _ _ E) as (r & Hl & Hr).
  unfold re_host_start in Hh. rewrite Hl, startswith_self, skipn_self in Hh.
  destruct Hr as [->|(c & r' & -> & Hc)]; [discriminate|].
  cbn [word_end andb] in Hh. rewrite is_space_not_word in Hh by exact Hc. discriminate.
Qed.

Lemma streqb_refl' (a : str) : streqb a a = true.
Proof. apply streqb_eq. reflexivity. Qed.

Lemma streqb_false (a b : str) : a <> b -> streqb a b = false.
Proof. intros H. destruct (streqb a b) eqn:E; [apply streqb_eq in E; contradiction|reflexivity]. Qed.

Lemma assoc_dict_set_other (k k' v : str) (d : list (str * str)) :
  k' <> k -> assoc k' (dict_set k v d) = assoc k' d.
Proof.
  intros Hk. induction d as [|[k0 v0] d IH]; cbn [dict_set assoc].
  - rewrite streqb_false by exact Hk. reflexivity.
  - destruct (streqb k k0) eqn:E.
    + apply streqb_eq in E. subst k0. cbn [assoc]. rewrite streqb_false by exact Hk. reflexivity.
    + cbn [assoc]. rewrite IH. reflexivity.
Qed.

Lemma assoc_dict_set_same (k v : str) (d : list (str * str)) :
  assoc k (dict_set k v d) = Some v.
Proof.
  induction d as [|[k0 v0] d IH]; cbn [dict_set assoc].
  - rewrite streqb_refl'. reflexivity.
  - destruct (streqb k k0) eqn:E; cbn [assoc]; rewrite ?streqb_refl'; [reflexivity|].
    rewrite E. exact IH.
Qed.

Definition host_dict (d : list (str * str)) : Prop := exists h, assoc Host d = Some h /\ h <> [].

Lemma Forall_replace_nth {A} (P : A -> Prop) (l : list A) (n : nat) (x : A) :
  Forall P l -> P x -> Forall P (firstn n l ++ x :: skipn (S n) l).
Proof.
  intros Hl Hx. rewrite <- (firstn_skipn (S n) l) in Hl.
  apply Forall_app in Hl as [H1 H2]. apply Forall_app. split.
  - rewrite <- (firstn_skipn n (firstn (S n) l)) in H1. apply Forall_app in H1 as [H1 _].
    rewrite firstn_firstn in H1. replace (Nat.min n (S n)) with n in H1 by lia. exact H1.
  - constructor; assumption.
Qed.

Lemma compat_file_scan_hosts (lines : list str) :
  forall hn idx hl hl', Forall host_dict hl ->
  compat_file_scan hn idx hl lines = COk hl' -> Forall host_dict hl'.
Proof.
  induction lines as [|line lines IH]; intros hn idx hl hl' Hhl E.
  - injection E as <-. exact Hhl.
  - cbn [compat_file_scan] in E.
    destruct (re_comment line || re_blank line); [exact (IH _ _ _ _ Hhl E)|].
    destruct (re_host_start line) eqn:Hh.
    + destruct (host_of_line line) as [h|] eqn:Ho; [|discriminate].
      refine (IH _ _ _ _ _ E). apply Forall_app. split; [exact Hhl|].
      constructor; [|constructor]. exists h. split; [cbn [assoc]; rewrite streqb_refl'; reflexivity|].
      exact (host_of_line_nonempty _ _ Ho).
    + destruct (hn <? idx) eqn:Hlt; [|exact (IH _ _ _ _ Hhl E)].
      apply Nat.ltb_lt in Hlt.
      destruct (split_ws line) as [|key words] eqn:Hw; [discriminate|].
      destruct (nth_error hl (idx - 1)) as [d|] eqn:Hd; [|discriminate].
      refine (IH _ _ _ _ _ E).
      replace idx with (S (idx - 1)) at 2 by lia.
      apply Forall_replace_nth; [exact Hhl|].
      pose proof (nth_error_In _ _ Hd) as Hin. rewrite Forall_forall in Hhl.
      destruct (Hhl d Hin) as (h & Hh' & Hne). exists h. split; [|exact Hne].
      rewrite assoc_dict_set_other; [exact Hh'|].
      intros Ek. exact (key_not_Host _ _ _ Hw Hh (eq_sym Ek)).
Qed.

(** [c'] is [c] with sections appended: [DEFAULT] and the sections of [c]
    are unchanged, and the new sections have distinct non-empty names that
    are not [DEFAULT], do not start with ['*'] and are not sections of [c]. *)
Definition adds_sections (c c' : ConfigParser) : Prop :=
  defaults c' = defaults c /\
  exists added, sections_ c' = sections_ c ++ added /\
    NoDup (List.map fst added) /\
    Forall (fun p => fst p <> [] /\ streqb (fst p) default_section = false /\
                     startswith [star] (fst p) = false /\ has_section c (fst p) = false) added.

Lemma assoc_sec_app (x : str) (l1 l2 : list (str * list (str * str))) :
  assoc_sec x (l1 ++ l2) = match assoc_sec x l1 with Some d => Some d | None => assoc_sec x l2 end.
Proof.
  induction l1 as [|[k d] l1 IH]; [reflexivity|]. cbn [app assoc_sec].
  destruct (streqb x k); [reflexivity|exact IH].
Qed.

Lemma has_section_app (c : ConfigParser) (x : str) (added : list (str * list (str * str))) (c' : ConfigParser) :
  sections_ c' = sections_ c ++ added -> has_section c x = true -> has_section c' x = true.
Proof.
  unfold has_section. intros E. rewrite E, assoc_sec_app.
  destruct (assoc_sec x (sections_ c)); [reflexivity|discriminate].
Qed.

Lemma assoc_sec_in (x : str) (l : list (str * list (str * str))) :
  In x (List.map fst l) -> exists d, assoc_sec x l = Some d.
Proof.
  induction l as [|[k d] l IH]; [intros []|]. cbn [List.map fst In assoc_sec].
  intros [->|H]; [rewrite streqb_refl'; eauto|].
  destruct (streqb x k); eauto.
Qed.

Lemma adds_sections_refl (c : ConfigParser) : adds_sections c c.
Proof.
  split; [reflexivity|]. exists []. rewrite app_nil_r. split; [reflexivity|].
  split; constructor.
Qed.

Lemma adds_sections_trans (c1 c2 c3 : ConfigParser) :
  adds_sections c1 c2 -> adds_sections c2 c3 -> adds_sections c1 c3.
Proof.
  intros (Hd1 & a1 & E1 & N1 & F1) (Hd2 & a2 & E2 & N2 & F2).
  split; [congruence|]. exists (a1 ++ a2).
  split; [rewrite E2, E1, app_assoc; reflexivity|]. split.
  - rewrite map_app. apply NoDup_app; [exact N1|exact N2|].
    intros x Hx1 Hx2. rewrite Forall_forall in F2.
    apply in_map_iff in Hx2 as ([x' d] & Hex & Hin). cbn [fst] in Hex. subst x'.
    destruct (F2 _ Hin) as (_ & _ & _ & Hn). cbn [fst] in Hn.
    destruct (assoc_sec_in x a1 Hx1) as [d' Hd'].
    unfold has_section in Hn. rewrite E1, assoc_sec_app in Hn.
    destruct (assoc_sec x (sections_ c1)); [discriminate|]. rewrite Hd' in Hn. discriminate.
  - apply Forall_app. split; [exact F1|].
    eapply Forall_impl; [|exact F2]. intros [x d] (H1 & H2 & H3 & H4). cbn [fst] in *.
    split; [exact H1|]. split; [exact H2|]. split; [exact H3|].
    destruct (has_section c1 x) eqn:H; [|reflexivity].
    rewrite (has_section_app c1 x a1 c2 E1 H) in H4. discriminate.
Qed.

Lemma sec_update_last (h : str) (f : list (str * str) -> list (str * str)) pre d :
  assoc_sec h pre = None -> sec_update h f (pre ++ [(h, d)]) = pre ++ [(h, f d)].
Proof.
  induction pre as [|[k d0] pre IH]; cbn [app sec_update assoc_sec].
  - rewrite streqb_refl'. reflexivity.
  - destruct (streqb h k); [discriminate|]. intros H. rewrite IH by exact H. reflexivity.
Qed.

Lemma cp_set_last (c c' : ConfigParser) pre (h : str) d (k v : str) :
  sections_ c = pre ++ [(h, d)] -> assoc_sec h pre = None ->
  h <> [] -> streqb h default_section = false ->
  cp_set c h k v = COk c' ->
  defaults c' = defaults c /\ sections_ c' = pre ++ [(h, dict_set (optionxform k) v d)].
Proof.
  intros Hs Hp Hne Hd E. unfold cp_set in E.
  assert (Hv : exists r, (match v with [] => COk v | _ :: _ => before_set v end) = r /\
                         forall v', r = COk v' -> v' = v).
  { eexists. split; [reflexivity|]. intros v' Ev. destruct v; [congruence|].
    unfold before_set in Ev. destruct (existsb _ _); congruence. }
  destruct Hv as (r & Er & Hr). rewrite Er in E. destruct r as [v'|x]; [|discriminate].
  rewrite (Hr v' eq_refl) in E. cbn [cbind] in E.
  rewrite (streqb_false h []) in E by exact Hne. rewrite Hd in E. cbn [orb] in E.
  rewrite Hs, assoc_sec_app, Hp in E. cbn [assoc_sec] in E. rewrite streqb_refl' in E.
  injection E as <-. cbn [defaults sections_]. split; [reflexivity|].
  apply sec_update_last. exact Hp.
Qed.

Lemma add_section_ok (c c1 : ConfigParser) (h : str) :
  add_section c h = COk c1 ->
  streqb h default_section = false /\ has_section c h = false /\
  defaults c1 = defaults c /\ sections_ c1 = sections_ c ++ [(h, [])].
Proof.
  unfold add_section. destruct (streqb h default_section); [discriminate|].
  destruct (has_section c h); [discriminate|]. intros E. injection E as <-. auto.
Qed.

Lemma compat_file_set_last (i : list (str * str)) :
  forall (c c' : ConfigParser) pre (h : str) d,
  sections_ c = pre ++ [(h, d)] -> assoc_sec h pre = None ->
  h <> [] -> streqb h default_section = false ->
  compat_file_set c h i = COk c' ->
  defaults c' = defaults c /\ exists d', sections_ c' = pre ++ [(h, d')].
Proof.
  induction i as [|[key v] i IH]; intros c c' pre h d Hs Hp Hne Hd E.
  - injection E as <-. eauto.
  - cbn [compat_file_set] in E.
    destruct (streqb key Host); [exact (IH _ _ _ _ _ Hs Hp Hne Hd E)|].
    destruct (streqb key (py "ProxyCommand")); [exact (IH _ _ _ _ _ Hs Hp Hne Hd E)|].
    destruct (cp_set c h key v) as [c1|x] eqn:E1; [|discriminate]. cbn [cbind] in E.
    destruct (cp_set_last _ _ _ _ _ _ _ Hs Hp Hne Hd E1) as [Hd1 Hs1].
    destruct (IH _ _ _ _ _ Hs1 Hp Hne Hd E) as [Hd2 Hs2]. split; [congruence|exact Hs2].
Qed.

Lemma compat_dir_set_last (lines : list str) :
  forall (c c' : ConfigParser) pre (h : str) d,
  sections_ c = pre ++ [(h, d)] -> assoc_sec h pre = None ->
  h <> [] -> streqb h default_section = false ->
  compat_dir_set c h lines = COk c' ->
  defaults c' = defaults c /\ exists d', sections_ c' = pre ++ [(h, d')].
Proof.
  induction lines as [|line lines IH]; intros c c' pre h d Hs Hp Hne Hd E.
  - injection E as <-. eauto.
  - cbn [compat_dir_set] in E.
    destruct (split_ws line) as [|key words]; [discriminate|].
    destruct (streqb key Host); [exact (IH _ _ _ _ _ Hs Hp Hne Hd E)|].
    destruct (cp_set c h key _) as [c1|x] eqn:E1; [|discriminate]. cbn [cbind] in E.
    destruct (cp_set_last _ _ _ _ _ _ _ Hs Hp Hne Hd E1) as [Hd1 Hs1].
    destruct (IH _ _ _ _ _ Hs1 Hp Hne Hd E) as [Hd2 Hs2]. split; [congruence|exact Hs2].
Qed.

Lemma adds_one_section (c c2 : ConfigParser) (h : str) d :
  h <> [] -> streqb h default_section = false -> startswith [star] h = false ->
  has_section c h = false ->
  defaults c2 = defaults c -> sections_ c2 = sections_ c ++ [(h, d)] ->
  adds_sections c c2.
Proof.
  intros H1 H2 H3 H4 Hd Hs. split; [exact Hd|]. exists [(h, d)].
  split; [exact Hs|]. split; [constructor; [intros []|constructor]|].
  constructor; [|constructor]. cbn [fst]. auto.
Qed.

Lemma has_section_false (c : ConfigParser) (h : str) :
  has_section c h = false -> assoc_sec h (sections_ c) = None.
Proof. unfold has_section. destruct (assoc_sec h (sections_ c)); congruence. Qed.

Lemma add_then_set (c c' : ConfigParser) (h : str)
      (set : ConfigParser -> cresult ConfigParser) :
  h <> [] -> startswith [star] h = false ->
  (forall c1 c2 pre d, sections_ c1 = pre ++ [(h, d)] -> assoc_sec h pre = None ->
     h <> [] -> streqb h default_section = false -> set c1 = COk c2 ->
     defaults c2 = defaults c1 /\ exists d', sections_ c2 = pre ++ [(h, d')]) ->
  cbind (add_section c h) set = COk c' -> adds_sections c c'.
Proof.
  intros Hne Hst Hset E. destruct (add_section c h) as [c1|x] eqn:Ea; [|discriminate].
  cbn [cbind] in E. destruct (add_section_ok _ _ _ Ea) as (Hd & Hn & Hd1 & Hs1).
  destruct (Hset _ _ _ _ Hs1 (has_section_false _ _ Hn) Hne Hd E) as [Hd2 (d' & Hs2)].
  apply (adds_one_section c c' h d'); auto. congruence.
Qed.

Lemma compat_file_merge_adds (hl : list (list (str * str))) :
  forall c c', Forall host_dict hl -> compat_file_merge c hl = COk c' -> adds_sections c c'.
Proof.
  induction hl as [|i hl IH]; intros c c' Hhl E.
  - injection E as <-. apply adds_sections_refl.
  - inversion Hhl as [|? ? (h & Hh & Hne) Hrest]; subst.
    cbn [compat_file_merge] in E. rewrite Hh in E.
    destruct (startswith [star] h) eqn:Hst; [exact (IH _ _ Hrest E)|].
    destruct (has_section c h) eqn:Hs; [exact (IH _ _ Hrest E)|].
    destruct (cbind (add_section c h) (fun c => compat_file_set c h i)) as [c2|x] eqn:E2.
    + apply adds_sections_trans with c2.
      * apply (add_then_set c c2 h (fun c => compat_file_set c h i) Hne Hst); [|exact E2].
        intros. eapply compat_file_set_last; eassumption.
      * apply (IH c2 c' Hrest).
        destruct (add_section c h) as [c1|]; [|discriminate]. cbn [cbind] in E, E2.
        rewrite E2 in E. exact E.
    + destruct (add_section c h) as [c1|]; cbn [cbind] in E, E2; [rewrite E2 in E|]; discriminate.
Qed.

(** [compat_file] never changes or removes what [ssh-host.ini] defines:
    when it succeeds it only appends new sections, with distinct non-empty
    names that are not [DEFAULT], do not start with [*] and did not exist. *)
Theorem compat_file_only_adds_sections :
  forall (e : env) (s : state) (c c' : ConfigParser),
    compat_file e s c = COk c' -> adds_sections c c'.
Proof.
  intros e s c c' E. unfold compat_file in E.
  destruct (read_lines (SSH_CONF_FILE e) s) as [lines|x]; [|discriminate]. cbn [cbind] in E.
  destruct (compat_file_scan _ _ [] lines) as [hl|x] eqn:Hs; [|discriminate]. cbn [cbind] in E.
  apply (compat_file_merge_adds hl); [|exact E].
  exact (compat_file_scan_hosts _ _ _ _ _ (Forall_nil _) Hs).
Qed.

Lemma compat_dir_scan_host (ls : list str) :
  forall host lines host' lines',
  (forall h, host = Some h -> h <> []) ->
  compat_dir_scan host lines ls = COk (host', lines') ->
  forall h, host' = Some h -> h <> [].
Proof.
  induction ls as [|line ls IH]; intros host lines host' lines' Hh E.
  - injection E as <- <-. exact Hh.
  - cbn [compat_dir_scan] in E.
    set (r := if re_host_any line then _ else _) in E.
    assert (Hr : forall h0, r = COk h0 -> forall h, h0 = Some h -> h <> []).
    { intros h0 Er. unfold r in Er. destruct (re_host_any line).
      - destruct (host_of_line line) as [h1|] eqn:Ho; [|discriminate].
        injection Er as <-. intros h E'. injection E' as <-. exact (host_of_line_nonempty _ _ Ho).
      - injection Er as <-. exact Hh. }
    destruct r as [h0|x]; [|discriminate]. cbn [cbind] in E.
    specialize (Hr h0 eq_refl).
    destruct (negb _); [destruct h0|]; exact (IH _ _ _ _ Hr E).
Qed.

Lemma compat_dir_entry_adds (s : state) (c c' : ConfigParser) (i : str) :
  compat_dir_entry s c i = COk c' -> adds_sections c c'.
Proof.
  unfold compat_dir_entry. intros E.
  destruct (negb _); [injection E as <-; apply adds_sections_refl|].
  destruct (read_lines _ s) as [ls|x]; [|discriminate]. cbn [cbind] in E.
  destruct (compat_dir_scan None [] ls) as [[host lines]|x] eqn:Hs; [|discriminate].
  cbn [cbind] in E.
  destruct host as [h|]; [|injection E as <-; apply adds_sections_refl].
  assert (Hne : h <> []).
  { refine (compat_dir_scan_host ls None [] (Some h) lines _ Hs h eq_refl). intros ? E0; discriminate E0. }
  destruct (startswith [star] h) eqn:Hst; [injection E as <-; apply adds_sections_refl|].
  destruct (has_section c h); [injection E as <-; apply adds_sections_refl|].
  apply (add_then_set c c' h (fun c => compat_dir_set c h lines) Hne Hst); [|exact E].
  intros. eapply compat_dir_set_last; eassumption.
Qed.

(** The same for [compat_dir]: it only appends new sections, with distinct
    non-empty names that are not [DEFAULT], do not start with [*] and did
    not exist. *)
Theorem compat_dir_only_adds_sections :
  forall (s : state) (names : list str) (c c' : ConfigParser),
    compat_dir s names c = COk c' -> adds_sections c c'.
Proof.
  intros s names c c'. unfold compat_dir.
  destruct (negb _); [intros E; injection E as <-; apply adds_sections_refl|].
  revert c. induction names as [|i names IH]; intros c E.
  - injection E as <-. apply adds_sections_refl.
  - cbn [compat_dir_entries] in E.
    destruct (compat_dir_entry s c i) as [c1|x] eqn:E1; [|discriminate]. cbn [cbind] in E.
    exact (adds_sections_trans _ _ _ (compat_dir_entry_adds _ _ _ _ E1) (IH _ E)).
Qed.

Lemma find_from_lt (c : ascii) (s : str) (start i : nat) :
  find_from c s start = Some i -> i < length s.
Proof.
  unfold find_from. destruct (index_of c (skipn start s)) as [k|] eqn:E; [|discriminate].
  intros H. injection H as <-. apply index_of_some in E as (a & r & Hs & _ & ->).
  assert (Hl : length (skipn start s) = length a + S (length r)) by (rewrite Hs, length_app; reflexivity).
  rewrite length_skipn in Hl. lia.
Qed.

Lemma splitroot_root_or_drive (p : str) :
  let '(d, r, q) := ntpath.splitroot p in
  r <> [] \/ q = [] \/ d = [] \/ ntpath.last_char d = Some colon.
Proof.
  unfold ntpath.splitroot.
  destruct (streqb (firstn 1 (ntpath.norm p)) [ntpath.sep]) eqn:E1.
  - destruct (streqb (firstn 1 (skipn 1 (ntpath.norm p))) [ntpath.sep]).
    + destruct (find_from _ _ _) as [i|]; [|cbv beta iota zeta; right; left; reflexivity].
      destruct (find_from _ _ (i + 1)) as [i2|] eqn:F2; [|cbv beta iota zeta; right; left; reflexivity].
      cbv beta iota zeta. left. apply find_from_lt in F2. unfold ntpath.norm in F2. rewrite length_map in F2.
      destruct (skipn i2 p) eqn:Es; [|discriminate].
      apply (f_equal (@length ascii)) in Es. rewrite length_skipn in Es. cbn in Es. lia.
    + cbv beta iota zeta. left. destruct p; [discriminate E1|discriminate].
  - destruct (streqb (firstn 1 (skipn 1 (ntpath.norm p))) [colon]) eqn:E3.
    + assert (Hd : ntpath.last_char (firstn 2 p) = Some colon).
      { destruct p as [|x0 [|x1 rest]]; try (vm_compute in E3; discriminate E3).
        apply streqb_eq in E3. rewrite !norm_cons in E3. cbn [firstn skipn] in E3. injection E3 as E3.
        destruct (chreqb x1 ntpath.altsep); [vm_compute in E3; discriminate E3|]. subst x1. reflexivity. }
      destruct (streqb (firstn 1 (skipn 2 (ntpath.norm p))) [ntpath.sep]); cbv beta iota zeta; right; right; right; exact Hd.
    + cbv beta iota zeta. right. right. left. reflexivity.
Qed.

Lemma join_nil (p : str) : ntpath.join p [] = p.
Proof.
  pose proof (splitroot_concat p) as Hc. pose proof (splitroot_root_or_drive p) as Hr.
  unfold ntpath.join. cbn [fold_left].
  destruct (ntpath.splitroot p) as [[d r] q].
  replace (negb (streqb q []) && streqb r [] &&
           match ntpath.last_char d with
           | Some c => negb (chreqb c colon || ntpath.is_sep c)
           | None => false
           end) with false; [exact Hc|].
  destruct Hr as [Hr|[->|[->|Hd]]].
  - rewrite (proj2 (streqb_neq r []) Hr). rewrite andb_false_r. reflexivity.
  - reflexivity.
  - rewrite andb_false_r. reflexivity.
  - rewrite Hd, chreqb_refl. rewrite andb_false_r. reflexivity.
Qed.

Lemma SSH_CONF_FILE_user (e : env) : SSH_CONF_FILE e = ntpath.join (USER_SSH_CFG_FILE e) [].
Proof. rewrite join_nil. reflexivity. Qed.

Lemma translate_newlines_cons (x : ascii) (t : str) :
  translate_newlines (x :: t) = (if chreqb x LF then linesep else [x]) ++ translate_newlines t.
Proof. reflexivity. Qed.

Lemma universal_translate (t : str) : ~ In CR t -> universal_newlines (translate_newlines t) = t.
Proof.
  induction t as [|x t IH]; intros H; [reflexivity|].
  rewrite translate_newlines_cons.
  assert (Hx : x <> CR) by (intros ->; apply H; left; reflexivity).
  assert (Ht : ~ In CR t) by (intros Hi; apply H; right; exact Hi).
  destruct (chreqb x LF) eqn:E.
  - apply chreqb_eq in E. subst x. unfold linesep. cbn [app universal_newlines].
    rewrite chreqb_refl, IH by exact Ht. reflexivity.
  - cbn [app universal_newlines]. rewrite (proj2 (chreqb_neq x CR) Hx), IH by exact Ht. reflexivity.
Qed.

Lemma readlines_go_line (body rest : str) :
  ~ In LF body -> readlines_go (body ++ LF :: rest) = (body ++ [LF], readlines rest).
Proof.
  induction body as [|x body IH]; intros H.
  - cbn [app readlines_go]. unfold readlines. destruct (readlines_go rest) as [l ls].
    rewrite chreqb_refl. reflexivity.
  - cbn [app readlines_go]. rewrite IH by (intros Hi; apply H; right; exact Hi).
    assert (Hx : x <> LF) by (intros ->; apply H; left; reflexivity).
    rewrite (proj2 (chreqb_neq x LF) Hx). reflexivity.
Qed.

Definition single_line (l : str) : Prop :=
  exists body, l = body ++ [LF] /\ ~ In LF body /\ ~ In CR body.

Lemma readlines_concat (ls : list str) :
  Forall single_line ls -> readlines (concat ls) = ls.
Proof.
  induction 1 as [|l ls (body & -> & H1 & _) _ IH]; [reflexivity|].
  cbn [concat]. rewrite <- app_assoc. cbn [app].
  unfold readlines at 1. rewrite readlines_go_line by exact H1.
  rewrite IH. destruct body; reflexivity.
Qed.

Lemma concat_no_cr (ls : list str) : Forall single_line ls -> ~ In CR (concat ls).
Proof.
  induction 1 as [|l ls (body & -> & H1 & H2) _ IH]; [intros []|].
  cbn [concat]. intros Hi. apply in_app_or in Hi as [Hi|Hi]; [|contradiction].
  apply in_app_or in Hi as [Hi|[Hi|[]]]; [contradiction|discriminate].
Qed.

Lemma main_ok_user_cfg (e : env) (now : datetime) (c fu : ConfigParser) (s s' : state) :
  main e now c fu s = (MOk tt, s') ->
  exists ls, render c fu (sections c) = IOk ls /\
    assoc (ntpath.join (USER_SSH_CFG_FILE e) []) (files s') = Some (translate_newlines (concat ls)).
Proof.
  intros H. unfold main in H.
  apply mbind_ok_inv in H. destruct H as (ls & s1 & H1 & H).
  apply lift_ok_inv in H.
  destruct (main_sections_ok e c fu _ _ _ _ H1) as [Hr _].
  exists ls. split; [exact Hr|].
  unfold write_ssh_cfg in H.
  apply bind_ok_inv in H. destruct H as (u1 & s2 & _ & H).
  apply bind_ok_inv in H. destruct H as (u2 & s3 & _ & H).
  exact (write_text_ok_assoc _ _ _ _ H).
Qed.

(** The ssh configuration [main] writes is read back by [compat_file]'s
    [readlines] as exactly the rendered lines, when each rendered line is a
    single line ending in a line feed. *)
Theorem main_config_reads_back :
  forall (e : env) (now : datetime) (c fu : ConfigParser) (s s' : state) (ls : list str),
    main e now c fu s = (MOk tt, s') ->
    render c fu (sections c) = IOk ls ->
    Forall single_line ls ->
    read_lines (SSH_CONF_FILE e) s' = COk ls.
Proof.
  intros e now c fu s s' ls H Hr Hl.
  destruct (main_ok_user_cfg _ _ _ _ _ _ H) as (ls' & Hr' & Ha).
  rewrite Hr in Hr'. injection Hr' as <-.
  unfold read_lines. rewrite SSH_CONF_FILE_user, Ha.
  rewrite universal_translate by (apply concat_no_cr; exact Hl).
  rewrite readlines_concat by exact Hl. reflexivity.
Qed.

Lemma before_get_escape_ok (map : list (str * str)) (v : str) : before_get map (escape v) = IOk v.
Proof.
  rewrite before_get_loop.
  rewrite (loop_escape _ map (length v) v); [reflexivity|lia|].
  pose proof (escape_length v). lia.
Qed.

Lemma drop_pct_pct_cons (x : ascii) (r : str) :
  x <> pct -> drop_pct_pct (x :: r) = x :: drop_pct_pct r.
Proof.
  intros Hx. destruct r as [|y r]; [reflexivity|].
  cbn [drop_pct_pct]. rewrite (proj2 (chreqb_neq x pct) Hx). reflexivity.
Qed.

Lemma escape_cons (x : ascii) (v : str) :
  escape (x :: v) = (if chreqb x pct then [pct; pct] else [x]) ++ escape v.
Proof. reflexivity. Qed.

Lemma drop_pct_pct_escape (v : str) :
  drop_pct_pct (escape v) = filter (fun c => negb (chreqb c pct)) v.
Proof.
  induction v as [|x v IH]; [reflexivity|].
  rewrite escape_cons. cbn [filter]. destruct (chreqb x pct) eqn:E.
  - exact IH.
  - apply chreqb_neq in E. cbn [app negb]. rewrite drop_pct_pct_cons by exact E. rewrite IH. reflexivity.
Qed.

Lemma keycre_match_not_pct (x : ascii) (r : str) : x <> pct -> keycre_match (x :: r) = None.
Proof.
  intros Hx. unfold keycre_match. destruct r as [|y r]; [reflexivity|].
  rewrite (proj2 (chreqb_neq x pct) Hx). reflexivity.
Qed.

Lemma keycre_sub_go_app (a s : str) :
  ~ In pct a -> keycre_sub_go 0 (a ++ s) = a ++ keycre_sub_go 0 s.
Proof.
  induction a as [|x a IH]; intros Ha; [reflexivity|].
  assert (Hx : x <> pct) by (intros ->; apply Ha; left; reflexivity).
  cbn [app keycre_sub_go]. rewrite keycre_match_not_pct by exact Hx.
  rewrite IH by (intros Hi; apply Ha; right; exact Hi). reflexivity.
Qed.

Lemma drop_pct_pct_app (a s : str) :
  ~ In pct a -> drop_pct_pct (a ++ s) = a ++ drop_pct_pct s.
Proof.
  induction a as [|x a IH]; intros Ha; [reflexivity|].
  assert (Hx : x <> pct) by (intros ->; apply Ha; left; reflexivity).
  cbn [app]. rewrite drop_pct_pct_cons by exact Hx.
  rewrite IH by (intros Hi; apply Ha; right; exact Hi). reflexivity.
Qed.

Lemma drop_pct_pct_cons2 (c1 c2 : ascii) (s : str) :
  drop_pct_pct (c1 :: c2 :: s) =
  if chreqb c1 pct && chreqb c2 pct then drop_pct_pct s else c1 :: drop_pct_pct (c2 :: s).
Proof. reflexivity. Qed.

Lemma drop_pct_pct_in (x : ascii) (s : str) : In x (drop_pct_pct s) -> In x s.
Proof.
  induction s as [s IH] using (induction_ltof1 _ (@length ascii)).
  destruct s as [|c1 [|c2 s]]; [tauto|tauto|].
  cbn [drop_pct_pct]. destruct (chreqb c1 pct && chreqb c2 pct).
  - intros H. right; right. apply (IH s); [unfold ltof; cbn; lia|exact H].
  - intros [H|H]; [left; exact H|right].
    apply (IH (c2 :: s)); [unfold ltof; cbn; lia|exact H].
Qed.

Lemma no_pct_filter (v : str) : ~ In pct (filter (fun c => negb (chreqb c pct)) v).
Proof.
  intros H. apply filter_In in H. destruct H as [_ H].
  rewrite chreqb_refl in H. discriminate H.
Qed.

Lemma before_set_clean (v : str) : ~ In pct (drop_pct_pct v) -> before_set v = COk v.
Proof.
  intros Hv. unfold before_set, keycre_sub.
  rewrite <- (app_nil_r (drop_pct_pct v)). rewrite keycre_sub_go_app by exact Hv.
  cbn [keycre_sub_go]. rewrite app_nil_r.
  replace (existsb (chreqb pct) (drop_pct_pct v)) with false; [reflexivity|].
  symmetry. apply existsb_pct_false. exact Hv.
Qed.

Lemma before_set_stray (v : str) (a r : str) :
  ~ In pct a -> keycre_match (pct :: r) = None -> drop_pct_pct v = a ++ pct :: r ->
  before_set v = CErr (CPyExc ValueError).
Proof.
  intros Ha Hm Hv. unfold before_set, keycre_sub. rewrite Hv, keycre_sub_go_app by exact Ha.
  cbn [keycre_sub_go]. rewrite Hm.
  replace (existsb (chreqb pct) (a ++ pct :: keycre_sub_go 0 r)) with true; [reflexivity|].
  symmetry. apply existsb_exists. exists pct. split; [apply in_or_app; right; left; reflexivity|apply chreqb_refl].
Qed.

Lemma cp_set_escape_ok (c : ConfigParser) (sec k v : str) :
  cp_set c sec k (escape v) =
  (fun value => let o := optionxform k in
    if streqb sec [] || streqb sec default_section then
      COk (mkConfigParser (dict_set o value (defaults c)) (sections_ c))
    else match assoc_sec sec (sections_ c) with
         | None => CErr NoSectionError
         | Some _ => COk (mkConfigParser (defaults c) (sec_update sec (dict_set o value) (sections_ c)))
         end) (escape v).
Proof.
  unfold cp_set. destruct (escape v) as [|x r] eqn:E; [reflexivity|].
  rewrite before_set_clean; [reflexivity|]. rewrite <- E, drop_pct_pct_escape. apply no_pct_filter.
Qed.

Lemma assoc_sec_update (s : str) (f : list (str * str) -> list (str * str)) l :
  assoc_sec s (sec_update s f l) = option_map f (assoc_sec s l).
Proof.
  induction l as [|[k d] l IH]; [reflexivity|]. cbn [sec_update assoc_sec].
  destruct (streqb s k) eqn:E; cbn [assoc_sec]; rewrite E; [reflexivity|exact IH].
Qed.

Lemma assoc_app_first (k v : str) (l1 l2 : list (str * str)) :
  assoc k l1 = Some v -> assoc k (l1 ++ l2) = Some v.
Proof.
  induction l1 as [|[k0 v0] l1 IH]; [discriminate|]. cbn [app assoc].
  destruct (streqb k k0); [exact (fun H => H)|exact IH].
Qed.

(** [ConfigParser.set] of a value with every ['%'] doubled, into
    [DEFAULT] or an existing section, succeeds, and [get] of the same
    option (any case) then gives the original value back. *)
Theorem set_escaped_value_reads_back :
  forall c sec k v,
  streqb sec default_section = true \/ (sec <> [] /\ has_section c sec = true) ->
  exists c', cp_set c sec k (escape v) = COk c' /\
    forall k', optionxform k' = optionxform k -> cp_get c' sec k' = IOk (Some v).
Proof.
  intros c sec k v Hs. rewrite cp_set_escape_ok. cbv beta zeta.
  destruct Hs as [Hd|[Hn Hh]].
  - rewrite Hd, orb_true_r. eexists; split; [reflexivity|]. intros k' Hk.
    unfold cp_get, unify_values. cbn [defaults]. rewrite Hd, Hk, assoc_dict_set_same, before_get_escape_ok.
    reflexivity.
  - unfold has_section in Hh. destruct (assoc_sec sec (sections_ c)) as [d|] eqn:Ha; [|discriminate Hh].
    destruct (streqb sec default_section) eqn:Hd.
    + eexists; split; [rewrite orb_true_r; reflexivity|]. intros k' Hk.
      unfold cp_get, unify_values. cbn [defaults]. rewrite Hd, Hk, assoc_dict_set_same, before_get_escape_ok.
      reflexivity.
    + rewrite (streqb_false sec [] Hn). cbn [orb].
      eexists; split; [reflexivity|]. intros k' Hk.
      unfold cp_get, unify_values. cbn [defaults sections_]. rewrite Hd, assoc_sec_update, Ha, Hk.
      cbn [option_map]. rewrite (assoc_app_first _ _ _ _ (assoc_dict_set_same _ _ d)).
      rewrite before_get_escape_ok. reflexivity.
Qed.

(** [ConfigParser.set], as [compat_file] and [compat_dir] call it, fails
    with [ValueError] on a value whose first ['%'] is neither doubled nor
    followed by ['('], or starts a [%(] never closed by [')']; the section
    does not matter, the value is checked first. *)
Theorem set_rejects_stray_percent :
  forall c sec k a r, ~ In pct a ->
  ((forall x r', r = x :: r' -> x <> pct /\ x <> lpar) ->
     cp_set c sec k (a ++ pct :: r) = CErr (CPyExc ValueError)) /\
  (~ In rpar r -> cp_set c sec k (a ++ pct :: lpar :: r) = CErr (CPyExc ValueError)).
Proof.
  intros c sec k a r Ha. split.
  - intros Hr. unfold cp_set. destruct (a ++ pct :: r) as [|y t] eqn:E; [destruct a; discriminate E|].
    rewrite <- E. destruct r as [|x r'].
    + rewrite (before_set_stray _ a []); [reflexivity|exact Ha|reflexivity|].
      rewrite drop_pct_pct_app by exact Ha. reflexivity.
    + destruct (Hr x r' eq_refl) as [Hx Hl].
      rewrite (before_set_stray _ a (x :: drop_pct_pct r')); [reflexivity|exact Ha| |].
      * unfold keycre_match. rewrite chreqb_refl, (proj2 (chreqb_neq x lpar) Hl). reflexivity.
      * rewrite drop_pct_pct_app by exact Ha. f_equal.
        rewrite drop_pct_pct_cons2, chreqb_refl, (proj2 (chreqb_neq x pct) Hx). cbn [andb].
        rewrite drop_pct_pct_cons by exact Hx. reflexivity.
  - intros Hr. unfold cp_set. destruct (a ++ pct :: lpar :: r) as [|y t] eqn:E; [destruct a; discriminate E|].
    rewrite <- E.
    assert (Hl : lpar <> pct) by (intros H; vm_compute in H; discriminate H).
    rewrite (before_set_stray _ a (lpar :: drop_pct_pct r)); [reflexivity|exact Ha| |].
    + apply keycre_match_unclosed. intros H. apply Hr, (drop_pct_pct_in _ _ H).
    + rewrite drop_pct_pct_app by exact Ha. f_equal.
      rewrite drop_pct_pct_cons2, chreqb_refl, (proj2 (chreqb_neq lpar pct) Hl). cbn [andb].
      rewrite drop_pct_pct_cons by exact Hl. reflexivity.
Qed.

Definition lines_text (ls : list str) : str := concat (map (fun l => l ++ [LF]) ls).

Definition compat_state : state :=
  mkstate [(py "C:\Users\me\.ssh\config",
            lines_text [py "# personal hosts"; py "Host web2"; py "    HostName w2.example.org";
                        py "    User git"; py "Host web"; py "    Port 2222";
                        py "Host *"; py "    ForwardAgent yes"]);
           (py "C:\1\gitbash\ssh-host.d\db.cfg",
            lines_text [py "Host db"; py "  HostName db.example.org"; py "  Port 5432"]);
           (py "C:\1\gitbash\ssh-host.d\notes.txt", lines_text [py "Host x"])]
          [py "C:\1\gitbash\ssh-host.d"] [] [].

(** [compat_state] merged into [sample_conf]: [web] already exists and
    [Host *] is skipped, so only [web2] is added. *)
Definition compat_file_conf : ConfigParser :=
  mkConfigParser (defaults sample_conf)
    (sections_ sample_conf ++
     [(py "web2", [(py "hostname", py "w2.example.org"); (py "user", py "git")])]).

Definition compat_dir_conf : ConfigParser :=
  mkConfigParser (defaults sample_conf)
    (sections_ sample_conf ++
     [(py "db", [(py "hostname", py "db.example.org"); (py "port", py "5432")])]).

Definition compat_names : list str := [py "db.cfg"; py "notes.txt"; py "gone.cfg"].

Lemma compat_file_only_adds_sections_witness :
  compat_file sample_env compat_state sample_conf = COk compat_file_conf /\
  adds_sections sample_conf compat_file_conf.
Proof.
  assert (H : compat_file sample_env compat_state sample_conf = COk compat_file_conf)
    by (vm_compute; reflexivity).
  split; [exact H|exact (compat_file_only_adds_sections _ _ _ _ H)].
Defined.

Lemma compat_dir_only_adds_sections_witness :
  compat_dir compat_state compat_names sample_conf = COk compat_dir_conf /\
  adds_sections sample_conf compat_dir_conf.
Proof.
  assert (H : compat_dir compat_state compat_names sample_conf = COk compat_dir_conf)
    by (vm_compute; reflexivity).
  split; [exact H|exact (compat_dir_only_adds_sections _ _ _ _ H)].
Defined.

Definition single_line_b (l : str) : bool :=
  match rev l with
  | x :: rb => chreqb x LF && negb (existsb (chreqb LF) rb) && negb (existsb (chreqb CR) rb)
  | [] => false
  end.

Lemma single_line_b_ok (l : str) : single_line_b l = true -> single_line l.
Proof.
  unfold single_line_b. rewrite <- (rev_involutive l). rewrite rev_involutive.
  destruct (rev l) as [|x rb]; [discriminate|]. intros H.
  apply andb_prop in H. destruct H as [H Hc]. apply andb_prop in H. destruct H as [Hx Hl].
  apply chreqb_eq in Hx. subst x. exists (rev rb). split; [reflexivity|].
  apply negb_true_iff in Hl, Hc. split; intros Hi; apply in_rev in Hi.
  - assert (Hb : existsb (chreqb LF) rb = true) by (apply existsb_exists; exists LF; split; [exact Hi|apply chreqb_refl]).
    congruence.
  - assert (Hb : existsb (chreqb CR) rb = true) by (apply existsb_exists; exists CR; split; [exact Hi|apply chreqb_refl]).
    congruence.
Qed.

Lemma single_lines_b (ls : list str) : forallb single_line_b ls = true -> Forall single_line ls.
Proof.
  intros H. apply Forall_forall. intros l Hl. apply single_line_b_ok.
  exact (proj1 (forallb_forall _ _) H l Hl).
Qed.

(** The lines [main] renders for [sample_conf]. *)
Definition sample_rendered : list str :=
  match render sample_conf sample_upper (sections sample_conf) with IOk ls => ls | IErr _ => [] end.

Lemma main_config_reads_back_witness :
  main sample_env main_now sample_conf sample_upper key_state =
    (MOk tt, snd (main sample_env main_now sample_conf sample_upper key_state)) /\
  render sample_conf sample_upper (sections sample_conf) = IOk sample_rendered /\
  Forall single_line sample_rendered /\
  read_lines (SSH_CONF_FILE sample_env)
    (snd (main sample_env main_now sample_conf sample_upper key_state)) = COk sample_rendered.
Proof.
  assert (H : main sample_env main_now sample_conf sample_upper key_state =
              (MOk tt, snd (main sample_env main_now sample_conf sample_upper key_state)))
    by (vm_compute; reflexivity).
  assert (Hr : render sample_conf sample_upper (sections sample_conf) = IOk sample_rendered)
    by (vm_compute; reflexivity).
  assert (Hl : Forall single_line sample_rendered) by (apply single_lines_b; vm_compute; reflexivity).
  split; [exact H|split; [exact Hr|split; [exact Hl|]]].
  exact (main_config_reads_back _ _ _ _ _ _ _ H Hr Hl).
Defined.

Lemma set_escaped_value_reads_back_witness :
  exists c', cp_set sample_conf (py "web") (py "ProxyCommand") (escape (py "nc %h %p")) = COk c' /\
    cp_get c' (py "web") (py "proxycommand") = IOk (Some (py "nc %h %p")).
Proof.
  destruct (set_escaped_value_reads_back sample_conf (py "web") (py "ProxyCommand") (py "nc %h %p"))
    as (c' & H1 & H2); [right; split; [discriminate|reflexivity]|].
  exists c'. split; [exact H1|]. apply H2. reflexivity.
Defined.

Lemma set_rejects_stray_percent_witness :
  cp_set sample_conf (py "web") (py "IdentityFile") (py "~/.ssh/" ++ pct :: py "h")
    = CErr (CPyExc ValueError) /\
  cp_set sample_conf (py "web") (py "IdentityFile") (py "~/.ssh/" ++ pct :: lpar :: py "h")
    = CErr (CPyExc ValueError).
Proof.
  assert (Ha : ~ In pct (py "~/.ssh/")) by (intros H; repeat (destruct H as [H|H]; [vm_compute in H; discriminate H|]); exact H).
  destruct (set_rejects_stray_percent sample_conf (py "web") (py "IdentityFile") (py "~/.ssh/") (py "h") Ha) as [H1 _].
  destruct (set_rejects_stray_percent sample_conf (py "web") (py "IdentityFile") (py "~/.ssh/") (py "h") Ha) as [_ H2].
  split.
  - apply H1. intros x r' E. injection E as <- <-. split; intros H; vm_compute in H; discriminate H.
  - apply H2. intros H. repeat (destruct H as [H|H]; [vm_compute in H; discriminate H|]). exact H.
Defined.

Lemma compat_file_scan_no_host (hn : nat) (hl : list (list (str * str))) (lines : list str) :
  Forall (fun l => re_host_start l = false) lines ->
  compat_file_scan hn hn hl lines = COk hl.
Proof.
  induction 1 as [|l lines Hl _ IH]; [reflexivity|].
  cbn [compat_file_scan]. rewrite Hl, Nat.ltb_irrefl.
  destruct (re_comment l || re_blank l); exact IH.
Qed.

(** A configuration file with no [Host] line changes nothing: every other
    line, key lines included, comes before any host and is skipped. *)
Theorem compat_file_without_hosts :
  forall e s c lines,
  read_lines (SSH_CONF_FILE e) s = COk lines ->
  Forall (fun l => re_host_start l = false) lines ->
  compat_file e s c = COk c.
Proof.
  intros e s c lines Hr Hl. unfold compat_file. rewrite Hr. cbn [cbind length].
  rewrite compat_file_scan_no_host by exact Hl. reflexivity.
Qed.

Lemma replace_all_single (c r : ascii) (s : str) :
  replace_all c [r] s = map (fun x => if chreqb x c then r else x) s.
Proof.
  induction s as [|x s IH]; [reflexivity|].
  unfold replace_all in *. cbn [flat_map map]. rewrite IH.
  destruct (chreqb x c); reflexivity.
Qed.

Lemma letter_not_fsl (d : ascii) : is_ascii_letter d = true -> chreqb d fsl = false.
Proof.
  intros H. apply chreqb_neq. intros ->. vm_compute in H. discriminate H.
Qed.

(** A Git Bash path [/d/rest] with a drive letter [d] becomes the Windows
    path [d:\rest] with every ['/'] of [rest] turned into ['\']; no ['/']
    is left. *)
Theorem gitbash_value_windows_path :
  forall d rest, is_ascii_letter d = true ->
  gitbash_value (fsl :: d :: fsl :: rest) =
    d :: colon :: bsl :: map (fun x => if chreqb x fsl then bsl else x) rest /\
  ~ In fsl (gitbash_value (fsl :: d :: fsl :: rest)).
Proof.
  intros d rest Hd.
  assert (E : gitbash_value (fsl :: d :: fsl :: rest) =
              d :: colon :: bsl :: map (fun x => if chreqb x fsl then bsl else x) rest).
  { unfold gitbash_value, re_gitbash_path. rewrite chreqb_refl, Hd. cbn [andb].
    cbn [replace_first]. rewrite chreqb_refl. cbn [app replace_first].
    rewrite letter_not_fsl by exact Hd. rewrite chreqb_refl. cbn [app].
    rewrite replace_all_single. cbn [map]. rewrite letter_not_fsl by exact Hd.
    reflexivity. }
  split; [exact E|]. rewrite E. intros H.
  destruct H as [H|[H|[H|H]]].
  - rewrite H in Hd. vm_compute in Hd. discriminate Hd.
  - vm_compute in H. discriminate H.
  - vm_compute in H. discriminate H.
  - apply in_map_iff in H. destruct H as (x & Hx & _).
    destruct (chreqb x fsl) eqn:Ex.
    + vm_compute in Hx. discriminate Hx.
    + subst x. rewrite chreqb_refl in Ex. discriminate Ex.
Qed.

Definition plain_state : state :=
  mkstate [(py "C:\Users\me\.ssh\config",
            concat (map (fun l => l ++ [LF])
              [py "# no hosts yet"; py "User git"; py "Hostname x.example.org"]))] [] [] [].

Lemma compat_file_without_hosts_witness :
  read_lines (SSH_CONF_FILE sample_env) plain_state =
    COk [py "# no hosts yet" ++ [LF]; py "User git" ++ [LF]; py "Hostname x.example.org" ++ [LF]] /\
  compat_file sample_env plain_state sample_conf = COk sample_conf.
Proof.
  assert (H : read_lines (SSH_CONF_FILE sample_env) plain_state =
    COk [py "# no hosts yet" ++ [LF]; py "User git" ++ [LF]; py "Hostname x.example.org" ++ [LF]])
    by (vm_compute; reflexivity).
  split; [exact H|]. apply (compat_file_without_hosts _ _ _ _ H).
  repeat constructor.
Defined.

Lemma gitbash_value_windows_path_witness :
  gitbash_value (py "/c/Users/me/.ssh/id_rsa") = py "c:\Users\me\.ssh\id_rsa".
Proof.
  exact (proj1 (gitbash_value_windows_path "c"%char (py "Users/me/.ssh/id_rsa") eq_refl)).
Defined.

(** ** C3: the directory of the PuTTY key name *)

(** [ntpath.join(d, x)] for a plain file name [x] (no separator, no drive)
    keeps [d] as it is and adds at most one separator before [x]. *)
Lemma join_plain_name (d x : str) :
  no_sep x -> ~ In colon x -> x <> [] ->
  exists mid, (mid = [] \/ mid = [ntpath.sep]) /\ ntpath.join d [x] = d ++ mid ++ x.
Proof.
  intros Hs Hc Hne.
  pose proof (splitroot_concat d) as Hd. pose proof (splitroot_root_or_drive d) as Hr.
  unfold ntpath.join. cbn [fold_left].
  destruct (ntpath.splitroot d) as [[rd rr] rp] eqn:Esr.
  unfold ntpath.join_step. rewrite (splitroot_plain x Hs Hc). cbv beta iota zeta.
  change (negb (streqb [] []) && negb (streqb [] rd)) with false. cbv iota.
  set (rpath := match ntpath.last_char rp with
                | Some c => if ntpath.is_sep c then rp else rp ++ [ntpath.sep]
                | None => rp end).
  assert (Hrp : rpath = rp \/ rpath = rp ++ [ntpath.sep]).
  { unfold rpath. destruct (ntpath.last_char rp); [destruct (ntpath.is_sep a)|]; auto. }
  assert (Hne' : streqb (rpath ++ x) [] = false).
  { apply streqb_neq. intros H. apply app_eq_nil in H. destruct H as [_ H]. contradiction. }
  rewrite Hne'. cbn [negb andb].
  destruct (streqb rr []) eqn:Er; cbn [andb].
  - apply streqb_eq in Er. subst rr.
    destruct (ntpath.last_char rd) as [c|] eqn:Ec.
    + destruct (chreqb c colon || ntpath.is_sep c) eqn:Ecs; cbn [negb].
      * exists (if streqb rpath rp then [] else [ntpath.sep]). subst d.
        destruct Hrp as [-> | ->].
        -- rewrite streqb_refl. split; [left; reflexivity|]. rewrite <- ?app_assoc. reflexivity.
        -- destruct (streqb (rp ++ [ntpath.sep]) rp) eqn:E.
           ++ apply streqb_eq in E. apply (f_equal (@length ascii)) in E.
              rewrite length_app in E. cbn in E. lia.
           ++ split; [right; reflexivity|]. rewrite <- !app_assoc. reflexivity.
      * (* a UNC drive without root: then nothing follows it *)
        destruct Hr as [Hr|[->|[->|Hr]]]; [congruence| |discriminate Ec|].
        -- exists [ntpath.sep]. split; [right; reflexivity|].
           assert (rpath = []) as -> by reflexivity. subst d. rewrite !app_nil_r. reflexivity.
        -- injection Hr as ->. rewrite chreqb_refl in Ecs. discriminate Ecs.
    + exists (if streqb rpath rp then [] else [ntpath.sep]). subst d.
      destruct Hrp as [-> | ->].
      * rewrite streqb_refl. split; [left; reflexivity|]. rewrite <- ?app_assoc. reflexivity.
      * destruct (streqb (rp ++ [ntpath.sep]) rp) eqn:E.
        -- apply streqb_eq in E. apply (f_equal (@length ascii)) in E.
           rewrite length_app in E. cbn in E. lia.
        -- split; [right; reflexivity|]. rewrite <- !app_assoc. reflexivity.
  - subst d. destruct Hrp as [-> | ->].
    + exists []. split; [left; reflexivity|]. rewrite <- ?app_assoc. reflexivity.
    + exists [ntpath.sep]. split; [right; reflexivity|]. rewrite <- !app_assoc. reflexivity.
Qed.

Lemma no_sep_app_inv (a b : str) : no_sep (a ++ b) -> no_sep a.
Proof. unfold no_sep. rewrite Forall_app. tauto. Qed.

Lemma plain_ppk (b : str) :
  no_sep b -> ~ In colon b ->
  no_sep (b ++ py ".ppk") /\ ~ In colon (b ++ py ".ppk") /\ b ++ py ".ppk" <> [].
Proof.
  intros Hs Hc. split; [|split].
  - unfold no_sep. apply Forall_app. split; [exact Hs|repeat constructor].
  - intros H. apply in_app_or in H. destruct H as [H|H]; [contradiction|].
    repeat (destruct H as [H|H]; [vm_compute in H; discriminate H|]). exact H.
  - destruct b; discriminate.
Qed.



